(** * Epub-Annotator: the annotation engine of [src/annotate.mjs]

    A shallow embedding of the text-processing core of the annotator
    (token estimation and its LRU cache, the paragraph chunker, the
    validator, the footnote renumberer, the footnote relocation pass,
    the retry loop and the vocabulary memory) together with the
    properties the specification states about them.

    JavaScript strings are sequences of UTF-16 code units; they are
    modelled as [list N].  Regular expressions are modelled by matcher
    functions that return the length of the match found at the head of
    the remaining input, and the global [replace] / [split] / [exec]
    loops by scanners that resume after each match. *)

From Stdlib Require Import ZArith NArith Lia Ascii String.
From stdpp Require Import base list sorting gmap strings pretty.

Set Default Proof Using "Type".

Abbreviation jsstring := (list N).

(** Literals: an ASCII Rocq string as a sequence of code units. *)
Definition str (s : string) : jsstring :=
  (λ a, N_of_ascii a) <$> list_ascii_of_string s.

(** ** Characters *)

Definition LF : N := 10.
Definition CR : N := 13.
Definition SPACE : N := 32.
Definition COLON : N := 58.
Definition LBRACKET : N := 91.
Definition RBRACKET : N := 93.
Definition CARET : N := 94.
Definition EM_DASH : N := 8212.
Definition EN_DASH : N := 8211.

(** [\s] of a JavaScript regular expression, which is also the set that
    [trim], [trimStart] and [trimEnd] strip: WhiteSpace and
    LineTerminator of ECMA-262. *)
Definition is_space (c : N) : bool :=
  ((9 <=? c) && (c <=? 13) || (c =? 32) || (c =? 160) || (c =? 5760)
   || (8192 <=? c) && (c <=? 8202) || (c =? 8232) || (c =? 8233)
   || (c =? 8239) || (c =? 8287) || (c =? 12288) || (c =? 65279))%N.

(** The characters [.] does not match, and at which [^] and [$] match
    under the [m] flag. *)
Definition is_line_terminator (c : N) : bool :=
  ((c =? 10) || (c =? 13) || (c =? 8232) || (c =? 8233))%N.

(** [\d] *)
Definition is_digit (c : N) : bool := ((48 <=? c) && (c <=? 57))%N.

(** [[—–]] *)
Definition is_dash (c : N) : bool := ((c =? EM_DASH) || (c =? EN_DASH))%N.

(** ** String primitives *)

Fixpoint dropWhile (p : N → bool) (s : jsstring) : jsstring :=
  match s with
  | [] => []
  | c :: s' => if p c then dropWhile p s' else s
  end.

Fixpoint takeWhile (p : N → bool) (s : jsstring) : jsstring :=
  match s with
  | [] => []
  | c :: s' => if p c then c :: takeWhile p s' else []
  end.

Definition trimStart (s : jsstring) : jsstring := dropWhile is_space s.
Definition trimEnd (s : jsstring) : jsstring :=
  reverse (dropWhile is_space (reverse s)).
Definition trim (s : jsstring) : jsstring := trimEnd (trimStart s).

(** [Array.prototype.join] on strings. *)
Fixpoint join (sep : jsstring) (parts : list jsstring) : jsstring :=
  match parts with
  | [] => []
  | [p] => p
  | p :: rest => p ++ sep ++ join sep rest
  end.

(** [s.startsWith(p)] *)
Fixpoint startsWith (s p : jsstring) : bool :=
  match p, s with
  | [], _ => true
  | _ :: _, [] => false
  | a :: p', b :: s' => (a =? b)%N && startsWith s' p'
  end.

(** [s.includes(x)] *)
Fixpoint includes (s x : jsstring) : bool :=
  startsWith s x ||
  match s with
  | [] => false
  | _ :: s' => includes s' x
  end.

(** [s.indexOf(x)]; [None] stands for -1. *)
Fixpoint indexOf (s x : jsstring) : option nat :=
  if startsWith s x then Some 0
  else match s with
       | [] => None
       | _ :: s' => S <$> indexOf s' x
       end.

(** [s.lastIndexOf(x)]; [None] stands for -1. *)
Fixpoint lastIndexOf (s x : jsstring) : option nat :=
  match s with
  | [] => if startsWith s x then Some 0 else None
  | _ :: s' =>
      match lastIndexOf s' x with
      | Some i => Some (S i)
      | None => if startsWith s x then Some 0 else None
      end
  end.

(** [s.slice(a, b)] for indices [0 <= a], [0 <= b]. *)
Definition slice (s : jsstring) (a b : nat) : jsstring :=
  take (b - a) (drop a s).

(** ** Global regular-expression loops

    A matcher looks at the rest of the input and answers with the length
    of the match that starts at its first character.  Every expression
    of the program matches at least one character, so the scanners
    resume behind the match ([lastIndex]) by skipping [len - 1] further
    characters. *)

Definition matcher := jsstring → option nat.

(** [s.replace(re, f)] with a global expression: [f] receives the
    matched text. *)
Fixpoint replace_go (m : matcher) (f : jsstring → jsstring)
    (skip : nat) (s : jsstring) : jsstring :=
  match s with
  | [] => []
  | c :: s' =>
      match skip with
      | S k => replace_go m f k s'
      | O =>
          match m s with
          | Some len => f (take len s) ++ replace_go m f (len - 1) s'
          | None => c :: replace_go m f 0 s'
          end
      end
  end.

Definition replaceAll (m : matcher) (f : jsstring → jsstring)
    (s : jsstring) : jsstring :=
  replace_go m f 0 s.

(** The texts matched by a global expression, in order ([matchAll], or
    the callback invocations of [replace]). *)
Fixpoint matches_go (m : matcher) (skip : nat) (s : jsstring)
    : list jsstring :=
  match s with
  | [] => []
  | c :: s' =>
      match skip with
      | S k => matches_go m k s'
      | O =>
          match m s with
          | Some len => take len s :: matches_go m (len - 1) s'
          | None => matches_go m 0 s'
          end
      end
  end.

Definition matchesAll (m : matcher) (s : jsstring) : list jsstring :=
  matches_go m 0 s.

(** [s.split(re)]: the pieces between the matches; the result always
    has at least one piece. *)
Fixpoint split_go (m : matcher) (skip : nat) (s : jsstring)
    : list jsstring :=
  match s with
  | [] => [[]]
  | c :: s' =>
      match skip with
      | S k => split_go m k s'
      | O =>
          match m s with
          | Some len => [] :: split_go m (len - 1) s'
          | None =>
              match split_go m 0 s' with
              | p :: ps => (c :: p) :: ps
              | [] => [[c]]
              end
          end
      end
  end.

Definition split (m : matcher) (s : jsstring) : list jsstring :=
  split_go m 0 s.

(** [/\s+/] *)
Definition re_spaces : matcher := λ s,
  match takeWhile is_space s with
  | [] => None
  | w => Some (length w)
  end.

(** [\s*\n] with its backtracking: the greedy star gives characters
    back until a line feed follows. *)
Fixpoint spaces_then_LF (r : jsstring) : option nat :=
  match r with
  | [] => None
  | c :: r' =>
      if is_space c then
        match spaces_then_LF r' with
        | Some n => Some (S n)
        | None => if (c =? LF)%N then Some 1 else None
        end
      else None
  end.

(** [/\n\s*\n/] *)
Definition re_blank_line : matcher := λ s,
  match s with
  | c :: r => if (c =? LF)%N then S <$> spaces_then_LF r else None
  | [] => None
  end.

(** ** An insertion-ordered [Map] *)

Module JSMap.
Section map.
Context {V : Type}.

Fixpoint get (k : jsstring) (m : list (jsstring * V)) : option V :=
  match m with
  | [] => None
  | (k', v) :: m' => if decide (k' = k) then Some v else get k m'
  end.

Definition has (k : jsstring) (m : list (jsstring * V)) : bool :=
  bool_decide (is_Some (get k m)).

Fixpoint delete (k : jsstring) (m : list (jsstring * V))
    : list (jsstring * V) :=
  match m with
  | [] => []
  | (k', v) :: m' => if decide (k' = k) then m' else (k', v) :: delete k m'
  end.

(** [set] keeps the position of a key that is present and appends a new
    key. *)
Fixpoint set (k : jsstring) (v : V) (m : list (jsstring * V))
    : list (jsstring * V) :=
  match m with
  | [] => [(k, v)]
  | (k', v') :: m' =>
      if decide (k' = k) then (k, v) :: m' else (k', v') :: set k v m'
  end.

Definition size (m : list (jsstring * V)) : nat := length m.

(** [m.keys().next().value] *)
Definition first_key (m : list (jsstring * V)) : option jsstring :=
  fst <$> head m.

End map.
End JSMap.

(** ** Configuration and platform tables

    The constants come from [config.js] and the environment; the Unicode
    tables ([\p{P}], [\p{S}], case mapping) belong to the JavaScript
    engine.  All of them are parameters of the model. *)

Record Env := {
  MODEL_NAME : jsstring;
  MIN_EFFECTIVE_CHUNK_TOKENS : Z;
  FOOTNOTE_MARGIN_TOKENS : Z;
  TOKEN_COUNT_CACHE_SIZE : Z;
  (** does the code point belong to [\p{P}] or [\p{S}] *)
  unicode_P_or_S : N → bool;
  (** [String.prototype.toLowerCase] *)
  toLowerCase : jsstring → jsstring
}.

(** ** TokenEstimator *)

Definition is_high_surrogate (c : N) : bool := ((55296 <=? c) && (c <=? 56319))%N.
Definition is_low_surrogate (c : N) : bool := ((56320 <=? c) && (c <=? 57343))%N.
Definition surrogate_pair (h l : N) : N :=
  (65536 + (h - 55296) * 1024 + (l - 56320))%N.

Definition b2n (b : bool) : nat := if b then 1 else 0.

(** The number of matches of a one-code-point class under the [u] flag:
    the text is read by code points, a surrogate pair counting once.
    [hi] is a high surrogate seen and not yet paired. *)
Fixpoint count_code_points (p : N → bool) (hi : option N) (s : jsstring) : nat :=
  match s with
  | [] => match hi with Some h => b2n (p h) | None => 0 end
  | c :: s' =>
      match hi with
      | Some h =>
          if is_low_surrogate c
          then b2n (p (surrogate_pair h c)) + count_code_points p None s'
          else b2n (p h) +
               (if is_high_surrogate c then count_code_points p (Some c) s'
                else b2n (p c) + count_code_points p None s')
      | None =>
          if is_high_surrogate c then count_code_points p (Some c) s'
          else b2n (p c) + count_code_points p None s'
      end
  end.

Definition nonempty (s : jsstring) : bool :=
  match s with [] => false | _ => true end.

(** [Math.round(n / 4)] on a length, and
    [Math.round((words + punctuation * 0.2 + charEstimate) / 2)]:
    [Math.round] rounds halves up, so on these non-negative quantities
    the two roundings are [(n + 2) / 4] and
    [(5 * (words + charEstimate) + punctuation + 5) / 10] (a tie of the
    second rounding needs [punctuation] to be a multiple of five, where
    the product with 0.2 is exact). *)
Definition approximateTokenCount (env : Env) (text : jsstring) : Z :=
  match text with
  | [] => 0
  | _ =>
      let trimmed := trim text in
      match trimmed with
      | [] => 0
      | _ =>
          let words := Z.of_nat (length (filter (λ w, nonempty w = true) (split re_spaces trimmed))) in
          let punctuation := Z.of_nat (count_code_points (unicode_P_or_S env) None text) in
          let charEstimate := (Z.of_nat (length text) + 2) `div` 4 in
          Z.max 1 ((5 * (words + charEstimate) + punctuation + 5) `div` 10)
      end
  end%Z.

(** [tokenCountCache], a [Map] from key to token count, in insertion
    order. *)
Abbreviation token_cache := (list (jsstring * Z)).

Definition cache_key (model text : jsstring) : jsstring :=
  model ++ str "::" ++ text.

Definition countTokens (env : Env) (text model : jsstring) (tokenCountCache : token_cache)
    : Z * token_cache :=
  let key := cache_key model text in
  match JSMap.get key tokenCountCache with
  | Some value =>
      (value, JSMap.set key value (JSMap.delete key tokenCountCache))
  | None =>
      let tokens := approximateTokenCount env text in
      let cache1 := JSMap.set key tokens tokenCountCache in
      let cache2 :=
        if (TOKEN_COUNT_CACHE_SIZE env <? Z.of_nat (JSMap.size cache1))%Z then
          match JSMap.first_key cache1 with
          | Some oldestKey => JSMap.delete oldestKey cache1
          | None => cache1
          end
        else cache1 in
      (tokens, cache2)
  end.

(** ** Chunker *)

(** [a.length] used as a condition. *)
Definition has_elements {A} (l : list A) : bool :=
  match l with [] => false | _ => true end.

Record chunker_state := {
  chunks : list (list jsstring);
  current : list jsstring;
  currentTokens : Z;
  cache : token_cache
}.

Definition effectiveMax (env : Env) (maxTokens : Z) : Z :=
  Z.max (MIN_EFFECTIVE_CHUNK_TOKENS env) (maxTokens - FOOTNOTE_MARGIN_TOKENS env).

(** One turn of the loop over the paragraphs. *)
Definition chunker_step (env : Env) (maxTokens : Z) (model : jsstring)
    (st : chunker_state) (paragraph : jsstring) : chunker_state :=
  let '(tokens, cache') := countTokens env paragraph model (cache st) in
  let closing :=
    has_elements (current st) &&
    (effectiveMax env maxTokens <? currentTokens st + tokens)%Z in
  let chunks1 := if closing then chunks st ++ [current st] else chunks st in
  let current1 := if closing then [] else current st in
  let tokens1 := if closing then 0%Z else currentTokens st in
  {| chunks := chunks1;
     current := current1 ++ [paragraph];
     currentTokens := (tokens1 + tokens)%Z;
     cache := cache' |}.

(** The chunks as groups of paragraphs, before each group is joined. *)
Definition tokenChunkGroups (env : Env) (text : jsstring) (maxTokens : Z)
    (model : jsstring) (tokenCountCache : token_cache)
    : list (list jsstring) * token_cache :=
  let paragraphs := split re_blank_line (trim text) in
  let st := foldl (chunker_step env maxTokens model)
              {| chunks := []; current := []; currentTokens := 0;
                 cache := tokenCountCache |} paragraphs in
  (if has_elements (current st) then chunks st ++ [current st] else chunks st,
   cache st).

Definition splitIntoTokenChunks (env : Env) (text : jsstring) (maxTokens : Z)
    (model : jsstring) (tokenCountCache : token_cache)
    : list jsstring * token_cache :=
  let '(groups, cache') := tokenChunkGroups env text maxTokens model tokenCountCache in
  (join [LF; LF] <$> groups, cache').

(** ** Footnote syntax *)

(** [\[\^\d+\]] at the head of the input: the length of the marker. *)
Definition marker_head (s : jsstring) : option nat :=
  match s with
  | a :: b :: r =>
      if ((a =? LBRACKET) && (b =? CARET))%N then
        match takeWhile is_digit r with
        | [] => None
        | d =>
            match drop (length d) r with
            | c :: _ => if (c =? RBRACKET)%N then Some (3 + length d) else None
            | [] => None
            end
        end
      else None
  | _ => None
  end.

(** [FOOTNOTE_REF_RE = /\[\^\d+\]/g] *)
Definition FOOTNOTE_REF_RE : matcher := marker_head.

(** [/\[\^(\d+)\]:/] *)
Definition re_def_head : matcher := λ s,
  match marker_head s with
  | Some n =>
      match drop n s with
      | c :: _ => if (c =? COLON)%N then Some (S n) else None
      | [] => None
      end
  | None => None
  end.

(** [/\[\^(\d+)\](?!:)/] *)
Definition re_ref_no_colon : matcher := λ s,
  match marker_head s with
  | Some n =>
      match drop n s with
      | c :: _ => if (c =? COLON)%N then None else Some n
      | [] => Some n
      end
  | None => None
  end.

(** The optional tail of [FOOTNOTE_DEF_BLOCK_RE]: the rest of the line
    (a greedy run of [.]) and every following line, entered through a
    line feed under the negative lookahead for a definition head (which
    itself runs to the end of its line); the number of characters
    taken. *)
Fixpoint block_rest (r : jsstring) : nat :=
  match r with
  | [] => 0
  | c :: r' =>
      if is_line_terminator c then
        if (c =? LF)%N && negb (bool_decide (is_Some (re_def_head r')))
        then S (block_rest r') else 0
      else S (block_rest r')
  end.

(** [FOOTNOTE_DEF_BLOCK_RE]: a line feed, a definition head
    [\[\^\d+\]:], and the optional tail above. *)
Definition FOOTNOTE_DEF_BLOCK_RE : matcher := λ s,
  match s with
  | c :: r =>
      if (c =? LF)%N then
        match re_def_head r with
        | Some n => Some (S (n + block_rest (drop n r)))
        | None => None
        end
      else None
  | [] => None
  end.

(** The lines of a text: the stretches between line terminators, at
    whose starts [^] matches under the [m] flag and which [.*] cannot
    leave. *)
Definition re_line_terminator : matcher := λ s,
  match s with
  | c :: _ => if is_line_terminator c then Some 1 else None
  | [] => None
  end.

Definition lines (s : jsstring) : list jsstring := split re_line_terminator s.

(** [FOOTNOTE_DEF_RE] with [matchAll]: under the [m] flag the
    expression matches each line that begins with a definition head
    [\[\^\d+\]:] and captures the rest of the line as group 1; the
    captured contents, in order. *)
Definition def_line_content (line : jsstring) : option jsstring :=
  match re_def_head line with
  | Some n => Some (drop n line)
  | None => None
  end.

Definition FOOTNOTE_DEF_RE_contents (text : jsstring) : list jsstring :=
  omap def_line_content (lines text).

Local Open Scope N_scope.
Definition ALLOWED_EMOJIS : list jsstring :=
  [[55357; 56538]; [55357; 56467]; [55357; 56615]; [55358; 56800];
   [55357; 56797; 65039]; [55356; 56815; 55356; 56821]; [55356; 57101];
   [55358; 56809]; [9203]].
Local Close Scope N_scope.

(** ** Validator *)

Definition normalizeWhitespace (text : jsstring) : jsstring :=
  trim (replaceAll re_spaces (λ _, [SPACE]) text).

(** [/\s*([—–])\s*/] *)
Definition re_dash : matcher := λ s,
  let lead := takeWhile is_space s in
  match drop (length lead) s with
  | d :: r =>
      if is_dash d then Some (length lead + 1 + length (takeWhile is_space r))
      else None
  | [] => None
  end.

(** The replacement [' $1 ']: group 1 is the dash of the match. *)
Definition dash_replacement (matched : jsstring) : jsstring :=
  match dropWhile is_space matched with
  | d :: _ => [SPACE; d; SPACE]
  | [] => [SPACE; SPACE]
  end.

Definition normalizeDashSpacing (text : jsstring) : jsstring :=
  replaceAll re_dash dash_replacement text.

(** [a.slice(-n)] on an array, [n > 0]. *)
Definition last_n {A} (n : nat) (l : list A) : list A :=
  drop (length l - n) l.

Definition firstWords (s : jsstring) (n : nat) : jsstring :=
  join [SPACE] (take n (split re_spaces s)).

Definition lastWords (s : jsstring) (n : nat) : jsstring :=
  let parts := split re_spaces s in
  join [SPACE] (last_n n parts).

(** The normalised chunk and the normalised body of the candidate, as
    [validatePreserveSource] computes them. *)
Definition source_norm (src : jsstring) : jsstring :=
  normalizeWhitespace (normalizeDashSpacing (trim src)).

Definition strip_footnotes (annotated : jsstring) : jsstring :=
  let body := replaceAll FOOTNOTE_DEF_BLOCK_RE (λ _, []) annotated in
  replaceAll FOOTNOTE_REF_RE (λ _, []) body.

Definition body_norm (annotated : jsstring) : jsstring :=
  normalizeWhitespace (normalizeDashSpacing (strip_footnotes annotated)).

(** The fallback of [validatePreserveSource]: the window between the
    first occurrence of the first words and the last occurrence of the
    last words. *)
Definition windowed_match (srcNorm bodyNorm : jsstring) : bool :=
  let fw := firstWords srcNorm 8 in
  let lw := lastWords srcNorm 8 in
  match indexOf bodyNorm fw, lastIndexOf bodyNorm lw with
  | Some start, Some end_ =>
      if (start <? end_)%nat then
        let window := slice bodyNorm start (end_ + length lw) in
        if includes window srcNorm then true else false
      else false
  | _, _ => false
  end.

Definition validatePreserveSource (src annotated : jsstring) : bool :=
  let srcNorm := source_norm src in
  let bodyNorm := body_norm annotated in
  if negb (nonempty srcNorm) then true
  else if includes bodyNorm srcNorm then true
  else windowed_match srcNorm bodyNorm.

Definition validateFootnoteEmojis (text : jsstring) : bool :=
  forallb
    (λ group1,
       let content := trimStart group1 in
       nonempty content &&
       existsb (λ emoji, startsWith content emoji) ALLOWED_EMOJIS)
    (FOOTNOTE_DEF_RE_contents text).


(** ** Footnote relocation *)

(** [match.replace(/^\n/, '').trimEnd()] *)
Definition clean_block (matched : jsstring) : jsstring :=
  trimEnd (match matched with
           | c :: r => if (c =? LF)%N then r else matched
           | [] => []
           end).

Definition ensureFootnotesAtEnd (text : jsstring) : jsstring :=
  let footnoteBlocks :=
    filter (λ b, nonempty b = true)
      (clean_block <$> matchesAll FOOTNOTE_DEF_BLOCK_RE text) in
  let withoutDefs := replaceAll FOOTNOTE_DEF_BLOCK_RE (λ _, [LF]) text in
  let body := trimEnd withoutDefs in
  if negb (has_elements footnoteBlocks) then body
  else trimEnd (body ++ [LF; LF] ++ join [LF] footnoteBlocks).

(** ** FootnoteRenumberer *)

Inductive marker_kind := ref | def.

Record marker := { index : nat; id : jsstring; kind : marker_kind }.

Global Instance marker_kind_eq_dec : EqDecision marker_kind.
Proof. solve_decision. Defined.
Global Instance marker_eq_dec : EqDecision marker.
Proof. solve_decision. Defined.

(** The loop [while ((match = re.exec(text)) !== null)] of a global
    expression: position and text of every match. *)
Fixpoint exec_go (m : matcher) (skip idx : nat) (s : jsstring)
    : list (nat * jsstring) :=
  match s with
  | [] => []
  | c :: s' =>
      match skip with
      | S k => exec_go m k (S idx) s'
      | O =>
          match m s with
          | Some len => (idx, take len s) :: exec_go m (len - 1) (S idx) s'
          | None => exec_go m 0 (S idx) s'
          end
      end
  end.

Definition execAll (m : matcher) (s : jsstring) : list (nat * jsstring) :=
  exec_go m 0 0 s.

(** Group 1, [(\d+)], of a match of either marker expression. *)
Definition group1 (matched : jsstring) : jsstring :=
  takeWhile is_digit (drop 2 matched).

Definition to_marker (k : marker_kind) (m : nat * jsstring) : marker :=
  {| index := m.1; id := group1 m.2; kind := k |}.

(** The comparators [(a, b) => a.index - b.index] and
    [(a, b) => b.index - a.index]. *)
Definition index_asc (a b : marker) : Prop := index a ≤ index b.
Definition index_desc (a b : marker) : Prop := index b ≤ index a.

Global Instance index_asc_dec a b : Decision (index_asc a b).
Proof. unfold index_asc. apply _. Defined.
Global Instance index_desc_dec a b : Decision (index_desc a b).
Proof. unfold index_desc. apply _. Defined.

(** [String(n)] on an integer. *)
Definition String_of_Z (n : Z) : jsstring := str (pretty n).

Definition collect_order (acc : list jsstring * gset jsstring) (it : marker)
    : list jsstring * gset jsstring :=
  let '(order, seen) := acc in
  if decide (id it ∈ seen) then (order, seen)
  else (order ++ [id it], {[id it]} ∪ seen).

(** [nextId += 1] on a JavaScript number that holds an integer.  From
    [-2^53] to [2^53 - 1] the sum is exact.  Beyond, up to [2^54] in
    magnitude, the numbers are the even integers: [n + 1] lies halfway
    between [n] and [n + 2] and is rounded to the one whose significand
    is even, so that [2^53 + 1] is [2^53] again.  Further out [n + 1]
    is rounded back to [n].  [String(n)] writes the integers below
    [2^54] in magnitude with all their digits. *)
Definition add_one (n : Z) : Z :=
  if ((- 2 ^ 53 <=? n) && (n <? 2 ^ 53))%Z then (n + 1)%Z
  else if ((Z.abs n <? 2 ^ 54) && (n `mod` 4 =? 2))%Z then (n + 2)%Z
  else n.

Definition assign_id (acc : gmap jsstring jsstring * Z) (oldId : jsstring)
    : gmap jsstring jsstring * Z :=
  let '(mapping, nextId) := acc in
  (<[oldId := String_of_Z nextId]> mapping, add_one nextId).

(** One turn of the rewriting loop, which walks the markers from the
    last to the first so that the recorded positions stay valid. *)
Definition rewrite_marker (acc : jsstring * gmap jsstring jsstring * Z)
    (item : marker) : jsstring * gmap jsstring jsstring * Z :=
  let '(result, mapping, nextId) := acc in
  let '(newId, mapping, nextId) :=
    match mapping !! id item with
    | Some newId =>
        if nonempty newId then (newId, mapping, nextId)
        else (String_of_Z nextId,
              <[id item := String_of_Z nextId]> mapping, add_one nextId)
    | None =>
        (String_of_Z nextId,
         <[id item := String_of_Z nextId]> mapping, add_one nextId)
    end in
  match kind item with
  | def =>
      (take (index item) result ++ [LBRACKET; CARET] ++ newId
         ++ [RBRACKET; COLON]
         ++ drop (index item + length (id item) + 4) result,
       mapping, nextId)
  | ref =>
      (take (index item) result ++ [LBRACKET; CARET] ++ newId
         ++ [RBRACKET]
         ++ drop (index item + length (id item) + 3) result,
       mapping, nextId)
  end.

Definition normalizeFootnotesSafe (text : jsstring) (start : Z)
    : jsstring * Z :=
  let refMatches := to_marker ref <$> execAll re_ref_no_colon text in
  let defMatches := to_marker def <$> execAll re_def_head text in
  let '(order, seen) :=
    foldl collect_order ([], ∅)
      (merge_sort index_asc (refMatches ++ defMatches)) in
  let '(mapping, nextId) := foldl assign_id (∅, start) order in
  let items := merge_sort index_desc (refMatches ++ defMatches) in
  let '(result, mapping, nextId) :=
    foldl rewrite_marker (text, mapping, nextId) items in
  (result, nextId).

(** ** RetryScheduler *)

Record js_error := {
  err_name : jsstring;
  err_message : jsstring;
  err_status : option Z
}.

Global Instance js_error_eq_dec : EqDecision js_error.
Proof. solve_decision. Defined.

Inductive outcome (A : Type) :=
  | Returned (value : A)
  | Thrown (error : js_error).
Arguments Returned {A} value.
Arguments Thrown {A} error.

(** Case folding of [/timeout/i]: without the [u] flag no character
    outside ASCII is identified with an ASCII letter. *)
Definition ascii_fold (c : N) : N :=
  if ((65 <=? c) && (c <=? 90))%N then (c + 32)%N else c.

Definition re_timeout_i_test (message : jsstring) : bool :=
  includes (ascii_fold <$> message) (str "timeout").

Definition shouldRetry (error : js_error) : bool :=
  let isAbort :=
    bool_decide (err_name error = str "AbortError")
    || re_timeout_i_test (err_message error) in
  match err_status error with
  | Some status =>
      if (status =? 0)%Z then isAbort
      else bool_decide (status ∈ [429; 502; 503; 504]%Z)
  | None => isAbort
  end.

Definition exceeded_max_retries : js_error :=
  {| err_name := str "Error";
     err_message := str "Exceeded max retries for API call";
     err_status := None |}.

(** The loop [for (attempt = 0; attempt < maxRetries; attempt += 1)];
    [remaining] counts the turns left.  [post attempt] is the outcome of
    the call to [postResponsesStream] made in that turn.  The sleeps
    between the attempts do not influence the result and are left out. *)
Fixpoint backoff_loop (post : Z → outcome jsstring) (maxRetries : Z)
    (remaining : nat) (attempt : Z) : outcome jsstring :=
  match remaining with
  | O => Thrown exceeded_max_retries
  | S remaining' =>
      match post attempt with
      | Returned text => Returned text
      | Thrown error =>
          if negb (shouldRetry error) || (attempt =? maxRetries - 1)%Z
          then Thrown error
          else backoff_loop post maxRetries remaining' (attempt + 1)%Z
      end
  end.

Definition callChatWithBackoff (post : Z → outcome jsstring) (maxRetries : Z)
    : outcome jsstring :=
  backoff_loop post maxRetries (Z.to_nat maxRetries) 0%Z.

(** ** VocabMemory *)

Record VocabMemory := {
  storeLimit : Z;
  terms : list jsstring;
  lower : gset jsstring
}.

(** [a.slice(start)] on an array: a negative [start] counts from the
    end, and [-0] is [0]. *)
Definition array_slice_from {A} (start : Z) (a : list A) : list A :=
  let len := Z.of_nat (length a) in
  if (start <? 0)%Z then drop (Z.to_nat (Z.max (len + start) 0)) a
  else drop (Z.to_nat (Z.min start len)) a.

Definition lower_set (env : Env) (ts : list jsstring) : gset jsstring :=
  list_to_set (toLowerCase env <$> ts).

(** The filtering loop of [load] over the parsed array; an entry that is
    not a string is [None]. *)
Definition load_entry (env : Env) (acc : list jsstring * gset jsstring)
    (entry : option jsstring) : list jsstring * gset jsstring :=
  let '(filtered, seen) := acc in
  match entry with
  | None => acc
  | Some entry =>
      let clean := trim entry in
      if negb (nonempty clean) then acc
      else
        let lower := toLowerCase env clean in
        if decide (lower ∈ seen) then acc
        else (filtered ++ [clean], {[lower]} ∪ seen)
  end.

(** [load]: [data] is the parsed content of the memory file, [None]
    when the file is missing, unreadable or not an array. *)
Definition load (env : Env) (data : option (list (option jsstring)))
    (this : VocabMemory) : VocabMemory :=
  match data with
  | None => this
  | Some data =>
      let '(filtered, _) := foldl (load_entry env) ([], ∅) data in
      let limited := array_slice_from (- storeLimit this) filtered in
      {| storeLimit := storeLimit this;
         terms := limited;
         lower := lower_set env limited |}
  end.

Definition add_term (env : Env) (acc : VocabMemory * bool) (term : jsstring)
    : VocabMemory * bool :=
  let '(this, updated) := acc in
  let clean := trim term in
  if negb (nonempty clean) then acc
  else
    let lower_ := toLowerCase env clean in
    if decide (lower_ ∈ lower this) then acc
    else ({| storeLimit := storeLimit this;
             terms := terms this ++ [clean];
             lower := {[lower_]} ∪ lower this |}, true).

Definition addTerms (env : Env) (new_terms : list jsstring)
    (this : VocabMemory) : VocabMemory * bool :=
  let '(this, updated) := foldl (add_term env) (this, false) new_terms in
  let this :=
    if (storeLimit this <? Z.of_nat (length (terms this)))%Z then
      let kept := array_slice_from (- storeLimit this) (terms this) in
      {| storeLimit := storeLimit this;
         terms := kept;
         lower := lower_set env kept |}
    else this in
  (this, updated).

(** The separators tried in turn by [extractTerms]. *)
Local Open Scope N_scope.
Definition TERM_SEPARATORS : list jsstring :=
  [[58]; [65306]; [32; 45; 32]; [32; 8212; 32]; [32; 8211; 32];
   [8212]; [8211]].
Local Close Scope N_scope.

(** The first emoji the content starts with is cut off. *)
Fixpoint strip_emoji (emojis : list jsstring) (content : jsstring) : jsstring :=
  match emojis with
  | [] => content
  | emoji :: rest =>
      if startsWith content emoji
      then trimStart (drop (length emoji) content)
      else strip_emoji rest content
  end.

(** The candidate is cut at the first separator of the list that
    occurs in it. *)
Fixpoint cut_at_separator (seps : list jsstring) (candidate : jsstring)
    : jsstring :=
  match seps with
  | [] => candidate
  | sep :: rest =>
      match indexOf candidate sep with
      | Some idx => take idx candidate
      | None => cut_at_separator rest candidate
      end
  end.

Definition extract_term (group1 : jsstring) : option jsstring :=
  let content := trim group1 in
  if negb (nonempty content) then None
  else
    let content := strip_emoji ALLOWED_EMOJIS content in
    if negb (nonempty content) then None
    else
      let term := trim (cut_at_separator TERM_SEPARATORS content) in
      if nonempty term then Some term else None.

Definition extractTerms (text : jsstring) : list jsstring :=
  omap extract_term (FOOTNOTE_DEF_RE_contents text).

Definition updateFromText (env : Env) (text : jsstring) (this : VocabMemory)
    : VocabMemory * bool :=
  addTerms env (extractTerms text) this.

(** The operations of the state machine that change the stored terms. *)
Inductive vocab_op :=
  | op_load (data : option (list (option jsstring)))
  | op_addTerms (new_terms : list jsstring)
  | op_updateFromText (text : jsstring).

Definition run_op (env : Env) (this : VocabMemory) (op : vocab_op) : VocabMemory :=
  match op with
  | op_load data => load env data this
  | op_addTerms ts => (addTerms env ts this).1
  | op_updateFromText text => (updateFromText env text this).1
  end.

(** [new VocabMemory(path, storeLimit)]: empty, then [load]. *)
Definition new_VocabMemory (env : Env) (limit : Z)
    (data : option (list (option jsstring))) : VocabMemory :=
  load env data {| storeLimit := limit; terms := []; lower := ∅ |}.

(** * Vocabulary of the properties *)

(** The cache after a run of earlier [countTokens] calls, starting from
    the empty cache of a fresh process; every call site leaves [model]
    at its default, so all calls share it. *)
Definition cache_after (env : Env) (model : jsstring) (prior : list jsstring)
    : token_cache :=
  foldl (λ c text, (countTokens env text model c).2) [] prior.

(** Every entry of the cache holds the estimate of the text of its key. *)
Definition cache_consistent (env : Env) (model : jsstring)
    (c : token_cache) : Prop :=
  Forall (λ kv, ∃ text, kv.1 = cache_key model text
                        ∧ kv.2 = approximateTokenCount env text) c.

(** The estimated cost of a group of paragraphs. *)
Definition group_cost (env : Env) (group : list jsstring) : Z :=
  foldr (λ p acc, (approximateTokenCount env p + acc)%Z) 0%Z group.

(** Every attempt of the retry loop fails with a retryable error. *)
Definition all_attempts_retryable (post : Z → outcome jsstring)
    (maxRetries : Z) : Prop :=
  ∀ k, (0 ≤ k < maxRetries)%Z →
    ∃ e, post k = Thrown e ∧ shouldRetry e = true.

(** The error raised is none of the errors of the attempts. *)
Definition final_error_distinct (post : Z → outcome jsstring)
    (maxRetries : Z) : Prop :=
  ∃ e, callChatWithBackoff post maxRetries = Thrown e
       ∧ ∀ k, (0 ≤ k < maxRetries)%Z → post k ≠ Thrown e.

(** An environment for the concrete runs below: the constants of
    [config.js] are not part of the sources, the values are examples. *)
Definition example_env : Env :=
  {| MODEL_NAME := str "gpt-4.1";
     MIN_EFFECTIVE_CHUNK_TOKENS := 200;
     FOOTNOTE_MARGIN_TOKENS := 100;
     TOKEN_COUNT_CACHE_SIZE := 32;
     unicode_P_or_S := λ c, bool_decide (c ∈ [33; 44; 46; 58; 59; 63]%N);
     toLowerCase := fmap ascii_fold |}.

(** An attempt that always ends in HTTP 429. *)
Definition too_many_requests : js_error :=
  {| err_name := str "Error";
     err_message := str "OpenAI API error 429: rate limited";
     err_status := Some 429%Z |}.

(** *** Footnote tokens

    A text read as a sequence of plain characters, inline markers
    [[^id]] and definition heads [[^id]:]. *)

Inductive token :=
  | Chr (c : N)
  | Mark (k : marker_kind) (i : jsstring).

Definition render_token (t : token) : jsstring :=
  match t with
  | Chr c => [c]
  | Mark ref i => [LBRACKET; CARET] ++ i ++ [RBRACKET]
  | Mark def i => [LBRACKET; CARET] ++ i ++ [RBRACKET; COLON]
  end.

Definition render (ts : list token) : jsstring :=
  concat (render_token <$> ts).

(** Reading a text from left to right: at a marker the reader takes the
    marker (with the colon, if one follows), elsewhere one character. *)
Fixpoint tokenize_go (skip : nat) (s : jsstring) : list token :=
  match s with
  | [] => []
  | c :: s' =>
      match skip with
      | S k => tokenize_go k s'
      | O =>
          match marker_head s with
          | Some n =>
              match drop n s with
              | c' :: _ =>
                  if (c' =? COLON)%N
                  then Mark def (group1 s) :: tokenize_go n s'
                  else Mark ref (group1 s) :: tokenize_go (n - 1) s'
              | [] => Mark ref (group1 s) :: tokenize_go (n - 1) s'
              end
          | None => Chr c :: tokenize_go 0 s'
          end
      end
  end.

Definition tokenize (s : jsstring) : list token := tokenize_go 0 s.

(** The identifiers of the markers, in the order of the text. *)
Definition mark_ids (ts : list token) : list jsstring :=
  omap (λ t, match t with Mark _ i => Some i | Chr _ => None end) ts.

(** The different elements of a list in the order of their first
    occurrence. *)
Fixpoint first_occurrences (l : list jsstring) : list jsstring :=
  match l with
  | [] => []
  | x :: l' => x :: filter (λ y, y ≠ x) (first_occurrences l')
  end.

(** The position of [x] in [l]. *)
Fixpoint position (x : jsstring) (l : list jsstring) : option nat :=
  match l with
  | [] => None
  | y :: l' => if decide (y = x) then Some 0 else S <$> position x l'
  end.

(** The new identifier of [oldId]: [start] plus its rank among the
    first occurrences. *)
Definition new_id (start : Z) (order : list jsstring) (oldId : jsstring)
    : jsstring :=
  match position oldId order with
  | Some k => String_of_Z (start + Z.of_nat k)
  | None => oldId
  end.

(** The counter [k] turns behind [start], and the identifier the loop
    of the code gives to [oldId]. *)
Definition counted (start : Z) (k : nat) : Z := Nat.iter k add_one start.

Definition assigned_id (start : Z) (order : list jsstring) (oldId : jsstring)
    : jsstring :=
  match position oldId order with
  | Some k => String_of_Z (counted start k)
  | None => oldId
  end.

(** The integers that a JavaScript number counts without rounding. *)
Definition exact_integer (n : Z) : Prop := (- 2 ^ 53 ≤ n ≤ 2 ^ 53)%Z.

Definition rename_token (f : jsstring → jsstring) (t : token) : token :=
  match t with
  | Chr c => Chr c
  | Mark k i => Mark k (f i)
  end.

(** The markers of a token sequence that begins at position [i] of the
    text, with their positions. *)
Fixpoint marks_at (i : nat) (ts : list token) : list marker :=
  match ts with
  | [] => []
  | Chr _ :: r => marks_at (S i) r
  | Mark k x :: r =>
      {| index := i; id := x; kind := k |}
      :: marks_at (i + length (render_token (Mark k x))) r
  end.

(** A non-empty run of decimal digits. *)
Definition digits (d : jsstring) : Prop :=
  d ≠ [] ∧ Forall (λ c, is_digit c = true) d.

(** A token sequence that is the reading of its own rendering: a plain
    character starts no marker, an inline marker is not followed by a
    colon, identifiers are digits. *)
Fixpoint wf_tokens (ts : list token) : Prop :=
  match ts with
  | [] => True
  | Chr c :: r => marker_head (c :: render r) = None ∧ wf_tokens r
  | Mark ref x :: r =>
      digits x ∧ head (render r) ≠ Some COLON ∧ wf_tokens r
  | Mark def x :: r => digits x ∧ wf_tokens r
  end.

(** Marker text, said without the expressions of the code: an opening
    bracket, a caret, one or more of the digits 0 to 9, a closing
    bracket. *)
Definition decimal_digits (d : jsstring) : Prop :=
  d ≠ [] ∧ Forall (λ c, (48 ≤ c ≤ 57)%N) d.

Definition begins_with_marker (s : jsstring) : Prop :=
  ∃ d tail, decimal_digits d ∧ s = str "[^" ++ d ++ str "]" ++ tail.

(** [reading ts]: the tokens are the text [render ts] read from left
    to right. A plain character stands where no marker text begins;
    every marker text is a token; the marker is a definition head when
    a colon follows it, and an inline marker otherwise. *)
Fixpoint reading (ts : list token) : Prop :=
  match ts with
  | [] => True
  | Chr c :: r => ¬ begins_with_marker (c :: render r) ∧ reading r
  | Mark ref x :: r =>
      decimal_digits x ∧ head (render r) ≠ head (str ":") ∧ reading r
  | Mark def x :: r => decimal_digits x ∧ reading r
  end.

(** The plain characters a token sequence begins with, and the tokens
    from its first marker on. *)
Fixpoint chr_prefix (ts : list token) : jsstring :=
  match ts with
  | Chr c :: r => c :: chr_prefix r
  | _ => []
  end.

Fixpoint after_chrs (ts : list token) : list token :=
  match ts with
  | Chr c :: r => after_chrs r
  | _ => ts
  end.

(** *** Definition blocks *)

(** A definition block starts here: a line feed followed by a
    definition head. *)
Definition block_start (s : jsstring) : bool :=
  match s with
  | c :: r => (c =? LF)%N && bool_decide (is_Some (re_def_head r))
  | [] => false
  end.

(** No definition block starts anywhere in the text. *)
Definition no_block (s : jsstring) : Prop :=
  ∀ u v, s = u ++ v → block_start v = false.

(** The text does not end in white space. *)
Definition ends_nonspace (s : jsstring) : Prop :=
  match last s with
  | Some c => is_space c = false
  | None => True
  end.

(** What may follow a definition block in a text: the end, or the line
    feed that starts the next block. *)
Definition block_boundary (tail : jsstring) : Prop :=
  tail = [] ∨ ∃ t, tail = LF :: t ∧ is_Some (re_def_head t).

(** Behind a line feed and before a boundary the text [b] is matched
    as one block, whole and alone. *)
Definition scannable_block (b : jsstring) : Prop :=
  (∀ z, is_Some (re_def_head (b ++ z)))
  ∧ (∀ tail, block_boundary tail →
       FOOTNOTE_DEF_BLOCK_RE (LF :: b ++ tail) = Some (S (length b))).

(** A cleaned block is scannable and trimmed at its end. *)
Definition good_block (b : jsstring) : Prop :=
  scannable_block b ∧ ends_nonspace b.

(** The blocks as [ensureFootnotesAtEnd] writes them behind the body,
    each behind its line feed. *)
Definition blocks_text (bs : list jsstring) : jsstring :=
  concat ((λ b, LF :: b) <$> bs).

(** *** Candidates of the validator *)

(** [marked original body]: [body] is [original] with inline markers
    [[^digits]] inserted, and nothing else changed. *)
Inductive marked : jsstring → jsstring → Prop :=
  | marked_nil : marked [] []
  | marked_chr c o b : marked o b → marked (c :: o) (c :: b)
  | marked_ins d o b :
      digits d → marked o b →
      marked o (LBRACKET :: CARET :: d ++ RBRACKET :: b).

(** The text contains no marker text [[^digits]]. *)
Definition no_marker (s : jsstring) : Prop :=
  ∀ u v, s = u ++ v → marker_head v = None.

(** No line of the text begins with a definition head [[^digits]:]. *)
Definition no_def_line (s : jsstring) : Prop :=
  Forall (λ l, re_def_head l = None) (lines s).

(** A test for [no_marker]: no marker begins at any position. *)
Fixpoint no_marker_check (s : jsstring) : bool :=
  match marker_head s, s with
  | Some _, _ => false
  | None, [] => true
  | None, _ :: s' => no_marker_check s'
  end.

(** White space inside a line. *)
Definition inline_space (c : N) : Prop :=
  is_space c = true ∧ is_line_terminator c = false.

(** A definition line that begins, after optional blanks, with an
    allowed emoji. *)
Definition emoji_def_line (l : jsstring) : Prop :=
  ∃ d sp e rest,
    l = LBRACKET :: CARET :: d ++ RBRACKET :: COLON :: sp ++ e ++ rest
    ∧ digits d ∧ Forall inline_space sp ∧ e ∈ ALLOWED_EMOJIS
    ∧ Forall (λ c, is_line_terminator c = false) rest.

(** The candidate: the body, and behind a blank line the definition
    lines, if there are any. *)
Definition candidate (body : jsstring) (defs : list jsstring) : jsstring :=
  match defs with
  | [] => body
  | _ => body ++ [LF; LF] ++ join [LF] defs
  end.










(** Dash spacing followed by the collapse of white space, read in one
    pass: [pending] says that white space (or the blank behind a dash)
    has been seen and not yet written. *)
Fixpoint collapse_go (pending : bool) (x : jsstring) : jsstring :=
  match x with
  | [] => if pending then [SPACE] else []
  | c :: x' =>
      if is_space c then collapse_go true x'
      else if is_dash c then SPACE :: c :: collapse_go true x'
      else (if pending then [SPACE] else []) ++ c :: collapse_go false x'
  end.

(** The example of the specification: a chunk, and the chunk with two
    markers inserted and two definitions appended. *)
Definition sun_chunk : jsstring := str "The sun set.".
Definition sun_body : jsstring := str "The sun[^1] set.[^2]".
Definition sun_defs : list jsstring :=
  [str "[^1]: " ++ [55357; 56538]%N ++ str " sun: the star";
   str "[^2]:" ++ [9203]%N ++ str " set: past tense"].


(** The characters of a text other than white space. *)
Definition visible (x : jsstring) : jsstring :=
  filter (λ c, is_space c = false) x.

(** The check of one captured content in [validateFootnoteEmojis]. *)
Definition emoji_check (group1 : jsstring) : bool :=
  let content := trimStart group1 in
  nonempty content &&
  existsb (λ emoji, startsWith content emoji) ALLOWED_EMOJIS.



(** The example with the word [sun] deleted, and a definition without
    an emoji. *)
Definition sunless_body : jsstring := str "The [^1] set.[^2]".

(** *** Invariants and passes *)

(** The invariant of the loop of [splitIntoTokenChunks] over the
    paragraphs [done_] handled so far. *)
Definition chunker_inv (env : Env) (model : jsstring) (budget : Z)
    (done_ : list jsstring) (st : chunker_state) : Prop :=
  cache_consistent env model (cache st)
  ∧ Forall (λ g, 2 ≤ length g → (group_cost env g ≤ budget)%Z) (chunks st)
  ∧ currentTokens st = group_cost env (current st)
  ∧ (2 ≤ length (current st) → (currentTokens st ≤ budget)%Z)
  ∧ Forall (λ g, g ≠ []) (chunks st)
  ∧ concat (chunks st) ++ current st = done_.

(** The invariant of the store: the lower-case forms of the terms are
    pairwise different, and [lower] is the set of these forms. *)
Definition vocab_inv (env : Env) (vm : VocabMemory) : Prop :=
  NoDup (toLowerCase env <$> terms vm)
  ∧ lower vm = lower_set env (terms vm).

(** The passes of the relocation and of the validator:
    [text.replace(FOOTNOTE_DEF_BLOCK_RE, match => ... '\n')],
    [replace(/\s+/g, ' ')], [replace(FOOTNOTE_REF_RE, '')] and
    [replace(FOOTNOTE_DEF_BLOCK_RE, '')]. *)
Abbreviation without_defs := (replaceAll FOOTNOTE_DEF_BLOCK_RE (λ _, [LF])).
Abbreviation collapse_spaces := (replaceAll re_spaces (λ _, [SPACE])).
Abbreviation strip_refs := (replaceAll FOOTNOTE_REF_RE (λ _, [])).
Abbreviation strip_defs := (replaceAll FOOTNOTE_DEF_BLOCK_RE (λ _, [])).


(** * Vocabulary of the further properties *)

(** *** The token cache *)

(** The keys of the cache are pairwise different and their number stays
    within the configured size. *)
Definition cache_lru_inv (env : Env) (c : token_cache) : Prop :=
  NoDup c.*1
  ∧ (Z.of_nat (length c) ≤ Z.max 0 (TOKEN_COUNT_CACHE_SIZE env))%Z.

(** *** Chunker *)

(** An environment with a small budget, for concrete runs. *)
Definition small_env : Env :=
  {| MODEL_NAME := str "gpt-4.1";
     MIN_EFFECTIVE_CHUNK_TOKENS := 3;
     FOOTNOTE_MARGIN_TOKENS := 0;
     TOKEN_COUNT_CACHE_SIZE := 2;
     unicode_P_or_S := λ c, bool_decide (c ∈ [33; 44; 46; 58; 59; 63]%N);
     toLowerCase := fmap ascii_fold |}.

(** Three paragraphs of two words each. *)
Definition three_paragraphs : jsstring :=
  str "one two" ++ [LF; LF] ++ str "three four" ++ [LF; LF] ++ str "five six".

(** The loop of [splitIntoTokenChunks] closes a chunk only when the
    next paragraph does not fit: [groups] are the closed chunks followed
    by the current one. *)
Definition greedy_inv (env : Env) (budget : Z)
    (groups : list (list jsstring)) : Prop :=
  ∀ i g g' p,
    groups !! i = Some g → groups !! S i = Some g' → head g' = Some p →
    (budget < group_cost env g + approximateTokenCount env p)%Z.

(** *** Normalisation *)

(** Every white-space character of the text is a single blank: it is
    the character [SPACE] and no white space follows it. *)
Fixpoint single_spaced (s : jsstring) : bool :=
  match s with
  | [] => true
  | c :: s' =>
      (if is_space c then
         (c =? SPACE)%N
         && match s' with d :: _ => negb (is_space d) | [] => true end
       else true)
      && single_spaced s'
  end.

(** A chunk, and a candidate that puts a sentence before it and one
    behind it. *)
Definition dusk_chunk : jsstring := str "the sun set.".
Definition dusk_candidate : jsstring :=
  str "Well, the sun set.[^1] Indeed!" ++ [LF; LF]
  ++ str "[^1]: " ++ [9203]%N ++ str " set: past tense".

(** *** Combining the chunks *)

(** One turn of the combining loop of [processFile]: the chunk is
    relocated, renumbered from [nextId] and pushed; [nextId] moves on. *)
Definition combine_step (acc : list jsstring * Z) (annotated : jsstring)
    : list jsstring * Z :=
  let '(combined, nextId) := acc in
  let sanitized := ensureFootnotesAtEnd annotated in
  let normalized := normalizeFootnotesSafe sanitized nextId in
  (combined ++ [normalized.1], normalized.2).

(** The loop over [annotatedChunks], from [nextId = 1]. *)
Definition combine_loop (annotatedChunks : list jsstring) : list jsstring * Z :=
  foldl combine_step ([], 1%Z) annotatedChunks.

(** [finalText = combined.join('\n\n')] *)
Definition finalText (annotatedChunks : list jsstring) : jsstring :=
  join [LF; LF] (combine_loop annotatedChunks).1.

(** [numbered_from s parts e]: the identifiers of the first part, in
    the order of their first occurrence, count from [s]; those of every
    later part count on from where the part before it stopped; the
    last part stops before [e]. *)
Fixpoint numbered_from (s : Z) (parts : list jsstring) (e : Z) : Prop :=
  match parts with
  | [] => e = s
  | p :: r =>
      ∃ k : nat,
        first_occurrences (mark_ids (tokenize p))
        = String_of_Z <$> seqZ s (Z.of_nat k)
        ∧ numbered_from (s + Z.of_nat k) r e
  end.

(** The pure part of [annotateShrunkSubchunks]: every annotated part is
    relocated and renumbered from 1, the parts are joined by a blank
    line, and the whole is renumbered from 1. *)
Definition subchunk_part (annotated : jsstring) : jsstring :=
  (normalizeFootnotesSafe (ensureFootnotesAtEnd annotated) 1).1.

Definition combine_subchunks (annotatedParts : list jsstring) : jsstring :=
  (normalizeFootnotesSafe (join [LF; LF] (subchunk_part <$> annotatedParts)) 1).1.

(** Two annotated chunks that both count their footnotes from 1. *)
Definition chunk_one : jsstring :=
  str "The sun[^1] set.[^2]" ++ [LF; LF] ++ str "[^1]: "
  ++ [55357; 56538]%N ++ str " sun" ++ [LF] ++ str "[^2]: " ++ [9203]%N
  ++ str " set".
Definition chunk_two : jsstring :=
  str "It rose[^1] again." ++ [LF; LF] ++ str "[^1]: "
  ++ [55357; 56538]%N ++ str " rose".

(** *** Retries *)

(** The attempts before attempt [k] all fail with a retryable error. *)
Definition retryable_before (post : Z → outcome jsstring) (k : Z) : Prop :=
  ∀ j, (0 ≤ j < k)%Z → ∃ e, post j = Thrown e ∧ shouldRetry e = true.

(** The attempt settles the call: it returns, or fails with an error
    that is not retried. *)
Definition decisive (o : outcome jsstring) : Prop :=
  match o with
  | Returned _ => True
  | Thrown e => shouldRetry e = false
  end.

(** Two rate-limited attempts, then an answer; and an error of the
    request itself. *)
Definition flaky_post (attempt : Z) : outcome jsstring :=
  if (attempt <? 2)%Z then Thrown too_many_requests else Returned (str "ok").

Definition bad_request : js_error :=
  {| err_name := str "Error";
     err_message := str "OpenAI API error 400: timeout value invalid";
     err_status := Some 400%Z |}.

(** *** VocabMemory *)

(** [recent(limit)] *)
Definition recent (limit : Z) (this : VocabMemory) : list jsstring :=
  if (limit <=? 0)%Z then [] else array_slice_from (- limit) (terms this).

(** A store after its construction and a run of operations. *)
Definition vocab_run (env : Env) (limit : Z)
    (data : option (list (option jsstring))) (ops : list vocab_op)
    : VocabMemory :=
  foldl (run_op env) (new_VocabMemory env limit data) ops.

(** A memory file with a repeated and a blank entry, and an annotated
    text with two definitions. *)
Definition memory_file : option (list (option jsstring)) :=
  Some [Some (str "Sun"); Some (str " sun "); None; Some (str "  ");
        Some (str "moon")].
Definition annotated_text : jsstring :=
  str "The star[^1] set.[^2]" ++ [LF; LF] ++ str "[^1]: "
  ++ [55357; 56538]%N ++ str " star: a sun" ++ [LF] ++ str "[^2]: "
  ++ [9203]%N ++ str " set - past tense".

(** *** File names *)

(** The characters outside the class [[^a-zA-Z0-9._-]]. *)
Definition is_safe_char (c : N) : bool :=
  ((97 <=? c) && (c <=? 122) || (65 <=? c) && (c <=? 90)
   || (48 <=? c) && (c <=? 57) || (c =? 46) || (c =? 95) || (c =? 45))%N.

Definition is_unsafe_char (c : N) : bool := negb (is_safe_char c).

(** [/[^a-zA-Z0-9._-]+/] *)
Definition re_unsafe_run : matcher := λ s,
  match takeWhile is_unsafe_char s with
  | [] => None
  | w => Some (length w)
  end.

Definition UNDERSCORE : N := 95.

(** [rawName.replace(/[^a-zA-Z0-9._-]+/g, '_')] of
    [defaultCacheBaseDir]. *)
Definition safeName (rawName : jsstring) : jsstring :=
  replaceAll re_unsafe_run (λ _, [UNDERSCORE]) rawName.

(** The last component of the path that [defaultCacheBaseDir] returns,
    from the [name] part of the input path. *)
Definition cache_dir_name (name : jsstring) : jsstring :=
  let rawName := if nonempty name then name else str "input" in
  safeName rawName ++ str ".cache".

(** [s.padStart(targetLength, padString)] *)
Definition padStart (targetLength : nat) (padString s : jsstring) : jsstring :=
  if (targetLength <=? length s)%nat then s
  else
    match padString with
    | [] => s
    | _ =>
        let fillLen := targetLength - length s in
        take fillLen (concat (replicate fillLen padString)) ++ s
    end.

(** The file name of [cacheChunkPath(cacheDir, idx)]. *)
Definition cache_chunk_name (idx : Z) : jsstring :=
  padStart 4 (str "0") (String_of_Z idx) ++ str ".md".

(** *** The check of an answer *)

Definition new_Error (message : jsstring) : js_error :=
  {| err_name := str "Error"; err_message := message; err_status := None |}.

(** [annotateChunkWithPrompt] behind the call of the model:
    [response] is the outcome of [callChatWithBackoff], the content of
    the answer or its error.  The answer is relocated and then checked
    against the chunk.  (The copies of rejected answers written by
    [recordFailedResponse] are left out.) *)
Definition annotateChunkWithPrompt (chunk : jsstring)
    (response : outcome jsstring) : outcome jsstring :=
  match response with
  | Thrown error => Thrown error
  | Returned content =>
      if negb (nonempty content) then
        Thrown (new_Error (str "Empty response from OpenAI"))
      else
        let sanitized := ensureFootnotesAtEnd content in
        if negb (validatePreserveSource chunk sanitized) then
          Thrown (new_Error (str "Model modified or dropped source text"))
        else if negb (validateFootnoteEmojis sanitized) then
          Thrown (new_Error
                    (str "Footnote definitions missing required emoji prefix"))
        else Returned sanitized
  end.

(** *** Dashes *)

(** Every dash of the text stands between two blanks; [before] says
    that the character in front of the text is a blank. *)
Fixpoint dashes_spaced (before : bool) (s : jsstring) : bool :=
  match s with
  | [] => true
  | c :: s' =>
      if is_dash c then
        before
        && match s' with d :: _ => (d =? SPACE)%N | [] => false end
        && dashes_spaced false s'
      else dashes_spaced (c =? SPACE)%N s'
  end.

(** * General lemmas on the string primitives *)

Lemma startsWith_spec s p : startsWith s p = true ↔ ∃ r, s = p ++ r.
Proof.
  revert s. induction p as [|a p IH]; intros s; simpl.
  - split; [by exists s|by destruct s].
  - destruct s as [|b s]; simpl.
    + split; [done|]. by intros [r Hr].
    + rewrite andb_true_iff, N.eqb_eq, IH. split.
      * intros [-> [r ->]]. by exists r.
      * intros [r Hr]. injection Hr as -> ->. split; [done|]. by exists r.
Qed.

Lemma includes_spec s x : includes s x = true ↔ ∃ a b, s = a ++ x ++ b.
Proof.
  induction s as [|c s IH].
  - change (includes [] x) with (startsWith [] x || false).
    rewrite orb_false_r, startsWith_spec. split.
    + intros [r Hr]. by exists [], r.
    + intros (a & b & Hab). destruct a; [|done]. by exists b.
  - change (includes (c :: s) x) with (startsWith (c :: s) x || includes s x).
    rewrite orb_true_iff, startsWith_spec, IH. split.
    + intros [[r Hr]|(a & b & ->)].
      * by exists [], r.
      * by exists (c :: a), b.
    + intros (a & b & Hab). destruct a as [|c' a]; simpl in Hab.
      * left. by exists b.
      * right. injection Hab as -> ->. by exists a, b.
Qed.

Lemma includes_slice s a b x :
  includes (slice s a b) x = true → includes s x = true.
Proof.
  rewrite !includes_spec. intros (u & v & Huv).
  exists (take a s ++ u), (v ++ drop (b - a) (drop a s)).
  rewrite <- (take_drop a s) at 1.
  rewrite <- (take_drop (b - a) (drop a s)) at 1.
  unfold slice in Huv. rewrite Huv. by rewrite <- !(assoc_L (++)).
Qed.

Lemma includes_length s x : includes s x = true → length x ≤ length s.
Proof.
  rewrite includes_spec. intros (a & b & ->). rewrite !length_app. lia.
Qed.

Lemma nonempty_false s : nonempty s = false ↔ s = [].
Proof. by destruct s. Qed.

Lemma nonempty_true s : nonempty s = true ↔ s ≠ [].
Proof. by destruct s. Qed.

(** ** The scanners resume behind a match *)

Lemma replace_go_skip m f k s :
  replace_go m f k s = replace_go m f 0 (drop k s).
Proof.
  revert k. induction s as [|c s IH]; intros k; [by destruct k|].
  destruct k as [|k]; [done|]. simpl. apply IH.
Qed.

Lemma matches_go_skip m k s : matches_go m k s = matches_go m 0 (drop k s).
Proof.
  revert k. induction s as [|c s IH]; intros k; [by destruct k|].
  destruct k as [|k]; [done|]. simpl. apply IH.
Qed.

Lemma split_go_skip m k s : split_go m k s = split_go m 0 (drop k s).
Proof.
  revert k. induction s as [|c s IH]; intros k; [by destruct k|].
  destruct k as [|k]; [done|]. simpl. apply IH.
Qed.

Lemma exec_go_skip m k i s :
  exec_go m k i s = exec_go m 0 (i + k) (drop k s).
Proof.
  revert k i. induction s as [|c s IH]; intros k i; [by destruct k|].
  destruct k as [|k]; [by rewrite Nat.add_0_r|]. simpl. rewrite IH.
  by replace (S i + k) with (i + S k) by lia.
Qed.

Lemma tokenize_go_skip k s : tokenize_go k s = tokenize_go 0 (drop k s).
Proof.
  revert k. induction s as [|c s IH]; intros k; [by destruct k|].
  destruct k as [|k]; [done|]. simpl. apply IH.
Qed.

Lemma replaceAll_nil m f : replaceAll m f [] = [].
Proof. done. Qed.

Lemma replaceAll_no_match m f c s :
  m (c :: s) = None → replaceAll m f (c :: s) = c :: replaceAll m f s.
Proof. unfold replaceAll. simpl. by intros ->. Qed.

Lemma drop_pred_cons {A} len (c : A) s :
  1 ≤ len → drop (len - 1) s = drop len (c :: s).
Proof. intros H. destruct len; [lia|]. simpl. by rewrite Nat.sub_0_r. Qed.

Lemma replaceAll_match m f c s len :
  m (c :: s) = Some len → 1 ≤ len →
  replaceAll m f (c :: s)
  = f (take len (c :: s)) ++ replaceAll m f (drop len (c :: s)).
Proof.
  unfold replaceAll. intros Hm Hlen. cbn [replace_go]. rewrite Hm.
  by rewrite replace_go_skip, (drop_pred_cons len c).
Qed.

Lemma matchesAll_no_match m c s :
  m (c :: s) = None → matchesAll m (c :: s) = matchesAll m s.
Proof. unfold matchesAll. simpl. by intros ->. Qed.

Lemma matchesAll_match m c s len :
  m (c :: s) = Some len → 1 ≤ len →
  matchesAll m (c :: s)
  = take len (c :: s) :: matchesAll m (drop len (c :: s)).
Proof.
  unfold matchesAll. intros Hm Hlen. cbn [matches_go]. rewrite Hm.
  by rewrite matches_go_skip, (drop_pred_cons len c).
Qed.

Lemma split_no_match m c s :
  m (c :: s) = None →
  split m (c :: s)
  = match split m s with p :: ps => (c :: p) :: ps | [] => [[c]] end.
Proof. unfold split. simpl. by intros ->. Qed.

Lemma split_match m c s len :
  m (c :: s) = Some len → 1 ≤ len →
  split m (c :: s) = [] :: split m (drop len (c :: s)).
Proof.
  unfold split. intros Hm Hlen. cbn [split_go]. rewrite Hm.
  by rewrite split_go_skip, (drop_pred_cons len c).
Qed.

Lemma exec_no_match m i c s :
  m (c :: s) = None → exec_go m 0 i (c :: s) = exec_go m 0 (S i) s.
Proof. simpl. by intros ->. Qed.

Lemma exec_match m i c s len :
  m (c :: s) = Some len → 1 ≤ len →
  exec_go m 0 i (c :: s)
  = (i, take len (c :: s)) :: exec_go m 0 (i + len) (drop len (c :: s)).
Proof.
  intros Hm Hlen. cbn [exec_go]. rewrite Hm.
  rewrite exec_go_skip, (drop_pred_cons len c) by done.
  by replace (S i + (len - 1)) with (i + len) by lia.
Qed.

(** ** [takeWhile] and [dropWhile] *)

Lemma takeWhile_dropWhile p s : takeWhile p s ++ dropWhile p s = s.
Proof.
  induction s as [|c s IH]; simpl; [done|].
  destruct (p c); simpl; [by rewrite IH|done].
Qed.

Lemma drop_length_takeWhile p s :
  drop (length (takeWhile p s)) s = dropWhile p s.
Proof.
  induction s as [|c s IH]; simpl; [done|]. by destruct (p c).
Qed.

Lemma takeWhile_Forall p s : Forall (λ c, p c = true) (takeWhile p s).
Proof.
  induction s as [|c s IH]; simpl; [done|].
  destruct (p c) eqn:Hc; [by constructor|done].
Qed.

Lemma takeWhile_app_stop p x c r :
  Forall (λ c, p c = true) x → p c = false →
  takeWhile p (x ++ c :: r) = x.
Proof.
  intros Hx Hc. induction Hx as [|a x Ha Hx IH]; simpl.
  - by rewrite Hc.
  - by rewrite Ha, IH.
Qed.

Lemma takeWhile_all p x :
  Forall (λ c, p c = true) x → takeWhile p x = x.
Proof.
  intros Hx. induction Hx as [|a x Ha Hx IH]; simpl; [done|].
  by rewrite Ha, IH.
Qed.

Lemma dropWhile_app_stop p x c r :
  Forall (λ c, p c = true) x → p c = false →
  dropWhile p (x ++ c :: r) = c :: r.
Proof.
  intros Hx Hc. induction Hx as [|a x Ha Hx IH]; simpl.
  - by rewrite Hc.
  - by rewrite Ha, IH.
Qed.

Lemma dropWhile_all p x :
  Forall (λ c, p c = true) x → dropWhile p x = [].
Proof.
  intros Hx. induction Hx as [|a x Ha Hx IH]; simpl; [done|].
  by rewrite Ha, IH.
Qed.

(** ** Markers *)

Lemma digit_not_bracket c : is_digit c = true → c ≠ RBRACKET ∧ c ≠ LBRACKET ∧ c ≠ COLON ∧ c ≠ LF.
Proof.
  unfold is_digit, RBRACKET, LBRACKET, COLON, LF. intros H.
  apply andb_true_iff in H as [H1 H2].
  apply N.leb_le in H1, H2. lia.
Qed.

Lemma marker_head_spec s n :
  marker_head s = Some n →
  ∃ d r, s = LBRACKET :: CARET :: d ++ RBRACKET :: r
         ∧ digits d ∧ n = 3 + length d.
Proof.
  unfold marker_head. destruct s as [|a [|b r]]; [done..|].
  destruct (a =? LBRACKET)%N eqn:Ha; [|done].
  destruct (b =? CARET)%N eqn:Hb; [|done]. simpl.
  apply N.eqb_eq in Ha as ->. apply N.eqb_eq in Hb as ->.
  pose proof (takeWhile_Forall is_digit r) as Hd.
  pose proof (takeWhile_dropWhile is_digit r) as Hr.
  pose proof (drop_length_takeWhile is_digit r) as Hdrop.
  destruct (takeWhile is_digit r) as [|d0 d] eqn:Htw; [done|].
  simpl in Hdrop. rewrite Hdrop.
  destruct (dropWhile is_digit r) as [|c r'] eqn:Hdw; [done|].
  destruct (c =? RBRACKET)%N eqn:Hc; [|done].
  apply N.eqb_eq in Hc as ->. intros [= <-].
  exists (d0 :: d), r'. rewrite <- Hr. split_and!; done.
Qed.

Lemma marker_head_intro d r :
  digits d →
  marker_head (LBRACKET :: CARET :: d ++ RBRACKET :: r) = Some (3 + length d).
Proof.
  intros [Hne Hd]. unfold marker_head. simpl.
  rewrite takeWhile_app_stop by done.
  destruct d as [|d0 d]; [done|].
  by rewrite (drop_app_length (d0 :: d)).
Qed.

Lemma marker_head_bracket c s n : marker_head (c :: s) = Some n → c = LBRACKET.
Proof.
  intros H. apply marker_head_spec in H as (d & r & Hs & _). by injection Hs.
Qed.

Lemma marker_head_pos s n : marker_head s = Some n → 1 ≤ n.
Proof. intros H. apply marker_head_spec in H as (d & r & _ & _ & ->). lia. Qed.

Lemma group1_marker d r :
  digits d → group1 (LBRACKET :: CARET :: d ++ RBRACKET :: r) = d.
Proof. intros [_ Hd]. unfold group1. simpl. by apply takeWhile_app_stop. Qed.

Lemma drop_marker d r :
  drop (3 + length d) (LBRACKET :: CARET :: d ++ RBRACKET :: r) = r.
Proof.
  change (drop (S (length d)) (d ++ RBRACKET :: r) = r).
  replace (S (length d)) with (length d + 1) by lia.
  by rewrite <- drop_drop, drop_app_length.
Qed.

(** Every text is empty, begins with a character that starts no marker,
    begins with an inline marker, or begins with a definition head. *)
Lemma text_cases (P : jsstring → Prop) :
  P [] →
  (∀ c s, marker_head (c :: s) = None → P s → P (c :: s)) →
  (∀ d r, digits d → head r ≠ Some COLON → P r →
          P (LBRACKET :: CARET :: d ++ RBRACKET :: r)) →
  (∀ d r, digits d → P r →
          P (LBRACKET :: CARET :: d ++ RBRACKET :: COLON :: r)) →
  ∀ s, P s.
Proof.
  intros Hnil Hchr Href Hdef s.
  remember (length s) as n eqn:Hn. revert s Hn.
  induction n as [n IH] using lt_wf_ind. intros s Hn.
  destruct s as [|c s]; [apply Hnil|].
  destruct (marker_head (c :: s)) as [k|] eqn:Hm.
  - apply marker_head_spec in Hm as (d & r & Hs & Hd & ->).
    rewrite Hs. rewrite Hs in Hn. simpl in Hn. rewrite length_app in Hn.
    simpl in Hn.
    destruct r as [|c' r'].
    + apply Href; [done|done|apply Hnil].
    + destruct (decide (c' = COLON)) as [->|Hc].
      * apply Hdef; [done|]. apply (IH (length r')); [simpl in Hn; lia|done].
      * apply Href; [done|simpl; congruence|].
        apply (IH (length (c' :: r'))); [lia|done].
  - apply Hchr; [done|]. apply (IH (length s)); [simpl in Hn; lia|done].
Qed.

Lemma tokenize_chr c s :
  marker_head (c :: s) = None → tokenize (c :: s) = Chr c :: tokenize s.
Proof. unfold tokenize. simpl. by intros ->. Qed.

Lemma drop_S_length_app {A} (d : list A) c r :
  drop (S (length d)) (d ++ c :: r) = r.
Proof.
  replace (S (length d)) with (length d + 1) by lia.
  by rewrite <- drop_drop, drop_app_length.
Qed.

Lemma drop_marker_tail d r :
  drop (3 + length d - 1) (CARET :: d ++ RBRACKET :: r) = r.
Proof.
  replace (3 + length d - 1) with (S (S (length d))) by lia.
  apply (drop_S_length_app d).
Qed.

Lemma drop_def_tail d r :
  drop (3 + length d) (CARET :: d ++ RBRACKET :: COLON :: r) = r.
Proof.
  change (drop (S (S (length d))) (d ++ RBRACKET :: COLON :: r) = r).
  replace (S (S (length d))) with (S (length d) + 1) by lia.
  by rewrite <- drop_drop, (drop_S_length_app d).
Qed.

Lemma tokenize_go_cons c s' :
  tokenize_go 0 (c :: s')
  = match marker_head (c :: s') with
    | Some n =>
        match drop n (c :: s') with
        | c' :: _ =>
            if (c' =? COLON)%N
            then Mark def (group1 (c :: s')) :: tokenize_go n s'
            else Mark ref (group1 (c :: s')) :: tokenize_go (n - 1) s'
        | [] => Mark ref (group1 (c :: s')) :: tokenize_go (n - 1) s'
        end
    | None => Chr c :: tokenize_go 0 s'
    end.
Proof. done. Qed.

Lemma tokenize_ref d r :
  digits d → head r ≠ Some COLON →
  tokenize (LBRACKET :: CARET :: d ++ RBRACKET :: r) = Mark ref d :: tokenize r.
Proof.
  intros Hd Hr. unfold tokenize. rewrite tokenize_go_cons.
  rewrite marker_head_intro, drop_marker, group1_marker by done.
  rewrite (tokenize_go_skip (3 + length d - 1)), drop_marker_tail.
  destruct r as [|c' r']; [done|].
  destruct (c' =? COLON)%N eqn:Hc; [|done].
  apply N.eqb_eq in Hc as ->. done.
Qed.

Lemma tokenize_def d r :
  digits d →
  tokenize (LBRACKET :: CARET :: d ++ RBRACKET :: COLON :: r)
  = Mark def d :: tokenize r.
Proof.
  intros Hd. unfold tokenize. rewrite tokenize_go_cons.
  rewrite marker_head_intro, drop_marker, group1_marker by done.
  rewrite N.eqb_refl.
  by rewrite (tokenize_go_skip (3 + length d)), drop_def_tail.
Qed.

Lemma render_cons t ts : render (t :: ts) = render_token t ++ render ts.
Proof. done. Qed.

Lemma render_app ts1 ts2 : render (ts1 ++ ts2) = render ts1 ++ render ts2.
Proof. unfold render. by rewrite fmap_app, concat_app. Qed.

Lemma render_tokenize s : render (tokenize s) = s.
Proof.
  induction s as [|c s Hm IH|d r Hd Hr IH|d r Hd IH] using text_cases.
  - done.
  - rewrite tokenize_chr, render_cons, IH by done. done.
  - rewrite tokenize_ref, render_cons, IH by done. simpl.
    by rewrite <- (assoc_L (++)).
  - rewrite tokenize_def, render_cons, IH by done. simpl.
    by rewrite <- (assoc_L (++)).
Qed.

(** * Properties *)

(** ** RetryScheduler *)

Lemma backoff_loop_exhausted post maxRetries remaining attempt :
  remaining ≠ 0 →
  (attempt + Z.of_nat remaining = maxRetries)%Z →
  (0 ≤ attempt)%Z →
  all_attempts_retryable post maxRetries →
  backoff_loop post maxRetries remaining attempt = post (maxRetries - 1)%Z.
Proof.
  revert attempt. induction remaining as [|rem IH]; intros attempt Hne Hsum Hpos Hall.
  - done.
  - destruct (Hall attempt) as (e & Hpost & Hretry); [lia|].
    simpl. rewrite Hpost, Hretry. simpl.
    destruct (attempt =? maxRetries - 1)%Z eqn:Hlast.
    + apply Z.eqb_eq in Hlast. by rewrite <- Hlast, Hpost.
    + apply Z.eqb_neq in Hlast. apply IH; [|lia..|done].
      intros ->. lia.
Qed.

(** C5 (as the code has it): when every one of the [maxRetries >= 1]
    attempts fails with a retryable error, the call re-raises the error
    of the last attempt itself; the separate error
    [Exceeded max retries for API call] is raised only when
    [maxRetries <= 0], where no attempt is made. *)
Theorem callChatWithBackoff_exhausted post maxRetries :
  all_attempts_retryable post maxRetries →
  ((1 ≤ maxRetries)%Z →
     ∃ e, post (maxRetries - 1)%Z = Thrown e
          ∧ callChatWithBackoff post maxRetries = Thrown e)
  ∧ ((maxRetries ≤ 0)%Z →
     callChatWithBackoff post maxRetries = Thrown exceeded_max_retries).
Proof.
  intros Hall. split; intros Hm.
  - destruct (Hall (maxRetries - 1)%Z) as (e & Hpost & _); [lia|].
    exists e. split; [done|]. unfold callChatWithBackoff.
    rewrite backoff_loop_exhausted; [done| |lia|lia|done].
    intros H0. lia.
  - unfold callChatWithBackoff.
    by replace (Z.to_nat maxRetries) with 0 by lia.
Qed.

Lemma callChatWithBackoff_exhausted_witness :
  all_attempts_retryable (λ _, Thrown too_many_requests) 6
  ∧ callChatWithBackoff (λ _, Thrown too_many_requests) 6
    = Thrown too_many_requests.
Proof.
  assert (Hall : all_attempts_retryable (λ _, Thrown too_many_requests) 6).
  { intros k _. exists too_many_requests. split; reflexivity. }
  split; [exact Hall|].
  destruct (callChatWithBackoff_exhausted _ 6 Hall) as [H _].
  destruct H as (e & He & Hcall); [lia|].
  rewrite Hcall. by rewrite <- He.
Defined.

(** C5 as stated fails: with the default six attempts all ending in
    HTTP 429, the error raised is the error of the sixth attempt. *)
Lemma callChatWithBackoff_rethrows_last_error :
  all_attempts_retryable (λ _, Thrown too_many_requests) 6
  ∧ ¬ final_error_distinct (λ _, Thrown too_many_requests) 6.
Proof.
  split.
  - intros k _. exists too_many_requests. split; reflexivity.
  - intros (e & Hcall & Hdistinct).
    assert (e = too_many_requests) as ->.
    { vm_compute in Hcall. by inversion Hcall. }
    by apply (Hdistinct 5%Z).
Qed.

(** ** Validator: the windowed fallback *)

Lemma windowed_match_includes srcNorm bodyNorm :
  windowed_match srcNorm bodyNorm = true → includes bodyNorm srcNorm = true.
Proof.
  unfold windowed_match.
  destruct (indexOf _ _) as [start|]; [|done].
  destruct (lastIndexOf _ _) as [end_|]; [|done].
  destruct (start <? end_)%nat; [|done].
  destruct (includes (slice _ _ _) _) eqn:Hw; [|done].
  intros _. by eapply includes_slice.
Qed.

Lemma validatePreserveSource_eq src annotated :
  validatePreserveSource src annotated
  = negb (nonempty (source_norm src))
    || includes (body_norm annotated) (source_norm src).
Proof.
  unfold validatePreserveSource.
  destruct (nonempty (source_norm src)); simpl; [|done].
  destruct (includes _ _) eqn:Hinc; [done|].
  destruct (windowed_match _ _) eqn:Hw; [|done].
  apply windowed_match_includes in Hw. congruence.
Qed.

(** C9: [validatePreserveSource] answers [true] exactly when the
    normalised source is empty or a contiguous substring of the
    normalised, marker-and-definition-stripped body of the candidate;
    the windowed fallback on the first and last words accepts nothing
    that the direct substring test rejected, so the function coincides
    with the direct test alone. *)
Theorem validatePreserveSource_is_substring_test src annotated :
  (validatePreserveSource src annotated = true
   ↔ source_norm src = []
     ∨ ∃ a b, body_norm annotated = a ++ source_norm src ++ b)
  ∧ (windowed_match (source_norm src) (body_norm annotated) = true
     → includes (body_norm annotated) (source_norm src) = true)
  ∧ validatePreserveSource src annotated
    = negb (nonempty (source_norm src))
      || includes (body_norm annotated) (source_norm src).
Proof.
  split; [|split; [apply windowed_match_includes|apply validatePreserveSource_eq]].
  rewrite validatePreserveSource_eq, orb_true_iff, negb_true_iff,
    nonempty_false, includes_spec.
  done.
Qed.

(** ** TokenEstimator: the cache is transparent *)

Lemma JSMap_get_elem_of {V} k (v : V) m : JSMap.get k m = Some v → (k, v) ∈ m.
Proof.
  induction m as [|[k' v'] m IH]; simpl; [done|].
  destruct (decide (k' = k)) as [->|].
  - intros [= ->]. left.
  - intros H. right. auto.
Qed.

Lemma JSMap_Forall_set {V} (P : jsstring * V → Prop) k v m :
  P (k, v) → Forall P m → Forall P (JSMap.set k v m).
Proof.
  intros Hkv. induction m as [|[k' v'] m IH]; simpl; intros Hm.
  - by constructor.
  - inversion_clear Hm. destruct (decide (k' = k)); constructor; auto.
Qed.

Lemma JSMap_Forall_delete {V} (P : jsstring * V → Prop) k m :
  Forall P m → Forall P (JSMap.delete k m).
Proof.
  induction m as [|[k' v'] m IH]; simpl; intros Hm; [done|].
  inversion_clear Hm. destruct (decide (k' = k)); [done|]. constructor; auto.
Qed.

Lemma cache_key_inj model : Inj (=) (=) (cache_key model).
Proof. intros t1 t2 H. unfold cache_key in H. by simplify_list_eq. Qed.

Lemma countTokens_consistent env model text c :
  cache_consistent env model c →
  (countTokens env text model c).1 = approximateTokenCount env text
  ∧ cache_consistent env model (countTokens env text model c).2.
Proof.
  intros Hc. unfold countTokens.
  destruct (JSMap.get _ c) as [value|] eqn:Hget; simpl.
  - apply JSMap_get_elem_of in Hget.
    unfold cache_consistent in Hc. rewrite Forall_forall in Hc.
    destruct (Hc _ Hget) as (text' & Hkey & Hval). simpl in *.
    apply cache_key_inj in Hkey as <-.
    split; [done|].
    apply JSMap_Forall_set; [by exists text|].
    apply JSMap_Forall_delete. by rewrite Forall_forall.
  - split; [done|].
    assert (cache_consistent env model
              (JSMap.set (cache_key model text) (approximateTokenCount env text) c)) as Hset.
    { apply JSMap_Forall_set; [by exists text|done]. }
    destruct (_ <? _)%Z; [|done].
    destruct (JSMap.first_key _); [|done].
    by apply JSMap_Forall_delete.
Qed.

Lemma cache_after_consistent env model prior :
  cache_consistent env model (cache_after env model prior).
Proof.
  unfold cache_after.
  assert (∀ c, cache_consistent env model c →
     cache_consistent env model
       (foldl (λ c text, (countTokens env text model c).2) c prior)) as H.
  { induction prior as [|t prior IH]; intros c Hc; simpl; [done|].
    apply IH. by apply countTokens_consistent. }
  apply H. constructor.
Qed.

Lemma approximateTokenCount_blank env text :
  if nonempty (trim text) then (1 ≤ approximateTokenCount env text)%Z
  else approximateTokenCount env text = 0%Z.
Proof.
  unfold approximateTokenCount.
  destruct text as [|c text]; [done|].
  destruct (trim (c :: text)); simpl; [done|]. lia.
Qed.

(** C8: whatever calls of [countTokens] came before (hits, insertions,
    evictions), [countTokens(text, model)] returns
    [approximateTokenCount(text)]; the value is 0 for blank text and at
    least 1 otherwise. *)
Theorem countTokens_is_approximateTokenCount env model prior text :
  (countTokens env text model (cache_after env model prior)).1
    = approximateTokenCount env text
  ∧ (if nonempty (trim text) then (1 ≤ approximateTokenCount env text)%Z
     else approximateTokenCount env text = 0%Z).
Proof.
  split; [|apply approximateTokenCount_blank].
  apply countTokens_consistent, cache_after_consistent.
Qed.

(** ** Chunker *)

Lemma join_cons sep p rest :
  rest ≠ [] → join sep (p :: rest) = p ++ sep ++ join sep rest.
Proof. by destruct rest. Qed.

Lemma join_app sep l1 l2 :
  l1 ≠ [] → l2 ≠ [] → join sep (l1 ++ l2) = join sep l1 ++ sep ++ join sep l2.
Proof.
  intros H1 H2. induction l1 as [|p l1 IH]; [done|].
  destruct l1 as [|q l1].
  - simpl app. by rewrite join_cons.
  - change ((p :: q :: l1) ++ l2) with (p :: ((q :: l1) ++ l2)).
    rewrite !join_cons by done. rewrite IH by done.
    by rewrite <- !(assoc_L (++)).
Qed.

Lemma join_concat sep (groups : list (list jsstring)) :
  Forall (λ g, g ≠ []) groups →
  join sep (join sep <$> groups) = join sep (concat groups).
Proof.
  induction groups as [|g groups IH]; intros Hg; [done|].
  inversion_clear Hg as [|?? Hne Hrest].
  destruct groups as [|g' groups].
  - simpl. by rewrite app_nil_r.
  - rewrite fmap_cons. rewrite join_cons by done.
    rewrite IH by done. simpl concat at 2.
    rewrite join_app; [done..|].
    inversion_clear Hrest. simpl. by destruct g'.
Qed.

Lemma group_cost_snoc env group p :
  group_cost env (group ++ [p])
  = (group_cost env group + approximateTokenCount env p)%Z.
Proof.
  unfold group_cost. induction group as [|q group IH]; simpl; [lia|].
  rewrite IH. lia.
Qed.

Lemma chunker_step_inv env model maxTokens done_ st p :
  chunker_inv env model (effectiveMax env maxTokens) done_ st →
  chunker_inv env model (effectiveMax env maxTokens) (done_ ++ [p])
    (chunker_step env maxTokens model st p).
Proof.
  intros (Hc & Hchunks & Htok & Hcur & Hne & Hdone).
  unfold chunker_step.
  destruct (countTokens_consistent env model p _ Hc) as [Hval Hc'].
  destruct (countTokens env p model (cache st)) as [tokens cache'].
  simpl in Hval, Hc'. subst tokens.
  destruct (current st) as [|q cur] eqn:Hcurrent; simpl has_elements; cbv iota.
  - simpl. split_and!; simpl; try done.
    + rewrite Htok. simpl. lia.
    + lia.
    + rewrite <- Hdone. by rewrite app_nil_r.
  - destruct (effectiveMax env maxTokens <? _)%Z eqn:Hlt; simpl.
    + split_and!; simpl; try done.
      * apply Forall_app. split; [done|]. constructor; [|done].
        intros Hlen. rewrite <- Htok. by apply Hcur.
      * lia.
      * lia.
      * apply Forall_app. split; [done|]. by constructor.
      * rewrite concat_app. simpl. rewrite app_nil_r.
        by rewrite <- Hdone, <- (assoc_L (++)).
    + apply Z.ltb_ge in Hlt. split_and!; simpl; try done.
      * rewrite Htok. symmetry. exact (group_cost_snoc env (q :: cur) p).
      * by rewrite <- Hdone, <- (assoc_L (++)).
Qed.

Lemma chunker_loop_inv env model maxTokens ps done_ st :
  chunker_inv env model (effectiveMax env maxTokens) done_ st →
  chunker_inv env model (effectiveMax env maxTokens) (done_ ++ ps)
    (foldl (chunker_step env maxTokens model) st ps).
Proof.
  revert done_ st. induction ps as [|p ps IH]; intros done_ st Hinv; simpl.
  - by rewrite app_nil_r.
  - replace (done_ ++ p :: ps) with ((done_ ++ [p]) ++ ps)
      by by rewrite <- (assoc_L (++)).
    apply IH. by apply chunker_step_inv.
Qed.

Lemma tokenChunkGroups_spec env model maxTokens text c :
  cache_consistent env model c →
  let groups := (tokenChunkGroups env text maxTokens model c).1 in
  Forall (λ g, 2 ≤ length g → (group_cost env g ≤ effectiveMax env maxTokens)%Z) groups
  ∧ Forall (λ g, g ≠ []) groups
  ∧ concat groups = split re_blank_line (trim text).
Proof.
  intros Hc. unfold tokenChunkGroups. simpl.
  set (st0 := {| chunks := []; current := []; currentTokens := 0; cache := c |}).
  assert (chunker_inv env model (effectiveMax env maxTokens) [] st0) as H0.
  { repeat split; simpl; try done. lia. }
  apply (chunker_loop_inv _ _ _ (split re_blank_line (trim text))) in H0.
  simpl in H0. destruct H0 as (_ & Hchunks & Htok & Hcur & Hne & Hdone).
  destruct (current _) as [|q cur] eqn:Hcurrent; simpl.
  - rewrite app_nil_r in Hdone. done.
  - repeat split.
    + apply Forall_app. split; [done|]. constructor; [|done].
      intros Hlen. rewrite <- Htok. by apply Hcur.
    + apply Forall_app. split; [done|]. by constructor.
    + rewrite concat_app. simpl. by rewrite app_nil_r.
Qed.

(** C6: every chunk made of two or more paragraphs has an estimated
    cost (the sum of the estimates of its paragraphs) of at most the
    effective budget
    [max(MIN_EFFECTIVE_CHUNK_TOKENS, maxTokens - FOOTNOTE_MARGIN_TOKENS)];
    only a chunk of a single paragraph may exceed it.  The chunk texts
    are the groups joined by a blank line. *)
Theorem chunk_cost_within_budget env model prior text maxTokens :
  Forall (λ g, 2 ≤ length g →
               (group_cost env g
                ≤ Z.max (MIN_EFFECTIVE_CHUNK_TOKENS env)
                        (maxTokens - FOOTNOTE_MARGIN_TOKENS env))%Z)
    (tokenChunkGroups env text maxTokens model (cache_after env model prior)).1
  ∧ (splitIntoTokenChunks env text maxTokens model (cache_after env model prior)).1
    = join [LF; LF]
      <$> (tokenChunkGroups env text maxTokens model (cache_after env model prior)).1.
Proof.
  split.
  - apply tokenChunkGroups_spec, cache_after_consistent.
  - unfold splitIntoTokenChunks. by destruct (tokenChunkGroups _ _ _ _ _).
Qed.

(** C1 (as the code has it): joining the chunk texts with a blank line
    gives the paragraphs of the trimmed text, in order, none missing,
    none twice, joined by exactly one blank line: the text is
    reproduced up to its leading and trailing white space and the white
    space of its paragraph separators. *)
Theorem chunks_rejoin_to_paragraphs env model prior text maxTokens :
  join [LF; LF]
    (splitIntoTokenChunks env text maxTokens model (cache_after env model prior)).1
  = join [LF; LF] (split re_blank_line (trim text)).
Proof.
  unfold splitIntoTokenChunks.
  destruct (tokenChunkGroups_spec env model maxTokens text
              (cache_after env model prior)) as (_ & Hne & Hconcat).
  { apply cache_after_consistent. }
  destruct (tokenChunkGroups _ _ _ _ _) as [groups c']. simpl in *.
  by rewrite join_concat, Hconcat.
Qed.

(** C1 as stated fails: a separator of two blank lines is not
    reproduced. *)
Lemma chunks_do_not_reproduce_separators :
  join [LF; LF]
    (splitIntoTokenChunks example_env (str "a" ++ [LF; LF; LF] ++ str "b")
       1000 (MODEL_NAME example_env) []).1
  = str "a" ++ [LF; LF] ++ str "b"
  ∧ join [LF; LF]
      (splitIntoTokenChunks example_env (str "a" ++ [LF; LF; LF] ++ str "b")
         1000 (MODEL_NAME example_env) []).1
    ≠ str "a" ++ [LF; LF; LF] ++ str "b".
Proof. split; [by vm_compute|]. vm_compute. discriminate. Qed.

(** ** VocabMemory *)

Lemma lower_set_snoc env ts t :
  lower_set env (ts ++ [t]) = {[toLowerCase env t]} ∪ lower_set env ts.
Proof.
  unfold lower_set. rewrite fmap_app, list_to_set_app_L. simpl.
  rewrite (right_id_L ∅ (∪)). apply (comm_L (∪)).
Qed.

Lemma elem_of_lower_set env ts x :
  x ∈ lower_set env ts ↔ x ∈ toLowerCase env <$> ts.
Proof. unfold lower_set. by rewrite elem_of_list_to_set. Qed.

Lemma NoDup_fmap_drop {A B} (f : A → B) n (l : list A) :
  NoDup (f <$> l) → NoDup (f <$> drop n l).
Proof.
  rewrite fmap_drop. intros H.
  eapply (sublist_NoDup _ (f <$> l)); [done|apply sublist_drop].
Qed.

Lemma array_slice_from_drop {A} (start : Z) (a : list A) :
  ∃ n, array_slice_from start a = drop n a.
Proof. unfold array_slice_from. destruct (_ <? _)%Z; eauto. Qed.

Lemma array_slice_from_last {A} (limit : Z) (a : list A) :
  (1 ≤ limit)%Z →
  (Z.of_nat (length (array_slice_from (- limit) a)) ≤ limit)%Z.
Proof.
  intros Hl. unfold array_slice_from.
  destruct (_ <? _)%Z eqn:Hneg; [|apply Z.ltb_ge in Hneg; lia].
  rewrite length_drop. lia.
Qed.

Lemma add_term_inv env this updated term :
  vocab_inv env this →
  vocab_inv env (add_term env (this, updated) term).1
  ∧ storeLimit (add_term env (this, updated) term).1 = storeLimit this.
Proof.
  intros [Hnd Hlow]. unfold add_term.
  destruct (nonempty (trim term)); simpl; [|done].
  destruct (decide _) as [Hin|Hnin]; simpl; [done|].
  split; [|done]. split; simpl.
  - rewrite fmap_app. apply NoDup_app. split_and!; [done| |apply NoDup_singleton].
    intros x Hx Hx'. apply list_elem_of_singleton in Hx' as ->.
    apply Hnin. rewrite Hlow. by apply elem_of_lower_set.
  - by rewrite lower_set_snoc, Hlow.
Qed.

Lemma add_terms_loop_inv env new_terms this updated :
  vocab_inv env this →
  vocab_inv env (foldl (add_term env) (this, updated) new_terms).1
  ∧ storeLimit (foldl (add_term env) (this, updated) new_terms).1
    = storeLimit this.
Proof.
  revert this updated.
  induction new_terms as [|t ts IH]; intros this updated Hinv; [done|].
  change (foldl (add_term env) (this, updated) (t :: ts))
    with (foldl (add_term env) (add_term env (this, updated) t) ts).
  destruct (add_term_inv env this updated t Hinv) as [Hinv' Hlim].
  destruct (add_term env (this, updated) t) as [this' updated'].
  simpl in *. rewrite <- Hlim. by apply IH.
Qed.

Lemma addTerms_inv env new_terms this :
  vocab_inv env this →
  vocab_inv env (addTerms env new_terms this).1
  ∧ storeLimit (addTerms env new_terms this).1 = storeLimit this
  ∧ ((1 ≤ storeLimit this)%Z →
     (Z.of_nat (length (terms (addTerms env new_terms this).1))
      ≤ storeLimit this)%Z).
Proof.
  intros Hinv. unfold addTerms.
  destruct (add_terms_loop_inv env new_terms this false Hinv) as [[Hnd Hlow] Hlim].
  destruct (foldl _ _ _) as [this' updated]. simpl in *.
  destruct (_ <? _)%Z eqn:Hover; simpl.
  - split; [split; simpl|split; [done|]].
    + destruct (array_slice_from_drop (- storeLimit this') (terms this'))
        as [n ->]. by apply NoDup_fmap_drop.
    + done.
    + intros H1. rewrite <- Hlim. apply array_slice_from_last. by rewrite Hlim.
  - apply Z.ltb_ge in Hover. split; [done|split; [done|]]. intros _. lia.
Qed.

Lemma load_entry_inv env filtered seen entry :
  NoDup (toLowerCase env <$> filtered) →
  seen = lower_set env filtered →
  let acc := load_entry env (filtered, seen) entry in
  NoDup (toLowerCase env <$> acc.1) ∧ acc.2 = lower_set env acc.1.
Proof.
  intros Hnd Hseen. unfold load_entry.
  destruct entry as [entry|]; [|done].
  destruct (nonempty (trim entry)); simpl; [|done].
  destruct (decide _) as [Hin|Hnin]; simpl; [done|]. split.
  - rewrite fmap_app. apply NoDup_app. split_and!; [done| |apply NoDup_singleton].
    intros x Hx Hx'. apply list_elem_of_singleton in Hx' as ->.
    apply Hnin. rewrite Hseen. by apply elem_of_lower_set.
  - by rewrite lower_set_snoc, Hseen.
Qed.

Lemma load_inv env data this :
  vocab_inv env this →
  vocab_inv env (load env data this)
  ∧ storeLimit (load env data this) = storeLimit this
  ∧ ((1 ≤ storeLimit this)%Z →
     (Z.of_nat (length (terms this)) ≤ storeLimit this)%Z →
     (Z.of_nat (length (terms (load env data this))) ≤ storeLimit this)%Z).
Proof.
  intros Hinv. unfold load. destruct data as [data|]; [|done].
  assert (∀ filtered seen,
    NoDup (toLowerCase env <$> filtered) → seen = lower_set env filtered →
    NoDup (toLowerCase env <$> (foldl (load_entry env) (filtered, seen) data).1))
    as Hloop.
  { induction data as [|e data IH]; intros filtered seen Hnd Hseen; [done|].
    change (foldl (load_entry env) (filtered, seen) (e :: data))
      with (foldl (load_entry env) (load_entry env (filtered, seen) e) data).
    destruct (load_entry_inv env filtered seen e Hnd Hseen) as [Hnd' Hseen'].
    destruct (load_entry env (filtered, seen) e) as [filtered' seen'].
    by apply IH. }
  specialize (Hloop [] ∅ (NoDup_nil_2 (A:=jsstring)) eq_refl).
  destruct (foldl _ _ _) as [filtered seen]. simpl in *.
  split; [split; simpl|split; [done|]].
  - destruct (array_slice_from_drop (- storeLimit this) filtered) as [n ->].
    by apply NoDup_fmap_drop.
  - done.
  - intros H1 _. by apply array_slice_from_last.
Qed.

Lemma run_op_inv env vm op :
  vocab_inv env vm →
  vocab_inv env (run_op env vm op)
  ∧ storeLimit (run_op env vm op) = storeLimit vm
  ∧ ((1 ≤ storeLimit vm)%Z →
     (Z.of_nat (length (terms vm)) ≤ storeLimit vm)%Z →
     (Z.of_nat (length (terms (run_op env vm op))) ≤ storeLimit vm)%Z).
Proof.
  intros Hinv. destruct op as [data|ts|text]; unfold run_op, updateFromText.
  - by apply load_inv.
  - destruct (addTerms_inv env ts vm Hinv) as (? & ? & ?). auto.
  - destruct (addTerms_inv env (extractTerms text) vm Hinv) as (? & ? & ?). auto.
Qed.

(** The part of C7 that the code keeps: with a capacity of at least
    one, no sequence of operations makes the store exceed it, and no
    two stored terms ever agree after lower-casing. *)
Lemma VocabMemory_invariant env limit data ops :
  let vm := foldl (run_op env) (new_VocabMemory env limit data) ops in
  NoDup (toLowerCase env <$> terms vm)
  ∧ ((1 ≤ limit)%Z → (Z.of_nat (length (terms vm)) ≤ limit)%Z).
Proof.
  assert (∀ vm, vocab_inv env vm → storeLimit vm = limit →
    ((1 ≤ limit)%Z → (Z.of_nat (length (terms vm)) ≤ limit)%Z) →
    let vm' := foldl (run_op env) vm ops in
    NoDup (toLowerCase env <$> terms vm')
    ∧ ((1 ≤ limit)%Z → (Z.of_nat (length (terms vm')) ≤ limit)%Z)) as Hrun.
  { induction ops as [|op ops IH]; intros vm Hinv Hlim Hlen.
    - split; [apply Hinv|done].
    - change (foldl (run_op env) vm (op :: ops))
        with (foldl (run_op env) (run_op env vm op) ops).
      destruct (run_op_inv env vm op Hinv) as (Hinv' & Hlim' & Hlen').
      apply IH; [done|congruence|].
      intros H1. rewrite <- Hlim. apply Hlen'; rewrite Hlim; auto. }
  set (vm0 := {| storeLimit := limit; terms := []; lower := ∅ |}).
  assert (vocab_inv env vm0) as H0.
  { split; simpl; [apply NoDup_nil_2|done]. }
  destruct (load_inv env data vm0 H0) as (Hinv & Hlim & Hlen).
  apply Hrun; [done|done|].
  intros H1. apply Hlen; simpl; [done|lia].
Qed.

(** C7 fails at a capacity of zero: [terms.slice(-0)] keeps the whole
    array, so the first term added stays in a store whose capacity is
    0. *)
Theorem VocabMemory_capacity_zero_exceeded env :
  let vm := foldl (run_op env) (new_VocabMemory env 0 None)
              [op_addTerms [str "sun"]] in
  storeLimit vm = 0%Z ∧ terms vm = [str "sun"]
  ∧ (storeLimit vm < Z.of_nat (length (terms vm)))%Z.
Proof.
  simpl. unfold addTerms. simpl. unfold add_term. simpl.
  change (trim (str "sun")) with (str "sun"). simpl.
  destruct (decide _) as [Hin|_]; [set_solver|]. simpl.
  split_and!; [done|done|lia].
Qed.

(** ** FootnoteRenumberer *)

(** *** The two [exec] loops find the markers of the text *)

Lemma exec_skip_no_bracket (m : matcher) i x r :
  (∀ s n, m s = Some n → is_Some (marker_head s)) →
  Forall (λ c, c ≠ LBRACKET) x →
  exec_go m 0 i (x ++ r) = exec_go m 0 (i + length x) r.
Proof.
  intros Hm Hx. revert i. induction Hx as [|c x Hc Hx IH]; intros i.
  - by rewrite Nat.add_0_r.
  - simpl app. rewrite exec_no_match.
    + rewrite IH. simpl length. by replace (S i + length x) with (i + S (length x)) by lia.
    + destruct (m (c :: x ++ r)) as [n|] eqn:Hmatch; [|done].
      apply Hm in Hmatch as [n' Hn']. by apply marker_head_bracket in Hn'.
Qed.

Lemma re_ref_no_colon_marker s n :
  re_ref_no_colon s = Some n → is_Some (marker_head s).
Proof. unfold re_ref_no_colon. destruct (marker_head s); [eauto|done]. Qed.

Lemma re_def_head_marker s n :
  re_def_head s = Some n → is_Some (marker_head s).
Proof. unfold re_def_head. destruct (marker_head s); [eauto|done]. Qed.

Lemma re_ref_no_colon_chr s : marker_head s = None → re_ref_no_colon s = None.
Proof. unfold re_ref_no_colon. by intros ->. Qed.

Lemma re_def_head_chr s : marker_head s = None → re_def_head s = None.
Proof. unfold re_def_head. by intros ->. Qed.

Lemma re_ref_no_colon_ref d r :
  digits d → head r ≠ Some COLON →
  re_ref_no_colon (LBRACKET :: CARET :: d ++ RBRACKET :: r) = Some (3 + length d).
Proof.
  intros Hd Hr. unfold re_ref_no_colon.
  rewrite marker_head_intro, drop_marker by done.
  destruct r as [|c r]; [done|].
  destruct (c =? COLON)%N eqn:Hc; [|done]. by apply N.eqb_eq in Hc as ->.
Qed.

Lemma re_ref_no_colon_def d r :
  digits d →
  re_ref_no_colon (LBRACKET :: CARET :: d ++ RBRACKET :: COLON :: r) = None.
Proof.
  intros Hd. unfold re_ref_no_colon.
  by rewrite marker_head_intro, drop_marker by done.
Qed.

Lemma re_def_head_ref d r :
  digits d → head r ≠ Some COLON →
  re_def_head (LBRACKET :: CARET :: d ++ RBRACKET :: r) = None.
Proof.
  intros Hd Hr. unfold re_def_head.
  rewrite marker_head_intro, drop_marker by done.
  destruct r as [|c r]; [done|].
  destruct (c =? COLON)%N eqn:Hc; [|done]. by apply N.eqb_eq in Hc as ->.
Qed.

Lemma re_def_head_def d r :
  digits d →
  re_def_head (LBRACKET :: CARET :: d ++ RBRACKET :: COLON :: r)
  = Some (S (3 + length d)).
Proof.
  intros Hd. unfold re_def_head.
  by rewrite marker_head_intro, drop_marker by done.
Qed.

Lemma take_marker d r :
  take (3 + length d) (LBRACKET :: CARET :: d ++ RBRACKET :: r)
  = LBRACKET :: CARET :: d ++ [RBRACKET].
Proof.
  change (LBRACKET :: CARET :: take (S (length d)) (d ++ RBRACKET :: r)
          = LBRACKET :: CARET :: d ++ [RBRACKET]).
  do 2 f_equal.
  replace (d ++ RBRACKET :: r) with ((d ++ [RBRACKET]) ++ r)
    by by rewrite <- (assoc_L (++)).
  rewrite take_app_length'; [done|]. rewrite length_app. simpl. lia.
Qed.

Lemma take_def d r :
  take (S (3 + length d)) (LBRACKET :: CARET :: d ++ RBRACKET :: COLON :: r)
  = LBRACKET :: CARET :: d ++ [RBRACKET; COLON].
Proof.
  change (LBRACKET :: CARET :: take (S (S (length d))) (d ++ RBRACKET :: COLON :: r)
          = LBRACKET :: CARET :: d ++ [RBRACKET; COLON]).
  do 2 f_equal.
  replace (d ++ RBRACKET :: COLON :: r) with ((d ++ [RBRACKET; COLON]) ++ r)
    by by rewrite <- (assoc_L (++)).
  rewrite take_app_length'; [done|]. rewrite length_app. simpl. lia.
Qed.

Lemma drop_def d r :
  drop (S (3 + length d)) (LBRACKET :: CARET :: d ++ RBRACKET :: COLON :: r) = r.
Proof.
  change (drop (S (S (length d))) (d ++ RBRACKET :: COLON :: r) = r).
  replace (S (S (length d))) with (S (length d) + 1) by lia.
  by rewrite <- drop_drop, (drop_S_length_app d).
Qed.

Lemma group1_closed d tail :
  digits d → head tail = Some RBRACKET →
  group1 (LBRACKET :: CARET :: d ++ tail) = d.
Proof.
  intros [_ Hd] Ht. destruct tail as [|c tail]; [done|].
  injection Ht as ->. unfold group1. simpl. by apply takeWhile_app_stop.
Qed.

Lemma no_bracket_digits d :
  digits d → Forall (λ c, c ≠ LBRACKET) d.
Proof.
  intros [_ Hd]. eapply Forall_impl; [done|].
  intros c Hc. by apply digit_not_bracket in Hc as (_ & ? & _).
Qed.

Lemma refs_scan i s :
  to_marker ref <$> exec_go re_ref_no_colon 0 i s
  = filter (λ m, kind m = ref) (marks_at i (tokenize s)).
Proof.
  revert i.
  induction s as [|c s Hm IH|d r Hd Hr IH|d r Hd IH] using text_cases; intros i.
  - done.
  - rewrite exec_no_match by by apply re_ref_no_colon_chr.
    rewrite tokenize_chr by done. apply IH.
  - rewrite (exec_match _ _ _ _ (3 + length d)); [|by apply re_ref_no_colon_ref|lia].
    rewrite tokenize_ref by done. rewrite take_marker, drop_marker.
    rewrite fmap_cons. cbn [marks_at]. rewrite filter_cons_True by done.
    unfold to_marker at 1. simpl fst. simpl snd.
    rewrite (group1_closed d [RBRACKET]) by done.
    f_equal. rewrite IH. do 2 f_equal. simpl. rewrite length_app. simpl. lia.
  - rewrite exec_no_match by by apply re_ref_no_colon_def.
    rewrite tokenize_def by done.
    change (CARET :: d ++ RBRACKET :: COLON :: r)
      with ([CARET] ++ d ++ [RBRACKET; COLON] ++ r).
    rewrite !(assoc_L (++)). rewrite <- (assoc_L (++) [CARET] d).
    rewrite exec_skip_no_bracket.
    + cbn [marks_at].
      rewrite filter_cons_False by done.
      rewrite IH. do 2 f_equal. simpl. rewrite !length_app. simpl. lia.
    + apply re_ref_no_colon_marker.
    + rewrite !Forall_app. split_and!;
        [by repeat constructor|by apply no_bracket_digits|by repeat constructor].
Qed.

Lemma defs_scan i s :
  to_marker def <$> exec_go re_def_head 0 i s
  = filter (λ m, kind m = def) (marks_at i (tokenize s)).
Proof.
  revert i.
  induction s as [|c s Hm IH|d r Hd Hr IH|d r Hd IH] using text_cases; intros i.
  - done.
  - rewrite exec_no_match by by apply re_def_head_chr.
    rewrite tokenize_chr by done. apply IH.
  - rewrite exec_no_match by by apply re_def_head_ref.
    rewrite tokenize_ref by done.
    change (CARET :: d ++ RBRACKET :: r)
      with ([CARET] ++ d ++ [RBRACKET] ++ r).
    rewrite !(assoc_L (++)). rewrite <- (assoc_L (++) [CARET] d).
    rewrite exec_skip_no_bracket.
    + cbn [marks_at].
      rewrite filter_cons_False by done.
      rewrite IH. do 2 f_equal. simpl. rewrite !length_app. simpl. lia.
    + apply re_def_head_marker.
    + rewrite !Forall_app. split_and!;
        [by repeat constructor|by apply no_bracket_digits|by repeat constructor].
  - rewrite (exec_match _ _ _ _ (S (3 + length d))); [|by apply re_def_head_def|lia].
    rewrite tokenize_def by done. rewrite take_def, drop_def.
    rewrite fmap_cons. cbn [marks_at]. rewrite filter_cons_True by done.
    unfold to_marker at 1. simpl fst. simpl snd.
    rewrite (group1_closed d [RBRACKET; COLON]) by done.
    f_equal. rewrite IH. do 2 f_equal. simpl. rewrite length_app. simpl. lia.
Qed.

(** *** Sorting the matches gives the markers in the order of the text *)

Lemma marks_at_lower_bound i ts m : m ∈ marks_at i ts → i ≤ index m.
Proof.
  revert i. induction ts as [|[c|k x] ts IH]; intros i; simpl.
  - by intros ?%elem_of_nil.
  - intros H%IH. lia.
  - intros [->|H%IH]%elem_of_cons; simpl; lia.
Qed.

Lemma marks_at_length_pos k x : 1 ≤ length (render_token (Mark k x)).
Proof. destruct k; simpl; lia. Qed.

Lemma marks_at_sorted i ts :
  StronglySorted (λ a b, index a < index b) (marks_at i ts).
Proof.
  revert i. induction ts as [|[c|k x] ts IH]; intros i; simpl.
  - constructor.
  - apply IH.
  - constructor; [apply IH|].
    apply Forall_forall. intros m Hm%marks_at_lower_bound. simpl.
    pose proof (marks_at_length_pos k x). simpl in *. lia.
Qed.

Lemma strictly_sorted_index_inj (l : list marker) a b :
  StronglySorted (λ a b, index a < index b) l →
  a ∈ l → b ∈ l → index a = index b → a = b.
Proof.
  induction 1 as [|c l Hl IH Hc]; [by intros ?%elem_of_nil|].
  rewrite Forall_forall in Hc.
  intros [->|Ha]%elem_of_cons [->|Hb]%elem_of_cons Hab; auto.
  - apply Hc in Hb. lia.
  - apply Hc in Ha. lia.
Qed.

Global Instance index_asc_trans : Transitive index_asc.
Proof. intros a b c. unfold index_asc. lia. Qed.
Global Instance index_asc_total : Total index_asc.
Proof. intros a b. unfold index_asc. lia. Qed.
Global Instance index_desc_trans : Transitive index_desc.
Proof. intros a b c. unfold index_desc. lia. Qed.
Global Instance index_desc_total : Total index_desc.
Proof. intros a b. unfold index_desc. lia. Qed.

Lemma marks_at_sorted_asc i ts : StronglySorted index_asc (marks_at i ts).
Proof.
  pose proof (marks_at_sorted i ts) as H.
  induction H as [|a l Hl IH Ha]; constructor; [done|].
  eapply Forall_impl; [done|]. intros b. unfold index_asc. simpl. lia.
Qed.

Lemma marks_at_sorted_desc i ts :
  StronglySorted index_desc (reverse (marks_at i ts)).
Proof.
  apply Sorted_StronglySorted; [apply _|].
  apply (Sorted_reverse index_asc).
  apply StronglySorted_Sorted, marks_at_sorted_asc.
Qed.

Lemma sort_asc_marks i ts l :
  l ≡ₚ marks_at i ts → merge_sort index_asc l = marks_at i ts.
Proof.
  intros Hp. apply (StronglySorted_unique_strong index_asc).
  - intros x1 x2 H1 H2 R12 R21.
    apply (strictly_sorted_index_inj (marks_at i ts)).
    + apply marks_at_sorted.
    + by rewrite merge_sort_Permutation, Hp in H1.
    + done.
    + unfold index_asc in *. lia.
  - apply StronglySorted_merge_sort; apply _.
  - apply marks_at_sorted_asc.
  - by rewrite merge_sort_Permutation.
Qed.

Lemma sort_desc_marks i ts l :
  l ≡ₚ marks_at i ts → merge_sort index_desc l = reverse (marks_at i ts).
Proof.
  intros Hp. apply (StronglySorted_unique_strong index_desc).
  - intros x1 x2 H1 H2 R12 R21.
    apply (strictly_sorted_index_inj (marks_at i ts)).
    + apply marks_at_sorted.
    + by rewrite merge_sort_Permutation, Hp in H1.
    + by rewrite reverse_Permutation in H2.
    + unfold index_desc in *. lia.
  - apply StronglySorted_merge_sort; apply _.
  - apply marks_at_sorted_desc.
  - by rewrite merge_sort_Permutation, reverse_Permutation.
Qed.

Lemma filter_kind_Permutation (l : list marker) :
  filter (λ m, kind m = ref) l ++ filter (λ m, kind m = def) l ≡ₚ l.
Proof.
  induction l as [|m l IH]; [done|].
  destruct (kind m) eqn:Hk.
  - rewrite filter_cons_True, filter_cons_False by congruence.
    simpl. by rewrite IH.
  - rewrite filter_cons_False, filter_cons_True by congruence.
    rewrite <- Permutation_middle. by rewrite IH.
Qed.

Lemma matches_are_marks text :
  (to_marker ref <$> execAll re_ref_no_colon text)
    ++ (to_marker def <$> execAll re_def_head text)
  ≡ₚ marks_at 0 (tokenize text).
Proof.
  unfold execAll. rewrite refs_scan, defs_scan. apply filter_kind_Permutation.
Qed.

(** *** The order of first occurrence *)

Lemma first_occurrences_elem_of l x : x ∈ first_occurrences l ↔ x ∈ l.
Proof.
  induction l as [|y l IH]; simpl; [done|].
  rewrite !elem_of_cons, list_elem_of_filter, IH.
  destruct (decide (x = y)); naive_solver.
Qed.

Lemma first_occurrences_NoDup l : NoDup (first_occurrences l).
Proof.
  induction l as [|y l IH]; simpl; [constructor|].
  constructor; [|by apply NoDup_filter].
  rewrite list_elem_of_filter. naive_solver.
Qed.

Lemma collect_order_spec ms order seen :
  seen = list_to_set order →
  (foldl collect_order (order, seen) ms).1
  = order ++ filter (λ y, y ∉ order) (first_occurrences (id <$> ms)).
Proof.
  revert order seen. induction ms as [|m ms IH]; intros order seen Hseen.
  - simpl. by rewrite app_nil_r.
  - change (foldl collect_order (order, seen) (m :: ms))
      with (foldl collect_order (collect_order (order, seen) m) ms).
    unfold collect_order at 2. rewrite fmap_cons. cbn [first_occurrences].
    assert (id m ∈ seen ↔ id m ∈ order) as Hmem.
    { subst seen. apply elem_of_list_to_set. }
    destruct (decide (id m ∈ seen)) as [Hin|Hnin].
    + apply Hmem in Hin.
      rewrite (IH _ _ Hseen). f_equal.
      rewrite filter_cons_False by (intros Hn; by apply Hn).
      rewrite list_filter_filter. apply list_filter_iff.
      intros y. split; [|by intros [? ?]]. intros Hy. split; [done|].
      by intros ->.
    + assert (id m ∉ order) as Hnin' by (by rewrite <- Hmem).
      rewrite (IH (order ++ [id m]) ({[id m]} ∪ seen)).
      2:{ subst seen. rewrite list_to_set_app_L. simpl.
          rewrite (right_id_L ∅ (∪)). apply (comm_L (∪)). }
      rewrite <- (assoc_L (++)). f_equal.
      rewrite filter_cons_True by done.
      simpl. f_equal.
      rewrite list_filter_filter. apply list_filter_iff.
      intros y. rewrite elem_of_app, list_elem_of_singleton.
      split; [intros Hy; split; intros ?; apply Hy; auto|].
      intros [H1 H2] [?|?]; auto.
Qed.

Lemma position_None x l : position x l = None ↔ x ∉ l.
Proof.
  induction l as [|y l IH]; simpl.
  - split; [intros _ ?%elem_of_nil; done|done].
  - rewrite not_elem_of_cons. destruct (decide (y = x)) as [->|Hne].
    + naive_solver.
    + rewrite fmap_None, IH. naive_solver.
Qed.

Lemma position_lookup x l k : position x l = Some k → l !! k = Some x.
Proof.
  revert k. induction l as [|y l IH]; intros k; simpl; [done|].
  destruct (decide (y = x)) as [->|Hne].
  - by intros [= <-].
  - intros (k' & Hk & ->)%fmap_Some. simpl. auto.
Qed.

Lemma lookup_position x l k :
  NoDup l → l !! k = Some x → position x l = Some k.
Proof.
  intros Hnd. revert k. induction Hnd as [|y l Hy Hnd IH]; intros k; [done|].
  destruct k as [|k]; simpl.
  - intros [= ->]. by rewrite decide_True.
  - intros Hk. rewrite decide_False.
    + by rewrite (IH k Hk).
    + intros ->. apply Hy. by eapply list_elem_of_lookup_2.
Qed.

Lemma counted_S start k : counted (add_one start) k = counted start (S k).
Proof. unfold counted. symmetry. apply Nat.iter_succ_r. Qed.

Lemma add_one_exact n :
  (- 2 ^ 53 ≤ n < 2 ^ 53)%Z → add_one n = (n + 1)%Z.
Proof.
  intros Hn. unfold add_one.
  rewrite (proj2 (Z.leb_le _ _)), (proj2 (Z.ltb_lt _ _)) by lia. done.
Qed.

Lemma add_one_stuck : add_one (2 ^ 53) = (2 ^ 53)%Z.
Proof. reflexivity. Qed.

Lemma add_one_le n : (n ≤ add_one n)%Z.
Proof.
  unfold add_one. destruct (_ && _); [lia|]. destruct (_ && _); lia.
Qed.

Lemma counted_ge start k : (start ≤ counted start k)%Z.
Proof.
  induction k as [|k IH]; [done|].
  etrans; [exact IH|]. apply add_one_le.
Qed.

Lemma counted_exact start k :
  (- 2 ^ 53 ≤ start)%Z → (start + Z.of_nat k ≤ 2 ^ 53)%Z →
  counted start k = (start + Z.of_nat k)%Z.
Proof.
  intros Hs. induction k as [|k IH]; intros Hk.
  - unfold counted. simpl. lia.
  - change (counted start (S k)) with (add_one (counted start k)).
    rewrite IH by lia. rewrite add_one_exact by lia. lia.
Qed.

Lemma counted_min start k :
  (- 2 ^ 53 ≤ start ≤ 2 ^ 53)%Z →
  counted start k = ((start + Z.of_nat k) `min` 2 ^ 53)%Z.
Proof.
  intros Hs. induction k as [|k IH].
  - unfold counted. simpl. lia.
  - change (counted start (S k)) with (add_one (counted start k)).
    rewrite IH. destruct (decide (start + Z.of_nat k < 2 ^ 53)%Z) as [Hlt|Hge].
    + rewrite Z.min_l by lia. rewrite add_one_exact by lia. lia.
    + rewrite Z.min_r by lia. rewrite add_one_stuck. lia.
Qed.

Lemma assign_id_spec order mapping nextId :
  NoDup order →
  (foldl assign_id (mapping, nextId) order).2 = counted nextId (length order)
  ∧ ∀ x, (foldl assign_id (mapping, nextId) order).1 !! x
         = match position x order with
           | Some k => Some (String_of_Z (counted nextId k))
           | None => mapping !! x
           end.
Proof.
  intros Hnd. revert mapping nextId.
  induction Hnd as [|y order Hy Hnd IH]; intros mapping nextId.
  - done.
  - change (foldl assign_id (mapping, nextId) (y :: order))
      with (foldl assign_id (<[y := String_of_Z nextId]> mapping, add_one nextId) order).
    destruct (IH (<[y := String_of_Z nextId]> mapping) (add_one nextId)) as [Hn Hm].
    split; [rewrite Hn; apply counted_S|].
    intros x. rewrite Hm. simpl.
    destruct (decide (y = x)) as [->|Hne].
    + apply position_None in Hy. rewrite Hy.
      by rewrite lookup_insert_eq.
    + destruct (position x order) as [k|]; simpl.
      * by rewrite counted_S.
      * by rewrite lookup_insert_ne.
Qed.

(** *** [String(n)] *)

Lemma str_inj : Inj (=) (=) str.
Proof.
  intros s1 s2 H. unfold str in H.
  assert (Inj (=) (=) (λ a : ascii, N_of_ascii a)) as Hinj.
  { intros a b Hab. simpl in Hab.
    by rewrite <- (ascii_N_embedding a), <- (ascii_N_embedding b), Hab. }
  apply (inj (fmap (λ a : ascii, N_of_ascii a))) in H.
  by rewrite <- (string_of_list_ascii_of_string s1),
    <- (string_of_list_ascii_of_string s2), H.
Qed.

Global Instance String_of_Z_inj : Inj (=) (=) String_of_Z.
Proof. intros a b H. unfold String_of_Z in H. by apply str_inj, (inj pretty) in H. Qed.

Lemma str_String c s : str (String c s) = N_of_ascii c :: str s.
Proof. done. Qed.

Lemma pretty_N_char_digit y : is_digit (N_of_ascii (pretty_N_char y)) = true.
Proof. unfold pretty_N_char. by repeat case_match. Qed.

Lemma str_pretty_N_go x s :
  ∃ dl, str (pretty_N_go x s) = dl ++ str s
        ∧ Forall (λ c, is_digit c = true) dl
        ∧ ((0 < x)%N → dl ≠ []).
Proof.
  revert s. induction (N.lt_wf_0 x) as [x _ IH]; intros s.
  destruct (decide (x = 0%N)) as [->|Hx].
  - exists []. rewrite pretty_N_go_0. split_and!; [done|done|lia].
  - rewrite pretty_N_go_step by lia.
    destruct (IH (x `div` 10)%N) with (s := String (pretty_N_char (x `mod` 10)) s)
      as (dl & Heq & Hdl & _).
    { apply N.div_lt; lia. }
    exists (dl ++ [N_of_ascii (pretty_N_char (x `mod` 10)%N)]).
    rewrite Heq, str_String, <- (assoc_L (++)). split_and!; [done| |].
    + apply Forall_app. split; [done|].
      constructor; [apply pretty_N_char_digit|done].
    + intros _. by destruct dl.
Qed.

Lemma String_of_Z_digits n : (0 ≤ n)%Z → digits (String_of_Z n).
Proof.
  intros Hn. unfold String_of_Z. destruct n as [|p|p]; [| |lia].
  - split; [done|]. by repeat constructor.
  - change (pretty (Z.pos p)) with (pretty_N_go (N.pos p) "").
    destruct (str_pretty_N_go (N.pos p) "") as (dl & -> & Hdl & Hne).
    change (str "") with (@nil N). rewrite app_nil_r. split; [|done].
    apply Hne. lia.
Qed.

Lemma String_of_Z_nonempty n : String_of_Z n ≠ [].
Proof.
  destruct (decide (0 ≤ n)%Z) as [Hn|Hn].
  - by apply String_of_Z_digits.
  - unfold String_of_Z. destruct n as [|p|p]; [lia|lia|]. done.
Qed.

(** *** The rewriting loop *)

Lemma drop_ref_token pre x rest :
  drop (length pre + length x + 3)
    (pre ++ (LBRACKET :: CARET :: x ++ [RBRACKET]) ++ rest) = rest.
Proof.
  rewrite <- Nat.add_assoc, drop_app_add. simpl app.
  rewrite <- (assoc_L (++)). simpl app.
  replace (length x + 3) with (3 + length x) by lia. apply drop_marker.
Qed.

Lemma drop_def_token pre x rest :
  drop (length pre + length x + 4)
    (pre ++ (LBRACKET :: CARET :: x ++ [RBRACKET; COLON]) ++ rest) = rest.
Proof.
  rewrite <- Nat.add_assoc, drop_app_add. simpl app.
  rewrite <- (assoc_L (++)). simpl app.
  replace (length x + 4) with (S (3 + length x)) by lia. apply drop_def.
Qed.

Lemma rewrite_marks (f : jsstring → jsstring) mapping nextId ts :
  (∀ x, x ∈ mark_ids ts → mapping !! x = Some (f x) ∧ f x ≠ []) →
  ∀ pre,
    foldl rewrite_marker (pre ++ render ts, mapping, nextId)
      (reverse (marks_at (length pre) ts))
    = (pre ++ render (rename_token f <$> ts), mapping, nextId).
Proof.
  induction ts as [|[c|k x] ts IH]; intros Hmap pre.
  - done.
  - cbn [marks_at]. rewrite fmap_cons, !render_cons. simpl render_token.
    rewrite !(assoc_L (++) pre [c]).
    replace (S (length pre)) with (length (pre ++ [c]))
      by (rewrite length_app; simpl; lia).
    apply IH. intros y Hy. apply Hmap. done.
  - cbn [marks_at]. rewrite reverse_cons, foldl_snoc.
    rewrite fmap_cons, !render_cons.
    rewrite (assoc_L (++) pre (render_token (Mark k x))).
    replace (length pre + length (render_token (Mark k x)))
      with (length (pre ++ render_token (Mark k x))) by by rewrite length_app.
    rewrite IH by (intros y Hy; apply Hmap; simpl; by right).
    destruct (Hmap x) as [Hx Hne]; [simpl; by left|].
    unfold rewrite_marker. simpl id. simpl index. simpl kind. rewrite Hx.
    apply nonempty_true in Hne. rewrite Hne.
    rewrite <- !(assoc_L (++)).
    rewrite take_app_length.
    destruct k; simpl render_token.
    + rewrite drop_ref_token. do 2 f_equal. simpl. by rewrite <- (assoc_L (++)).
    + rewrite drop_def_token. do 2 f_equal. simpl. by rewrite <- (assoc_L (++)).
Qed.

(** *** The renumbering as a whole *)

Lemma id_marks_at i ts : id <$> marks_at i ts = mark_ids ts.
Proof.
  revert i. induction ts as [|[c|k x] ts IH]; intros i; simpl; [done|apply IH|].
  unfold mark_ids. simpl. f_equal. apply IH.
Qed.

Lemma new_id_lookup start order k x :
  NoDup order → order !! k = Some x →
  new_id start order x = String_of_Z (start + Z.of_nat k).
Proof.
  intros Hnd Hk. unfold new_id. by rewrite (lookup_position x order k).
Qed.

Lemma new_ids_sequence start order :
  NoDup order →
  new_id start order <$> order
  = String_of_Z <$> seqZ start (Z.of_nat (length order)).
Proof.
  intros Hnd. apply list_eq. intros k. rewrite !list_lookup_fmap.
  destruct (order !! k) as [x|] eqn:Hk; simpl.
  - rewrite lookup_seqZ_lt by (apply lookup_lt_Some in Hk; lia).
    simpl. f_equal. by apply new_id_lookup.
  - rewrite lookup_seqZ_ge by (apply lookup_ge_None in Hk; lia). done.
Qed.

Lemma filter_not_elem_of_nil (l : list jsstring) :
  filter (λ y, y ∉ []) l = l.
Proof.
  induction l as [|x l IH]; [done|].
  rewrite filter_cons_True by by intros ?%elem_of_nil. by rewrite IH.
Qed.


Lemma normalizeFootnotesSafe_tokens text start :
  normalizeFootnotesSafe text start
  = (render (rename_token
               (assigned_id start (first_occurrences (mark_ids (tokenize text))))
             <$> tokenize text),
     counted start (length (first_occurrences (mark_ids (tokenize text))))).
Proof.
  unfold normalizeFootnotesSafe.
  rewrite (sort_asc_marks 0 (tokenize text)) by apply matches_are_marks.
  rewrite (sort_desc_marks 0 (tokenize text)) by apply matches_are_marks.
  pose proof (collect_order_spec (marks_at 0 (tokenize text)) [] ∅ eq_refl) as Horder.
  destruct (foldl collect_order _ _) as [order seen]. simpl in Horder.
  rewrite id_marks_at in Horder.
  rewrite filter_not_elem_of_nil in Horder. subst order.
  set (order := first_occurrences (mark_ids (tokenize text))).
  pose proof (first_occurrences_NoDup (mark_ids (tokenize text))) as Hnd.
  fold order in Hnd.
  destruct (assign_id_spec order ∅ start Hnd) as [Hnext Hmap].
  destruct (foldl assign_id _ _) as [mapping nextId]. simpl in Hnext, Hmap.
  pose proof (rewrite_marks (assigned_id start order) mapping nextId (tokenize text)) as Hrw.
  specialize (Hrw) with (pre := []). simpl in Hrw.
  rewrite render_tokenize in Hrw. rewrite Hrw.
  - by rewrite Hnext.
  - intros x Hx. rewrite Hmap. unfold assigned_id.
    destruct (position x order) as [k|] eqn:Hpos.
    + split; [done|apply String_of_Z_nonempty].
    + apply position_None in Hpos. exfalso. apply Hpos.
      by apply first_occurrences_elem_of.
Qed.

(** While the counter stays below [2^53] the identifiers assigned are
    [start], [start + 1], ... *)
Lemma assigned_id_exact start order x :
  (- 2 ^ 53 ≤ start)%Z → (start + Z.of_nat (length order) ≤ 2 ^ 53)%Z →
  assigned_id start order x = new_id start order x.
Proof.
  intros Hs Hn. unfold assigned_id, new_id.
  destruct (position x order) as [k|] eqn:Hk; [|done].
  apply position_lookup, lookup_lt_Some in Hk.
  rewrite counted_exact; [done|done|lia].
Qed.

Lemma rename_token_ext (f g : jsstring → jsstring) ts :
  (∀ x, x ∈ mark_ids ts → f x = g x) →
  rename_token f <$> ts = rename_token g <$> ts.
Proof.
  induction ts as [|[c|k x] ts IH]; intros Hfg; [done|..].
  - rewrite !fmap_cons. simpl. f_equal. by apply IH.
  - rewrite !fmap_cons. simpl. rewrite Hfg by by left. f_equal.
    apply IH. intros y Hy. apply Hfg. by right.
Qed.

Lemma normalizeFootnotesSafe_exact text start :
  (- 2 ^ 53 ≤ start)%Z →
  (start + Z.of_nat (length (first_occurrences (mark_ids (tokenize text))))
   ≤ 2 ^ 53)%Z →
  normalizeFootnotesSafe text start
  = (render (rename_token
               (new_id start (first_occurrences (mark_ids (tokenize text))))
             <$> tokenize text),
     (start + Z.of_nat (length (first_occurrences (mark_ids (tokenize text)))))%Z).
Proof.
  intros Hs Hn. rewrite normalizeFootnotesSafe_tokens. f_equal.
  - f_equal. apply rename_token_ext. intros x _. by apply assigned_id_exact.
  - by apply counted_exact.
Qed.

(** *** The reading of a text *)

Lemma wf_tokenize s : wf_tokens (tokenize s).
Proof.
  induction s as [|c s Hm IH|d r Hd Hr IH|d r Hd IH] using text_cases.
  - done.
  - rewrite tokenize_chr by done. simpl. by rewrite render_tokenize.
  - rewrite tokenize_ref by done. simpl. by rewrite render_tokenize.
  - rewrite tokenize_def by done. simpl. done.
Qed.

Lemma tokenize_render ts : wf_tokens ts → tokenize (render ts) = ts.
Proof.
  induction ts as [|[c|[|] x] ts IH]; simpl.
  - done.
  - intros [Hm Hwf]. rewrite render_cons. simpl.
    rewrite tokenize_chr by done. by rewrite IH.
  - intros (Hd & Hc & Hwf). rewrite render_cons. simpl.
    rewrite <- (assoc_L (++)). simpl.
    rewrite tokenize_ref by done. by rewrite IH.
  - intros (Hd & Hwf). rewrite render_cons. simpl.
    rewrite <- (assoc_L (++)). simpl.
    rewrite tokenize_def by done. by rewrite IH.
Qed.

Lemma is_digit_decimal c : is_digit c = true ↔ (48 ≤ c ≤ 57)%N.
Proof.
  unfold is_digit. rewrite andb_true_iff, !N.leb_le. done.
Qed.

Lemma digits_decimal d : digits d ↔ decimal_digits d.
Proof.
  unfold digits, decimal_digits. split; intros [Hne Hd]; (split; [done|]);
    (eapply Forall_impl; [exact Hd|]); intros c; by rewrite is_digit_decimal.
Qed.

Lemma marker_head_None_iff s : marker_head s = None ↔ ¬ begins_with_marker s.
Proof.
  split.
  - intros Hm (d & tail & Hd%digits_decimal & ->).
    change (str "[^" ++ d ++ str "]" ++ tail)
      with (LBRACKET :: CARET :: d ++ RBRACKET :: tail) in Hm.
    by rewrite marker_head_intro in Hm.
  - intros Hs. destruct (marker_head s) as [n|] eqn:Hn; [|done].
    exfalso. apply Hs.
    apply marker_head_spec in Hn as (d & r & -> & Hd%digits_decimal & _).
    by exists d, r.
Qed.

Lemma reading_wf ts : reading ts ↔ wf_tokens ts.
Proof.
  induction ts as [|[c|[|] x] ts IH]; cbn [reading wf_tokens].
  - done.
  - by rewrite marker_head_None_iff, IH.
  - by rewrite digits_decimal, IH.
  - by rewrite digits_decimal, IH.
Qed.

(** C3 (as the code has it): [normalizeFootnotesSafe(text, start)]
    sees the text as its one reading into characters, inline markers
    [[^digits]] and definition heads [[^digits]:].  When [start] and
    [start] plus the number of different identifiers lie between
    [-2^53] and [2^53], the identifiers, taken in the order of their
    first occurrence in the text (marker or definition, whichever comes
    first), receive [start], [start + 1], ... without gap and without
    repetition; every occurrence of an old identifier is rewritten to
    its new identifier; and [nextId] is [start] plus the number of
    different identifiers. *)
Theorem normalizeFootnotesSafe_spec text start :
  let ts := tokenize text in
  let order := first_occurrences (mark_ids ts) in
  exact_integer start →
  exact_integer (start + Z.of_nat (length order)) →
  (render ts = text ∧ reading ts
   ∧ ∀ ts', render ts' = text → reading ts' → ts' = ts)
  ∧ NoDup order
  ∧ new_id start order <$> order
    = String_of_Z <$> seqZ start (Z.of_nat (length order))
  ∧ NoDup (new_id start order <$> order)
  ∧ (normalizeFootnotesSafe text start).1
    = render (rename_token (new_id start order) <$> ts)
  ∧ (normalizeFootnotesSafe text start).2
    = (start + Z.of_nat (length order))%Z.
Proof.
  intros ts order [Hstart _] [_ Hend].
  pose proof (first_occurrences_NoDup (mark_ids ts)) as Hnd. fold order in Hnd.
  split_and!.
  - apply render_tokenize.
  - apply reading_wf, wf_tokenize.
  - intros ts' <- Hts'%reading_wf. unfold ts. by rewrite tokenize_render.
  - done.
  - by apply new_ids_sequence.
  - rewrite new_ids_sequence by done.
    apply (NoDup_fmap_2 String_of_Z), NoDup_seqZ.
  - by rewrite normalizeFootnotesSafe_exact.
  - by rewrite normalizeFootnotesSafe_exact.
Qed.

Lemma normalizeFootnotesSafe_spec_witness :
  exact_integer 5
  ∧ exact_integer (5 + 2)
  ∧ tokenize (str "a[^7] b[^3]:c[^7]")
    = [Chr 97%N; Mark ref (str "7"); Chr 32%N; Chr 98%N; Mark def (str "3");
       Chr 99%N; Mark ref (str "7")]
  ∧ normalizeFootnotesSafe (str "a[^7] b[^3]:c[^7]") 5
    = (str "a[^5] b[^6]:c[^5]", 7%Z).
Proof.
  assert (exact_integer 5) as H5 by (unfold exact_integer; lia).
  assert (exact_integer (5 + 2)) as H7 by (unfold exact_integer; lia).
  split_and!; [done|done|reflexivity|].
  destruct (normalizeFootnotesSafe_spec (str "a[^7] b[^3]:c[^7]") 5 H5 H7)
    as (_ & _ & _ & _ & Htext & Hnext).
  rewrite (surjective_pairing (normalizeFootnotesSafe _ _)), Htext, Hnext.
  reflexivity.
Defined.

(** C3 as stated fails outside the range in which the counter is
    exact: from [start = 2^53] two different identifiers receive the
    same number, and [nextId] is [start], not [start + 2]; from
    [start = -2^53 - 2] the second identifier is [start + 2], and
    [nextId] is [start + 3]. *)
Lemma normalizeFootnotesSafe_repeats_at_limit :
  (normalizeFootnotesSafe (str "a[^1] b[^2]") (2 ^ 53)
   = (str "a[^9007199254740992] b[^9007199254740992]", (2 ^ 53)%Z)
   ∧ first_occurrences (mark_ids (tokenize (str "a[^1] b[^2]")))
     = [str "1"; str "2"]
   ∧ first_occurrences (mark_ids (tokenize
       (normalizeFootnotesSafe (str "a[^1] b[^2]") (2 ^ 53)).1))
     = [str "9007199254740992"]
   ∧ (normalizeFootnotesSafe (str "a[^1] b[^2]") (2 ^ 53)).2
     ≠ (2 ^ 53 + 2)%Z)
  ∧ (normalizeFootnotesSafe (str "a[^1] b[^2]") (- 2 ^ 53 - 2)
     = (str "a[^-9007199254740994] b[^-9007199254740992]",
        (- 2 ^ 53 + 1)%Z)
     ∧ (normalizeFootnotesSafe (str "a[^1] b[^2]") (- 2 ^ 53 - 2)).2
       ≠ (- 2 ^ 53 - 2 + 2)%Z).
Proof.
  split; split_and!.
  - by vm_compute.
  - by vm_compute.
  - by vm_compute.
  - by vm_compute.
  - by vm_compute.
  - by vm_compute.
Qed.

(** *** Renumbering a renumbered text *)

Lemma render_chr_prefix ts : render ts = chr_prefix ts ++ render (after_chrs ts).
Proof.
  induction ts as [|[c|k x] ts IH]; [done| |done].
  rewrite render_cons. simpl. by rewrite IH.
Qed.

Lemma chr_prefix_rename f ts : chr_prefix (rename_token f <$> ts) = chr_prefix ts.
Proof.
  induction ts as [|[c|k x] ts IH]; [done| |done].
  rewrite fmap_cons. simpl. by rewrite IH.
Qed.

Lemma after_chrs_rename f ts :
  after_chrs (rename_token f <$> ts) = rename_token f <$> after_chrs ts.
Proof.
  induction ts as [|[c|k x] ts IH]; [done| |done].
  rewrite fmap_cons. simpl. by rewrite IH.
Qed.

Lemma after_chrs_cases ts :
  after_chrs ts = [] ∨ ∃ k x r, after_chrs ts = Mark k x :: r.
Proof. induction ts as [|[c|k x] ts IH]; simpl; eauto. Qed.

Lemma render_mark k x r :
  ∃ t, render (Mark k x :: r) = LBRACKET :: t.
Proof. rewrite render_cons. destruct k; simpl; eauto. Qed.

Lemma takeWhile_app_false p x c t :
  p c = false → takeWhile p (x ++ c :: t) = takeWhile p x.
Proof.
  intros Hc. induction x as [|a x IH]; simpl; [by rewrite Hc|].
  destruct (p a); [by rewrite IH|done].
Qed.

Lemma length_takeWhile_le p x : length (takeWhile p x) ≤ length x.
Proof.
  induction x as [|a x IH]; simpl; [done|]. destruct (p a); simpl; lia.
Qed.

Lemma marker_head_cons2 a b r :
  marker_head (a :: b :: r)
  = if ((a =? LBRACKET) && (b =? CARET))%N then
      match takeWhile is_digit r with
      | [] => None
      | d =>
          match drop (length d) r with
          | c :: _ => if (c =? RBRACKET)%N then Some (3 + length d) else None
          | [] => None
          end
      end
    else None.
Proof. done. Qed.

Lemma marker_head_tail_irrelevant x t1 t2 :
  x ≠ [] →
  marker_head (x ++ LBRACKET :: t1) = marker_head (x ++ LBRACKET :: t2).
Proof.
  intros Hx. destruct x as [|a [|b x]]; [done| |].
  - simpl. by rewrite andb_false_r.
  - change ((a :: b :: x) ++ LBRACKET :: t1) with (a :: b :: x ++ LBRACKET :: t1).
    change ((a :: b :: x) ++ LBRACKET :: t2) with (a :: b :: x ++ LBRACKET :: t2).
    rewrite !marker_head_cons2.
    destruct ((a =? LBRACKET)%N && (b =? CARET)%N); [|done].
    rewrite !(takeWhile_app_false is_digit x LBRACKET) by done.
    destruct (takeWhile is_digit x) as [|d0 d] eqn:Hd; [done|].
    cbv zeta.
    rewrite !drop_app_le
      by (rewrite <- Hd; apply length_takeWhile_le).
    rewrite <- Hd, drop_length_takeWhile.
    by destruct (dropWhile is_digit x).
Qed.

Lemma marker_head_rename f c ts :
  marker_head (c :: render (rename_token f <$> ts))
  = marker_head (c :: render ts).
Proof.
  rewrite (render_chr_prefix ts), (render_chr_prefix (_ <$> ts)).
  rewrite chr_prefix_rename, after_chrs_rename.
  destruct (after_chrs_cases ts) as [->|(k & x & r & ->)]; [done|].
  rewrite fmap_cons. simpl rename_token.
  destruct (render_mark k x r) as [t1 ->].
  destruct (render_mark k (f x) (rename_token f <$> r)) as [t2 ->].
  apply (marker_head_tail_irrelevant (c :: chr_prefix ts)). done.
Qed.

Lemma head_render_rename f ts :
  head (render (rename_token f <$> ts)) = head (render ts).
Proof. destruct ts as [|[c|[|] x] ts]; done. Qed.

Lemma wf_rename f ts :
  (∀ x, x ∈ mark_ids ts → digits (f x)) →
  wf_tokens ts → wf_tokens (rename_token f <$> ts).
Proof.
  induction ts as [|[c|[|] x] ts IH]; intros Hf; [done|..];
    rewrite fmap_cons; cbn [wf_tokens rename_token].
  - intros [Hm Hwf]. split; [by rewrite marker_head_rename|]. by apply IH.
  - intros (Hd & Hc & Hwf). split_and!.
    + apply Hf. by left.
    + by rewrite head_render_rename.
    + apply IH; [|done]. intros y Hy. apply Hf. by right.
  - intros (Hd & Hwf). split.
    + apply Hf. by left.
    + apply IH; [|done]. intros y Hy. apply Hf. by right.
Qed.

Lemma mark_ids_rename f ts :
  mark_ids (rename_token f <$> ts) = f <$> mark_ids ts.
Proof.
  induction ts as [|[c|k x] ts IH]; [done|..]; rewrite fmap_cons.
  - apply IH.
  - simpl rename_token.
    change (mark_ids (Mark k (f x) :: (rename_token f <$> ts)))
      with (f x :: mark_ids (rename_token f <$> ts)).
    by rewrite IH.
Qed.

Lemma filter_ne_fmap (f : jsstring → jsstring) x (l : list jsstring) :
  (∀ y, y ∈ l → f y = f x → y = x) →
  filter (λ y, y ≠ f x) (f <$> l) = f <$> filter (λ y, y ≠ x) l.
Proof.
  induction l as [|y l IH]; intros Hinj; [done|].
  rewrite fmap_cons.
  assert (filter (λ y, y ≠ f x) (f <$> l) = f <$> filter (λ y, y ≠ x) l) as Hl.
  { apply IH. intros z Hz. apply Hinj. by right. }
  destruct (decide (y = x)) as [->|Hne].
  - rewrite !filter_cons_False by (intros Hn; by apply Hn). done.
  - rewrite !filter_cons_True; [by rewrite fmap_cons, Hl|done|].
    intros Heq. apply Hne, Hinj; [by left|done].
Qed.

Lemma first_occurrences_fmap (f : jsstring → jsstring) (l : list jsstring) :
  (∀ x y, x ∈ l → y ∈ l → f x = f y → x = y) →
  first_occurrences (f <$> l) = f <$> first_occurrences l.
Proof.
  induction l as [|x l IH]; intros Hinj; [done|].
  rewrite fmap_cons. simpl. rewrite IH.
  2:{ intros a b Ha Hb. apply Hinj; by right. }
  f_equal. apply filter_ne_fmap.
  intros y Hy Heq. apply (proj1 (first_occurrences_elem_of _ _)) in Hy.
  apply Hinj.
  - by right.
  - by left.
  - done.
Qed.

Lemma position_fmap (f : jsstring → jsstring) x (l : list jsstring) :
  (∀ y, y ∈ l → f y = f x → y = x) →
  position (f x) (f <$> l) = position x l.
Proof.
  induction l as [|y l IH]; intros Hinj; [done|].
  rewrite fmap_cons. simpl.
  destruct (decide (y = x)) as [->|Hne].
  - by rewrite decide_True.
  - rewrite decide_False.
    + rewrite IH; [done|]. intros z Hz. apply Hinj. by right.
    + intros Heq. apply Hne, Hinj; [by left|done].
Qed.

Lemma new_id_inj start order x y :
  NoDup order → x ∈ order → y ∈ order →
  new_id start order x = new_id start order y → x = y.
Proof.
  intros Hnd Hx Hy. unfold new_id.
  destruct (position x order) as [kx|] eqn:Hkx;
    [|by apply position_None in Hkx].
  destruct (position y order) as [ky|] eqn:Hky;
    [|by apply position_None in Hky].
  intros Heq%(inj String_of_Z).
  apply position_lookup in Hkx, Hky.
  assert (kx = ky) as -> by lia. congruence.
Qed.

Lemma rename_fixed g f ts :
  (∀ x, x ∈ mark_ids ts → g (f x) = f x) →
  rename_token g <$> (rename_token f <$> ts) = rename_token f <$> ts.
Proof.
  induction ts as [|[c|k x] ts IH]; intros Hg; [done|..].
  - rewrite !fmap_cons. simpl. f_equal. by apply IH.
  - rewrite !fmap_cons. simpl. rewrite Hg by by left. f_equal.
    apply IH. intros y Hy. apply Hg. by right.
Qed.

(** *** The identifiers of a renumbered text *)

Lemma first_occurrences_app l1 l2 :
  first_occurrences (l1 ++ l2)
  = first_occurrences l1 ++ filter (λ y, y ∉ l1) (first_occurrences l2).
Proof.
  induction l1 as [|x l1 IH].
  - simpl. symmetry. apply filter_not_elem_of_nil.
  - simpl. rewrite IH, filter_app. do 2 f_equal.
    rewrite list_filter_filter. apply list_filter_iff.
    intros y. rewrite not_elem_of_cons. tauto.
Qed.

Lemma filter_all {A} (P : A → Prop) `{∀ x, Decision (P x)} (l : list A) :
  Forall P l → filter P l = l.
Proof.
  induction 1 as [|x l Hx Hl IH]; [done|].
  by rewrite filter_cons_True, IH.
Qed.

Lemma filter_none {A} (P : A → Prop) `{∀ x, Decision (P x)} (l : list A) :
  Forall (λ x, ¬ P x) l → filter P l = [].
Proof.
  induction 1 as [|x l Hx Hl IH]; [done|].
  by rewrite filter_cons_False, IH.
Qed.

Lemma first_occurrences_NoDup_id l : NoDup l → first_occurrences l = l.
Proof.
  induction 1 as [|x l Hx Hnd IH]; [done|].
  simpl. rewrite IH. f_equal. apply filter_all, Forall_forall.
  intros y Hy ->. done.
Qed.

Lemma filter_ne_first_occurrences a l :
  filter (λ y, y ≠ a) (first_occurrences l)
  = first_occurrences (filter (λ y, y ≠ a) l).
Proof.
  induction l as [|x l IH]; [done|].
  simpl first_occurrences. destruct (decide (x = a)) as [->|Hne].
  - rewrite !filter_cons_False by (intros Hn; by apply Hn).
    rewrite <- IH, list_filter_filter. apply list_filter_iff. tauto.
  - rewrite !filter_cons_True by done.
    simpl first_occurrences. f_equal. rewrite <- IH.
    rewrite !list_filter_filter. apply list_filter_iff. tauto.
Qed.

Lemma filter_ne_fmap_filter (f : jsstring → jsstring) x (l : list jsstring) :
  filter (λ y, y ≠ f x) (f <$> filter (λ y, y ≠ x) l)
  = filter (λ y, y ≠ f x) (f <$> l).
Proof.
  induction l as [|y l IH]; [done|].
  destruct (decide (y = x)) as [->|Hne].
  - rewrite filter_cons_False by (intros Hn; by apply Hn).
    rewrite fmap_cons, (filter_cons_False _ (f x)) by (intros Hn; by apply Hn).
    done.
  - rewrite filter_cons_True by done. rewrite !fmap_cons.
    destruct (decide (f y = f x)) as [Heq|Hfne].
    + rewrite !filter_cons_False by (intros Hn; by apply Hn). done.
    + rewrite !filter_cons_True by done. by rewrite IH.
Qed.

(** The first occurrences of the renamed identifiers are those of the
    renamed first occurrences. *)
Lemma first_occurrences_fmap_order (f : jsstring → jsstring) (l : list jsstring) :
  first_occurrences (f <$> l) = first_occurrences (f <$> first_occurrences l).
Proof.
  induction l as [|x l IH]; [done|].
  rewrite fmap_cons. cbn [first_occurrences]. rewrite fmap_cons.
  cbn [first_occurrences]. f_equal.
  rewrite IH, !(filter_ne_first_occurrences (f x)). f_equal.
  symmetry. apply filter_ne_fmap_filter.
Qed.

Lemma assigned_ids_sequence start order :
  NoDup order → (- 2 ^ 53 ≤ start ≤ 2 ^ 53)%Z →
  assigned_id start order <$> order
  = (λ z, String_of_Z (z `min` 2 ^ 53)%Z)
    <$> seqZ start (Z.of_nat (length order)).
Proof.
  intros Hnd Hs. apply list_eq. intros k. rewrite !list_lookup_fmap.
  destruct (order !! k) as [x|] eqn:Hk; simpl.
  - rewrite lookup_seqZ_lt by (apply lookup_lt_Some in Hk; lia).
    simpl. f_equal. unfold assigned_id.
    rewrite (lookup_position x order k) by done.
    by rewrite counted_min.
  - rewrite lookup_seqZ_ge by (apply lookup_ge_None in Hk; lia). done.
Qed.

Lemma fmap_below_limit start n :
  (start + n ≤ 2 ^ 53 + 1)%Z →
  (λ z, String_of_Z (z `min` 2 ^ 53)%Z) <$> seqZ start n
  = String_of_Z <$> seqZ start n.
Proof.
  intros Hn. apply list_fmap_ext. intros i z Hz.
  apply lookup_seqZ in Hz as [-> Hi]. f_equal. lia.
Qed.

(** A counter that reaches [2^53] repeats it: the different numbers of
    [n] turns from [start]. *)
Lemma first_occurrences_counted start n :
  (0 ≤ n)%Z → (start ≤ 2 ^ 53)%Z →
  first_occurrences ((λ z, String_of_Z (z `min` 2 ^ 53)%Z) <$> seqZ start n)
  = String_of_Z <$> seqZ start (n `min` (2 ^ 53 - start + 1)).
Proof.
  intros Hn Hs.
  destruct (decide (n ≤ 2 ^ 53 - start + 1)%Z) as [Hle|Hgt].
  - rewrite Z.min_l by done. rewrite fmap_below_limit by lia.
    apply first_occurrences_NoDup_id, (NoDup_fmap_2 String_of_Z), NoDup_seqZ.
  - rewrite Z.min_r by lia.
    set (m := (2 ^ 53 - start + 1)%Z) in *.
    replace n with (m + (n - m))%Z at 1 by lia.
    rewrite seqZ_app by lia. rewrite fmap_app, first_occurrences_app.
    rewrite (fmap_below_limit start m) by (unfold m; lia).
    rewrite first_occurrences_NoDup_id
      by apply (NoDup_fmap_2 String_of_Z), NoDup_seqZ.
    rewrite filter_none; [by rewrite app_nil_r|].
    apply Forall_forall. intros x Hx Hnot. apply Hnot.
    apply (proj1 (first_occurrences_elem_of _ _)) in Hx.
    apply list_elem_of_fmap in Hx as (z & -> & Hz).
    apply elem_of_seqZ in Hz.
    apply list_elem_of_fmap. exists (2 ^ 53)%Z. split; [f_equal; lia|].
    apply elem_of_seqZ. unfold m. lia.
Qed.

(** The text that [normalizeFootnotesSafe] returns counts its
    identifiers from [start], and [nextId] is the counter behind them. *)
Lemma renumbered_order text start :
  (0 ≤ start ≤ 2 ^ 53)%Z →
  let out := normalizeFootnotesSafe text start in
  let n := Z.of_nat (length (first_occurrences (mark_ids (tokenize text)))) in
  first_occurrences (mark_ids (tokenize out.1))
  = String_of_Z <$> seqZ start (n `min` (2 ^ 53 - start + 1))
  ∧ out.2 = ((start + n) `min` 2 ^ 53)%Z.
Proof.
  intros Hstart. cbv zeta. rewrite normalizeFootnotesSafe_tokens. simpl.
  set (ts := tokenize text).
  set (order := first_occurrences (mark_ids ts)).
  pose proof (first_occurrences_NoDup (mark_ids ts)) as Hnd. fold order in Hnd.
  split; [|apply counted_min; lia].
  rewrite tokenize_render.
  2:{ apply wf_rename; [|apply wf_tokenize].
      intros x Hx%first_occurrences_elem_of. fold order in Hx.
      unfold assigned_id.
      destruct (position x order) as [k|] eqn:Hk; [|by apply position_None in Hk].
      apply String_of_Z_digits. rewrite counted_min; lia. }
  rewrite mark_ids_rename, first_occurrences_fmap_order. fold order.
  rewrite assigned_ids_sequence by (done || lia).
  apply first_occurrences_counted; lia.
Qed.

Lemma rename_id_fixed (f : jsstring → jsstring) ts :
  (∀ x, x ∈ mark_ids ts → f x = x) → rename_token f <$> ts = ts.
Proof.
  induction ts as [|[c|k x] ts IH]; intros Hf; [done|..].
  - rewrite fmap_cons. simpl. f_equal. by apply IH.
  - rewrite fmap_cons. simpl. rewrite Hf by by left. f_equal.
    apply IH. intros y Hy. apply Hf. by right.
Qed.

Lemma renumber_identity text start :
  (∀ x, x ∈ first_occurrences (mark_ids (tokenize text)) →
        assigned_id start (first_occurrences (mark_ids (tokenize text))) x = x) →
  normalizeFootnotesSafe text start
  = (text,
     counted start (length (first_occurrences (mark_ids (tokenize text))))).
Proof.
  intros Hfix. rewrite normalizeFootnotesSafe_tokens. f_equal.
  rewrite rename_id_fixed; [apply render_tokenize|].
  intros x Hx%first_occurrences_elem_of. by apply Hfix.
Qed.

Lemma assigned_id_counted start m x :
  (- 2 ^ 53 ≤ start)%Z → (start + m ≤ 2 ^ 53 + 1)%Z →
  x ∈ String_of_Z <$> seqZ start m →
  assigned_id start (String_of_Z <$> seqZ start m) x = x.
Proof.
  intros Hs Hm Hx. apply list_elem_of_lookup in Hx as [i Hi].
  unfold assigned_id. rewrite (lookup_position x _ i); [| |done].
  - rewrite list_lookup_fmap in Hi.
    destruct (seqZ start m !! i) as [z|] eqn:Hz; [|done].
    apply lookup_seqZ in Hz as [-> Hlt]. injection Hi as <-.
    f_equal. apply counted_exact; lia.
  - apply (NoDup_fmap_2 String_of_Z), NoDup_seqZ.
Qed.

(** C4 (as the code has it): renumbering is idempotent at a fixed
    offset: [normalizeFootnotesSafe] applied with start 1 to the text of
    [normalizeFootnotesSafe(text, 1)] returns the same text and the same
    [nextId]. *)
Theorem normalizeFootnotesSafe_idempotent text :
  normalizeFootnotesSafe (normalizeFootnotesSafe text 1).1 1
  = normalizeFootnotesSafe text 1.
Proof.
  destruct (renumbered_order text 1) as [Hord Hnext]; [lia|].
  cbv zeta in Hord, Hnext.
  set (n := Z.of_nat (length (first_occurrences (mark_ids (tokenize text)))))
    in *.
  rewrite (renumber_identity (normalizeFootnotesSafe text 1).1 1).
  - rewrite (surjective_pairing (normalizeFootnotesSafe text 1)) at 3.
    f_equal. rewrite Hord, length_fmap, length_seqZ, Hnext.
    rewrite counted_min by lia. lia.
  - rewrite Hord. intros x Hx. apply assigned_id_counted; [lia|lia|done].
Qed.

(** C4 as stated fails: renumbering from the returned [nextId] shifts
    every identifier; the once renumbered text [a[^1]] becomes
    [a[^2]]. *)
Lemma renumber_from_nextId_changes_text :
  (normalizeFootnotesSafe (str "a[^7]") 1) = (str "a[^1]", 2%Z)
  ∧ normalizeFootnotesSafe (normalizeFootnotesSafe (str "a[^7]") 1).1
      (normalizeFootnotesSafe (str "a[^7]") 1).2
    = (str "a[^2]", 3%Z)
  ∧ (normalizeFootnotesSafe (normalizeFootnotesSafe (str "a[^7]") 1).1
       (normalizeFootnotesSafe (str "a[^7]") 1).2).1
    ≠ (normalizeFootnotesSafe (str "a[^7]") 1).1.
Proof. split_and!; [by vm_compute|by vm_compute|]. vm_compute. discriminate. Qed.

(** ** Footnote relocation *)

(** *** [trimEnd] *)

Lemma dropWhile_app_all p a b :
  Forall (λ c, p c = true) a → dropWhile p (a ++ b) = dropWhile p b.
Proof.
  intros Ha. induction Ha as [|c a Hc Ha IH]; simpl; [done|]. by rewrite Hc.
Qed.

Lemma trimEnd_split x :
  ∃ w, x = trimEnd x ++ w ∧ Forall (λ c, is_space c = true) w.
Proof.
  exists (reverse (takeWhile is_space (reverse x))). split.
  - unfold trimEnd. rewrite <- reverse_app, takeWhile_dropWhile.
    by rewrite reverse_involutive.
  - apply Forall_reverse, takeWhile_Forall.
Qed.

Lemma dropWhile_head p s :
  match head (dropWhile p s) with Some c => p c = false | None => True end.
Proof.
  induction s as [|c s IH]; simpl; [done|].
  destruct (p c) eqn:Hc; [done|]. simpl. done.
Qed.

Lemma last_reverse {A} (l : list A) : last (reverse l) = head l.
Proof.
  destruct l as [|a l]; [done|]. rewrite reverse_cons. apply last_snoc.
Qed.

Lemma trimEnd_ends_nonspace x : ends_nonspace (trimEnd x).
Proof.
  unfold ends_nonspace, trimEnd. rewrite last_reverse. apply dropWhile_head.
Qed.

Lemma trimEnd_fixed x : ends_nonspace x → trimEnd x = x.
Proof.
  unfold ends_nonspace, trimEnd. rewrite <- (reverse_involutive x) at 1.
  rewrite last_reverse. intros H.
  destruct (reverse x) as [|c r] eqn:Hr.
  - simpl. by rewrite <- (reverse_involutive x), Hr.
  - simpl in *. rewrite H. by rewrite <- Hr, reverse_involutive.
Qed.

Lemma trimEnd_app_spaces x w :
  Forall (λ c, is_space c = true) w → trimEnd (x ++ w) = trimEnd x.
Proof.
  intros Hw. unfold trimEnd. rewrite reverse_app.
  by rewrite dropWhile_app_all by by apply Forall_reverse.
Qed.

Lemma ends_nonspace_app x y :
  y ≠ [] → ends_nonspace y → ends_nonspace (x ++ y).
Proof.
  intros Hy. unfold ends_nonspace. destruct y; [done|]. by rewrite last_app_cons.
Qed.

(** *** Definition heads and blocks *)

Lemma re_def_head_spec s n :
  re_def_head s = Some n →
  ∃ d r, s = LBRACKET :: CARET :: d ++ RBRACKET :: COLON :: r
         ∧ digits d ∧ n = S (3 + length d).
Proof.
  unfold re_def_head. destruct (marker_head s) as [k|] eqn:Hm; [|done].
  apply marker_head_spec in Hm as (d & r & -> & Hd & ->).
  rewrite drop_marker. destruct r as [|c r]; [done|].
  destruct (c =? COLON)%N eqn:Hc; [|done].
  apply N.eqb_eq in Hc as ->. intros [= <-]. by exists d, r.
Qed.

(** A definition head found before a line feed lies before it. *)
Lemma re_def_head_local x y z n :
  re_def_head (x ++ LF :: y) = Some n → re_def_head (x ++ z) = Some n.
Proof.
  intros (d & r & Heq & Hd & ->)%re_def_head_spec.
  assert (∃ x', x = LBRACKET :: CARET :: d ++ RBRACKET :: COLON :: x')
    as [x' ->].
  { destruct x as [|a x]; [done|]. injection Heq as -> Heq.
    destruct x as [|a x]; [done|]. injection Heq as -> Heq.
    destruct Hd as [_ Hd]. revert x Heq.
    induction Hd as [|c d Hc Hd IH]; intros x Heq.
    - destruct x as [|a x]; [done|]. injection Heq as -> Heq.
      destruct x as [|a x]; [done|]. injection Heq as -> Heq. eauto.
    - destruct x as [|a x].
      + injection Heq as <- _. done.
      + injection Heq as -> Heq. destruct (IH x Heq) as [x' Hx'].
        exists x'. by injection Hx' as ->. }
  simpl. rewrite <- (assoc_L (++)). simpl. by rewrite re_def_head_def.
Qed.

Lemma re_def_head_extend x z n :
  re_def_head x = Some n → re_def_head (x ++ z) = Some n.
Proof.
  intros (d & r & -> & Hd & ->)%re_def_head_spec.
  simpl. rewrite <- (assoc_L (++)). simpl. by rewrite re_def_head_def.
Qed.

Lemma re_def_head_bracket c s n : re_def_head (c :: s) = Some n → c = LBRACKET.
Proof. intros (d & r & Heq & _)%re_def_head_spec. by injection Heq. Qed.

Lemma block_match_inv s len :
  FOOTNOTE_DEF_BLOCK_RE s = Some len →
  ∃ r n, s = LF :: r ∧ re_def_head r = Some n
         ∧ len = S (n + block_rest (drop n r)).
Proof.
  unfold FOOTNOTE_DEF_BLOCK_RE. destruct s as [|c r]; [done|].
  destruct (c =? LF)%N eqn:Hc; [|done]. apply N.eqb_eq in Hc as ->.
  destruct (re_def_head r) as [n|] eqn:Hn; [|done].
  intros [= <-]. by exists r, n.
Qed.

Lemma block_match_pos s len : FOOTNOTE_DEF_BLOCK_RE s = Some len → 1 ≤ len.
Proof. intros (r & n & _ & _ & ->)%block_match_inv. lia. Qed.

Lemma block_match_None s :
  FOOTNOTE_DEF_BLOCK_RE s = None ↔ block_start s = false.
Proof.
  unfold FOOTNOTE_DEF_BLOCK_RE, block_start. destruct s as [|c r]; [done|].
  destruct (c =? LF)%N; [|done]. simpl.
  destruct (re_def_head r) as [n|].
  - rewrite bool_decide_eq_false. split; [done|]. intros H. destruct H. eauto.
  - rewrite bool_decide_eq_false. split; [|done]. intros _ [? ?]. done.
Qed.

Lemma block_start_true s :
  block_start s = true ↔ ∃ r, s = LF :: r ∧ is_Some (re_def_head r).
Proof.
  unfold block_start. destruct s as [|c r].
  - split; [done|]. by intros (? & ? & _).
  - rewrite andb_true_iff, N.eqb_eq, bool_decide_eq_true. split.
    + intros [-> H]. eauto.
    + intros (r' & [= -> ->] & H). done.
Qed.

(** Every text is empty, begins with a character at which no block
    starts, or begins with a block. *)
Lemma block_cases (P : jsstring → Prop) :
  P [] →
  (∀ c s, FOOTNOTE_DEF_BLOCK_RE (c :: s) = None → P s → P (c :: s)) →
  (∀ c s len, FOOTNOTE_DEF_BLOCK_RE (c :: s) = Some len →
              P (drop len (c :: s)) → P (c :: s)) →
  ∀ s, P s.
Proof.
  intros Hnil Hno Hmatch s.
  remember (length s) as k eqn:Hk. revert s Hk.
  induction k as [k IH] using lt_wf_ind. intros s Hk.
  destruct s as [|c s]; [done|].
  destruct (FOOTNOTE_DEF_BLOCK_RE (c :: s)) as [len|] eqn:Hm.
  - apply (Hmatch _ _ len); [done|].
    apply (IH (length (drop len (c :: s)))); [|done].
    apply block_match_pos in Hm. rewrite length_drop. subst k. simpl. lia.
  - apply Hno; [done|]. apply (IH (length s)); [subst k; simpl; lia|done].
Qed.

(** The block stops at the end of the text or in front of a line
    terminator. *)
Lemma block_rest_stop r :
  match drop (block_rest r) r with
  | [] => True
  | c :: _ => is_line_terminator c = true
  end.
Proof.
  induction r as [|c r IH]; simpl; [done|].
  destruct (is_line_terminator c) eqn:Hc; [|done].
  destruct ((c =? LF)%N && _); [done|]. simpl. done.
Qed.

Lemma block_tail_stop r n :
  match drop (S (n + block_rest (drop n r))) (LF :: r) with
  | [] => True
  | c :: _ => is_line_terminator c = true
  end.
Proof.
  simpl. rewrite <- drop_drop. apply block_rest_stop.
Qed.

(** *** The first pass: the body keeps no block, the blocks are good *)

Lemma no_block_nil : no_block [].
Proof. intros u v Huv. symmetry in Huv. by apply app_eq_nil in Huv as [_ ->]. Qed.

Lemma no_block_cons c s :
  no_block (c :: s) ↔ block_start (c :: s) = false ∧ no_block s.
Proof.
  split.
  - intros H. split; [by apply (H [])|].
    intros u v ->. by apply (H (c :: u)).
  - intros [Hc Hs] u v Huv. destruct u as [|a u]; simpl in Huv.
    + by subst v.
    + injection Huv as -> ->. by apply (Hs u).
Qed.

Lemma without_defs_no_match c s :
  FOOTNOTE_DEF_BLOCK_RE (c :: s) = None →
  without_defs (c :: s) = c :: without_defs s.
Proof. apply replaceAll_no_match. Qed.

Lemma without_defs_match c s len :
  FOOTNOTE_DEF_BLOCK_RE (c :: s) = Some len →
  without_defs (c :: s) = LF :: without_defs (drop len (c :: s)).
Proof.
  intros Hm. rewrite (replaceAll_match _ _ _ _ len); [done|done|].
  by eapply block_match_pos.
Qed.

(** A text without line feed that begins the rewritten text begins the
    original text. *)
Lemma without_defs_prefix h s r :
  LF ∉ h → without_defs s = h ++ r → ∃ r', s = h ++ r'.
Proof.
  revert s. induction h as [|a h IH]; intros s Hh Heq; [by exists s|].
  destruct s as [|c s]; [done|].
  destruct (FOOTNOTE_DEF_BLOCK_RE (c :: s)) as [len|] eqn:Hm.
  - rewrite (without_defs_match _ _ len) in Heq by done.
    injection Heq as <- _. exfalso. apply Hh. by left.
  - rewrite without_defs_no_match in Heq by done.
    injection Heq as -> Heq.
    destruct (IH s) as [r' ->]; [|done|by exists r'].
    intros Hin. apply Hh. by right.
Qed.

Lemma digits_no_LF d : digits d → LF ∉ d.
Proof.
  intros [_ Hd] Hin. rewrite Forall_forall in Hd.
  by apply Hd, digit_not_bracket in Hin as (_ & _ & _ & ?).
Qed.

Lemma without_defs_def_head s n :
  re_def_head (without_defs s) = Some n → re_def_head s = Some n.
Proof.
  intros (d & r & Heq & Hd & ->)%re_def_head_spec.
  destruct (without_defs_prefix (LBRACKET :: CARET :: d ++ [RBRACKET; COLON]) s r)
    as [r' ->].
  - rewrite !not_elem_of_cons, not_elem_of_app, !not_elem_of_cons.
    split_and!; try done; [by apply digits_no_LF|by intros ?%elem_of_nil].
  - rewrite Heq. simpl. by rewrite <- (assoc_L (++)).
  - simpl. rewrite <- (assoc_L (++)). simpl. by apply re_def_head_def.
Qed.

Lemma without_defs_no_block s : no_block (without_defs s).
Proof.
  induction s as [|c s Hm IH|c s len Hm IH] using block_cases.
  - apply no_block_nil.
  - rewrite without_defs_no_match by done. apply no_block_cons.
    split; [|done].
    destruct (block_start (c :: without_defs s)) eqn:Hb; [|done].
    apply block_start_true in Hb as (r & [= -> <-] & [n Hn]).
    apply without_defs_def_head in Hn.
    unfold FOOTNOTE_DEF_BLOCK_RE in Hm. simpl in Hm. by rewrite Hn in Hm.
  - rewrite (without_defs_match _ _ len) by done. apply no_block_cons.
    split; [|done].
    destruct (block_start _) eqn:Hb; [|done].
    apply block_start_true in Hb as (r & [= <-] & [n Hn]).
    apply without_defs_def_head in Hn.
    apply block_match_inv in Hm as (r0 & n0 & [= -> ->] & Hn0 & ->).
    pose proof (block_tail_stop r0 n0) as Hstop.
    destruct (drop _ (LF :: r0)) as [|a t]; [done|].
    apply re_def_head_bracket in Hn as ->. done.
Qed.

Lemma ends_nonspace_tail c p : ends_nonspace (c :: p) → ends_nonspace p.
Proof. unfold ends_nonspace. by destruct p. Qed.

Lemma block_rest_cons c r :
  block_rest (c :: r)
  = if is_line_terminator c then
      if (c =? LF)%N && negb (bool_decide (is_Some (re_def_head r)))
      then S (block_rest r) else 0
    else S (block_rest r).
Proof. done. Qed.

Lemma block_rest_prefix r0 p q tail :
  take (block_rest r0) r0 = p ++ q → ends_nonspace p → block_boundary tail →
  block_rest (p ++ tail) = length p.
Proof.
  revert r0. induction p as [|c p IH]; intros r0 Hr0 Hp Htail.
  - simpl. destruct Htail as [->|(t & -> & Ht)]; [done|].
    rewrite block_rest_cons. simpl.
    by rewrite (bool_decide_eq_true_2 _ Ht).
  - destruct r0 as [|c0 r1]; [done|].
    rewrite block_rest_cons in Hr0.
    assert (c0 = c ∧ take (block_rest r1) r1 = p ++ q
            ∧ (is_line_terminator c = true →
               c = LF ∧ re_def_head r1 = None)) as (-> & Hr1 & Hlt).
    { destruct (is_line_terminator c0) eqn:Hc0.
      - destruct (c0 =? LF)%N eqn:Heq; simpl in Hr0; [|done].
        destruct (bool_decide (is_Some (re_def_head r1))) eqn:Hd;
          simpl in Hr0; [done|].
        injection Hr0 as -> Hr0. split_and!; [done..|].
        intros _. apply N.eqb_eq in Heq. split; [done|].
        apply bool_decide_eq_false in Hd.
        destruct (re_def_head r1); [|done]. destruct Hd. eauto.
      - simpl in Hr0. injection Hr0 as -> Hr0. split_and!; [done..|].
        intros Hc. congruence. }
    simpl app. rewrite block_rest_cons.
    rewrite (IH r1 Hr1 (ends_nonspace_tail _ _ Hp) Htail).
    destruct (is_line_terminator c) eqn:Hc; [|done].
    destruct (Hlt eq_refl) as [-> Hnone]. simpl.
    rewrite bool_decide_eq_false_2; [done|].
    intros [n' Hn'].
    assert (p ≠ []) as Hne by (intros ->; done).
    assert (is_Some (re_def_head r1)) as [? ?]; [|congruence].
    rewrite <- (take_drop (block_rest r1) r1), Hr1, <- (assoc_L (++)).
    destruct Htail as [->|(t & -> & Ht)].
    + rewrite app_nil_r in Hn'. eexists. by apply re_def_head_extend.
    + eexists. by eapply re_def_head_local.
Qed.

Lemma trimEnd_app_nonspace h x :
  h ≠ [] → ends_nonspace h → trimEnd (h ++ x) = h ++ trimEnd x.
Proof.
  intros Hne Hh. destruct (trimEnd_split x) as (w & Hx & Hw).
  rewrite Hx at 1. rewrite (assoc_L (++)), trimEnd_app_spaces by done.
  apply trimEnd_fixed.
  destruct (trimEnd x) as [|a t] eqn:Ht.
  - by rewrite app_nil_r.
  - apply ends_nonspace_app; [done|]. rewrite <- Ht. apply trimEnd_ends_nonspace.
Qed.

Lemma clean_block_good r n :
  re_def_head r = Some n →
  let b := clean_block (LF :: take (n + block_rest (drop n r)) r) in
  good_block b ∧ b ≠ [] ∧ trimEnd b = b.
Proof.
  intros Hn. cbv zeta.
  pose proof Hn as (d & r0 & -> & Hd & ->)%re_def_head_spec.
  rewrite drop_def. unfold clean_block. rewrite N.eqb_refl.
  set (hdr := LBRACKET :: CARET :: d ++ [RBRACKET; COLON]).
  assert (LBRACKET :: CARET :: d ++ RBRACKET :: COLON :: r0 = hdr ++ r0) as ->.
  { unfold hdr. simpl. by rewrite <- (assoc_L (++)). }
  assert (length hdr = S (3 + length d)) as Hlen.
  { unfold hdr. simpl. rewrite length_app. simpl. lia. }
  rewrite <- Hlen, take_app_add.
  assert (ends_nonspace hdr) as Hhdr.
  { unfold ends_nonspace, hdr.
    replace (d ++ [RBRACKET; COLON]) with ((d ++ [RBRACKET]) ++ [COLON])
      by by rewrite <- (assoc_L (++)).
    change (LBRACKET :: CARET :: (d ++ [RBRACKET]) ++ [COLON])
      with ((LBRACKET :: CARET :: d ++ [RBRACKET]) ++ [COLON]).
    by rewrite last_snoc. }
  rewrite trimEnd_app_nonspace by done.
  set (p := trimEnd (take (block_rest r0) r0)).
  assert (∀ z, re_def_head ((hdr ++ p) ++ z) = Some (length hdr)) as Hhead.
  { intros z. rewrite Hlen. unfold hdr. simpl.
    rewrite <- !(assoc_L (++)). simpl. by apply re_def_head_def. }
  split_and!.
  - split; [split|].
    + intros z. by rewrite Hhead.
    + intros tail Htail. unfold FOOTNOTE_DEF_BLOCK_RE. rewrite N.eqb_refl.
      rewrite Hhead. rewrite <- (assoc_L (++)), drop_app_length.
      destruct (trimEnd_split (take (block_rest r0) r0)) as (w & Hw & _).
      fold p in Hw.
      rewrite (block_rest_prefix r0 p w tail Hw); [|apply trimEnd_ends_nonspace|done].
      by rewrite length_app.
    + destruct p as [|a t] eqn:Hp.
      * by rewrite app_nil_r.
      * apply ends_nonspace_app; [done|]. rewrite <- Hp. apply trimEnd_ends_nonspace.
  - done.
  - apply trimEnd_fixed.
    destruct p as [|a t] eqn:Hp.
    + by rewrite app_nil_r.
    + apply ends_nonspace_app; [done|]. rewrite <- Hp. apply trimEnd_ends_nonspace.
Qed.

Lemma matches_good text :
  Forall (λ mt, good_block (clean_block mt) ∧ clean_block mt ≠ []
                ∧ trimEnd (clean_block mt) = clean_block mt)
    (matchesAll FOOTNOTE_DEF_BLOCK_RE text).
Proof.
  induction text as [|c s Hm IH|c s len Hm IH] using block_cases.
  - constructor.
  - by rewrite matchesAll_no_match.
  - rewrite (matchesAll_match _ _ _ len); [|done|by eapply block_match_pos].
    constructor; [|done].
    apply block_match_inv in Hm as (r0 & n0 & [= -> ->] & Hn0 & ->).
    simpl take. by apply clean_block_good.
Qed.

(** *** The second pass *)

Lemma scan_unmatched_prefix f x y :
  (∀ u v, x = u ++ v → v ≠ [] → FOOTNOTE_DEF_BLOCK_RE (v ++ y) = None) →
  replaceAll FOOTNOTE_DEF_BLOCK_RE f (x ++ y)
  = x ++ replaceAll FOOTNOTE_DEF_BLOCK_RE f y
  ∧ matchesAll FOOTNOTE_DEF_BLOCK_RE (x ++ y)
    = matchesAll FOOTNOTE_DEF_BLOCK_RE y.
Proof.
  induction x as [|c x IH]; intros Hx; [done|].
  assert (FOOTNOTE_DEF_BLOCK_RE (c :: x ++ y) = None) as Hc.
  { by apply (Hx [] (c :: x)). }
  destruct IH as [IH1 IH2].
  { intros u v -> Hv. by apply (Hx (c :: u) v). }
  simpl app. rewrite replaceAll_no_match, matchesAll_no_match by done.
  by rewrite IH1, IH2.
Qed.

Lemma no_block_scan f s :
  no_block s →
  replaceAll FOOTNOTE_DEF_BLOCK_RE f s = s
  ∧ matchesAll FOOTNOTE_DEF_BLOCK_RE s = [].
Proof.
  intros Hs.
  destruct (scan_unmatched_prefix f s []) as [H1 H2].
  - intros u v -> Hv. rewrite app_nil_r. apply block_match_None. by apply (Hs u).
  - rewrite app_nil_r in H1, H2. by rewrite H1, H2, app_nil_r.
Qed.

Lemma matchesAll_nil_no_block s :
  matchesAll FOOTNOTE_DEF_BLOCK_RE s = [] → no_block s.
Proof.
  induction s as [|c s Hm IH|c s len Hm IH] using block_cases.
  - intros _. apply no_block_nil.
  - rewrite matchesAll_no_match by done. intros H. apply no_block_cons.
    split; [by apply block_match_None|by apply IH].
  - rewrite (matchesAll_match _ _ _ len); [done|done|by eapply block_match_pos].
Qed.

(** No block starts inside the trimmed body, whatever follows it. *)
Lemma body_unmatched w u v y :
  no_block w → trimEnd w = u ++ v → v ≠ [] →
  (y = [] ∨ ∃ y', y = LF :: y') →
  FOOTNOTE_DEF_BLOCK_RE (v ++ y) = None.
Proof.
  intros Hw Hbody Hv Hy. apply block_match_None.
  destruct (block_start (v ++ y)) eqn:Hb; [|done]. exfalso.
  apply block_start_true in Hb as (r & Hr & [n Hn]).
  destruct v as [|c v]; [done|]. injection Hr as -> <-.
  destruct (trimEnd_split w) as (sp & Hsplit & _).
  rewrite Hbody in Hsplit.
  assert (block_start (LF :: v ++ sp) = false) as Hfalse.
  { apply (Hw u). by rewrite Hsplit, <- (assoc_L (++)). }
  assert (is_Some (re_def_head (v ++ sp))) as Hsome.
  { destruct Hy as [->|[y' ->]].
    - rewrite app_nil_r in Hn. eexists. by apply re_def_head_extend.
    - eexists. by eapply re_def_head_local. }
  assert (block_start (LF :: v ++ sp) = true); [|congruence].
  apply block_start_true. eauto.
Qed.

Lemma blocks_text_cons b bs : blocks_text (b :: bs) = LF :: b ++ blocks_text bs.
Proof. done. Qed.

Lemma blocks_text_boundary bs :
  Forall scannable_block bs → block_boundary (blocks_text bs).
Proof.
  intros Hbs. destruct Hbs as [|b bs (Hb & _) _]; [by left|].
  right. rewrite blocks_text_cons. eauto.
Qed.

Lemma blocks_text_join bs :
  bs ≠ [] → [LF] ++ join [LF] bs = blocks_text bs.
Proof.
  induction bs as [|b bs IH]; [done|]. intros _.
  rewrite blocks_text_cons. destruct bs as [|b' bs].
  - simpl. by rewrite app_nil_r.
  - rewrite join_cons by done. rewrite <- IH by done. done.
Qed.

Lemma scan_blocks f bs :
  Forall scannable_block bs →
  matchesAll FOOTNOTE_DEF_BLOCK_RE (blocks_text bs) = (λ b, LF :: b) <$> bs
  ∧ replaceAll FOOTNOTE_DEF_BLOCK_RE f (blocks_text bs)
    = concat ((λ b, f (LF :: b)) <$> bs).
Proof.
  induction 1 as [|b bs Hb Hbs [IH1 IH2]]; [done|].
  rewrite blocks_text_cons.
  destruct Hb as (_ & Hmatch).
  specialize (Hmatch (blocks_text bs) (blocks_text_boundary bs Hbs)).
  assert (take (S (length b)) (LF :: b ++ blocks_text bs) = LF :: b) as Htake.
  { simpl. by rewrite take_app_length. }
  assert (drop (S (length b)) (LF :: b ++ blocks_text bs) = blocks_text bs) as Hdrop.
  { simpl. by rewrite drop_app_length. }
  rewrite (matchesAll_match _ _ _ _ Hmatch) by lia.
  rewrite (replaceAll_match _ _ _ _ _ Hmatch) by lia.
  rewrite Htake, Hdrop, IH1, IH2. done.
Qed.

Lemma concat_const_LF (bs : list jsstring) :
  concat ((λ _, [LF]) <$> bs) = replicate (length bs) LF.
Proof.
  induction bs as [|b bs IH]; [done|].
  rewrite fmap_cons. cbn [concat app length replicate]. by rewrite IH.
Qed.

Lemma blocks_text_ends_nonspace bs :
  bs ≠ [] → Forall good_block bs →
  blocks_text bs ≠ [] ∧ ends_nonspace (blocks_text bs).
Proof.
  intros Hne Hbs. split; [by destruct bs|].
  induction Hbs as [|b bs Hb Hbs IH]; [done|].
  rewrite blocks_text_cons. destruct bs as [|b' bs].
  - unfold blocks_text. simpl. rewrite app_nil_r.
    destruct Hb as ((Hhead & _) & Hend).
    destruct b as [|a b]; [|by apply (ends_nonspace_app [LF])].
    destruct (Hhead []) as [? ?]. done.
  - change (LF :: b ++ blocks_text (b' :: bs))
      with ((LF :: b) ++ blocks_text (b' :: bs)).
    apply ends_nonspace_app; [done|]. by apply IH.
Qed.

Lemma app_snoc_suffix {A} (u v body : list A) c :
  body ++ [c] = u ++ v → v ≠ [] → ∃ v0, v = v0 ++ [c] ∧ body = u ++ v0.
Proof.
  intros Heq Hv. destruct v as [|a v0] using rev_ind; [done|].
  rewrite (assoc_L (++)) in Heq. apply app_inj_tail in Heq as [-> ->].
  by exists v0.
Qed.

Lemma replicate_spaces n : Forall (λ c, is_space c = true) (replicate n LF).
Proof. induction n; simpl; by constructor. Qed.

(** C10: [ensureFootnotesAtEnd] is idempotent: applied to its own
    result it changes nothing, so the second, defensive application at
    combination time leaves an already sanitised chunk as it is. *)
Theorem ensureFootnotesAtEnd_idempotent text :
  ensureFootnotesAtEnd (ensureFootnotesAtEnd text) = ensureFootnotesAtEnd text.
Proof.
  pose proof (matches_good text) as Hgood.
  pose proof (without_defs_no_block text) as Hnb.
  set (body := trimEnd (without_defs text)).
  destruct (matchesAll FOOTNOTE_DEF_BLOCK_RE text) as [|mt mts] eqn:Hms.
  - (* no definition block: the result is the trimmed text *)
    assert (ensureFootnotesAtEnd text = body) as ->.
    { unfold ensureFootnotesAtEnd. by rewrite Hms. }
    assert (no_block body) as Hbody.
    { intros u v Huv. destruct v as [|c v]; [done|].
      apply block_match_None. rewrite <- (app_nil_r (c :: v)).
      by apply (body_unmatched (without_defs text) u); [| | |left]. }
    unfold ensureFootnotesAtEnd.
    destruct (no_block_scan (λ _, [LF]) body Hbody) as [-> ->]. simpl.
    apply trimEnd_fixed, trimEnd_ends_nonspace.
  - (* blocks: body, blank line, blocks *)
    set (bs := clean_block <$> mt :: mts) in *.
    assert (Forall good_block bs ∧ Forall (λ b, b ≠ []) bs
            ∧ Forall (λ b, trimEnd b = b) bs) as (Hgb & Hne & Htrim).
    { unfold bs. rewrite !Forall_fmap.
      split_and!; eapply Forall_impl; try exact Hgood; simpl; naive_solver. }
    assert (filter (λ b, nonempty b = true) bs = bs) as Hfilter.
    { clear -Hne. induction Hne as [|b bs Hb Hbs IH]; [done|].
      rewrite filter_cons_True by by apply nonempty_true. by rewrite IH. }
    assert (bs ≠ []) as Hbs by done.
    assert (has_elements bs = true) as Hhas by (by destruct bs).
    destruct (blocks_text_ends_nonspace bs Hbs Hgb) as [Hbt Hend].
    assert (body ++ [LF; LF] ++ join [LF] bs
            = (body ++ [LF]) ++ blocks_text bs) as Hshape.
    { rewrite <- blocks_text_join by done. by rewrite <- (assoc_L (++)). }
    assert (ensureFootnotesAtEnd text = (body ++ [LF]) ++ blocks_text bs) as ->.
    { unfold ensureFootnotesAtEnd. rewrite Hms. fold bs. rewrite Hfilter, Hhas.
      simpl negb. cbv iota. fold body. rewrite Hshape.
      apply trimEnd_fixed. by apply ends_nonspace_app. }
    unfold ensureFootnotesAtEnd.
    destruct (scan_unmatched_prefix (λ _, [LF]) (body ++ [LF]) (blocks_text bs))
      as [Hw Hm].
    { intros u v Huv Hv.
      apply app_snoc_suffix in Huv as (v0 & -> & Hbody); [|done].
      destruct bs as [|b bs']; [done|]. rewrite blocks_text_cons.
      destruct v0 as [|c v0].
      - apply block_match_None, not_true_is_false.
        intros (r & [= <-] & [n Hn])%block_start_true.
        by apply re_def_head_bracket in Hn.
      - rewrite <- (assoc_L (++)).
        apply (body_unmatched (without_defs text) u); [done|done|done|].
        right. eauto. }
    destruct (scan_blocks (λ _, [LF]) bs) as [Hm2 Hw2].
    { eapply Forall_impl; [exact Hgb|]. by intros b [? ?]. }
    rewrite Hw, Hm, Hm2, Hw2, concat_const_LF.
    rewrite <- list_fmap_compose.
    assert ((clean_block ∘ (λ b, LF :: b)) <$> bs = bs) as ->.
    { clear -Htrim. induction Htrim as [|b bs Hb Hbs IH]; [done|].
      rewrite fmap_cons, IH. f_equal. done. }
    rewrite Hfilter, Hhas. simpl negb. cbv iota.
    rewrite <- (assoc_L (++) body).
    rewrite (trimEnd_app_spaces body)
      by (apply Forall_app; split; [by repeat constructor|apply replicate_spaces]).
    rewrite (trimEnd_fixed body) by apply trimEnd_ends_nonspace.
    rewrite Hshape.
    apply trimEnd_fixed. by apply ends_nonspace_app.
Qed.

(** ** Validator *)

(** *** Normalisation in one pass *)

Lemma re_spaces_nonspace c s : is_space c = false → re_spaces (c :: s) = None.
Proof. unfold re_spaces. simpl. by intros ->. Qed.

Lemma re_spaces_space c s :
  is_space c = true →
  re_spaces (c :: s) = Some (S (length (takeWhile is_space s))).
Proof. unfold re_spaces. simpl. by intros ->. Qed.

Lemma collapse_spaces_nonspace c s :
  is_space c = false → collapse_spaces (c :: s) = c :: collapse_spaces s.
Proof. intros Hc. by rewrite replaceAll_no_match by by apply re_spaces_nonspace. Qed.

Lemma collapse_spaces_space c s :
  is_space c = true →
  collapse_spaces (c :: s) = SPACE :: collapse_spaces (dropWhile is_space s).
Proof.
  intros Hc. rewrite (replaceAll_match _ _ _ _ _ (re_spaces_space c s Hc)) by lia.
  simpl. by rewrite drop_length_takeWhile.
Qed.

(** A run of white space in front of a text that does not begin with
    white space collapses to one blank. *)
Lemma collapse_spaces_run sp y :
  sp ≠ [] → Forall (λ c, is_space c = true) sp →
  match y with c :: _ => is_space c = false | [] => True end →
  collapse_spaces (sp ++ y) = SPACE :: collapse_spaces y.
Proof.
  intros Hne Hsp Hy. destruct Hsp as [|c sp Hc Hsp]; [done|].
  simpl app. rewrite collapse_spaces_space by done.
  f_equal. f_equal. destruct y as [|a y].
  - rewrite app_nil_r. by apply dropWhile_all.
  - by apply dropWhile_app_stop.
Qed.

Lemma dash_not_space d : is_dash d = true → is_space d = false.
Proof.
  unfold is_dash, EM_DASH, EN_DASH. intros [->%N.eqb_eq| ->%N.eqb_eq]%orb_true_iff; done.
Qed.

Lemma length_takeWhile_app_stop p sp c r :
  Forall (λ c, p c = true) sp → p c = false →
  takeWhile p (sp ++ c :: r) = sp ∧ drop (length sp) (sp ++ c :: r) = c :: r.
Proof.
  intros Hsp Hc. split; [by apply takeWhile_app_stop|by rewrite drop_app_length].
Qed.

Lemma re_dash_dash sp d r :
  Forall (λ c, is_space c = true) sp → is_dash d = true →
  re_dash (sp ++ d :: r)
  = Some (length sp + 1 + length (takeWhile is_space r)).
Proof.
  intros Hsp Hd. unfold re_dash.
  rewrite takeWhile_app_stop by (done || by apply dash_not_space).
  by rewrite drop_app_length, Hd.
Qed.

Lemma re_dash_other sp y :
  Forall (λ c, is_space c = true) sp →
  match y with
  | c :: _ => is_space c = false ∧ is_dash c = false
  | [] => True
  end →
  re_dash (sp ++ y) = None.
Proof.
  intros Hsp Hy. unfold re_dash. destruct y as [|c y].
  - rewrite app_nil_r, takeWhile_all, drop_all by done. done.
  - destruct Hy as [Hc Hd].
    rewrite takeWhile_app_stop by done. by rewrite drop_app_length, Hd.
Qed.

Lemma normalizeDashSpacing_dash sp d r :
  Forall (λ c, is_space c = true) sp → is_dash d = true →
  normalizeDashSpacing (sp ++ d :: r)
  = SPACE :: d :: SPACE :: normalizeDashSpacing (dropWhile is_space r).
Proof.
  intros Hsp Hd. unfold normalizeDashSpacing.
  pose proof (re_dash_dash sp d r Hsp Hd) as Hm.
  pose proof (dash_not_space d Hd) as Hds.
  assert (take (length sp + 1 + length (takeWhile is_space r)) (sp ++ d :: r)
          = sp ++ d :: takeWhile is_space r) as Htake.
  { rewrite <- Nat.add_assoc, take_app_add. f_equal. simpl. f_equal.
    rewrite <- (takeWhile_dropWhile is_space r) at 2.
    by rewrite take_app_length. }
  assert (drop (length sp + 1 + length (takeWhile is_space r)) (sp ++ d :: r)
          = dropWhile is_space r) as Hdrop.
  { rewrite <- Nat.add_assoc, drop_app_add. simpl.
    apply drop_length_takeWhile. }
  destruct sp as [|c sp]; simpl app in *.
  - rewrite (replaceAll_match _ _ _ _ _ Hm) by lia.
    rewrite Htake, Hdrop. unfold dash_replacement. simpl. by rewrite Hds.
  - rewrite (replaceAll_match _ _ _ _ _ Hm) by (simpl; lia).
    rewrite Htake, Hdrop. unfold dash_replacement.
    change (c :: sp ++ d :: takeWhile is_space r)
      with ((c :: sp) ++ d :: takeWhile is_space r).
    by rewrite dropWhile_app_stop.
Qed.

Lemma normalizeDashSpacing_dash0 d r :
  is_dash d = true →
  normalizeDashSpacing (d :: r)
  = SPACE :: d :: SPACE :: normalizeDashSpacing (dropWhile is_space r).
Proof. intros Hd. by apply (normalizeDashSpacing_dash [] d r). Qed.

Lemma normalizeDashSpacing_other c r :
  is_space c = false → is_dash c = false →
  normalizeDashSpacing (c :: r) = c :: normalizeDashSpacing r.
Proof.
  intros Hc Hd. unfold normalizeDashSpacing.
  rewrite replaceAll_no_match; [done|].
  by apply (re_dash_other [] (c :: r)).
Qed.

Lemma normalizeDashSpacing_spaces sp y :
  Forall (λ c, is_space c = true) sp →
  match y with
  | c :: _ => is_space c = false ∧ is_dash c = false
  | [] => True
  end →
  normalizeDashSpacing (sp ++ y) = sp ++ normalizeDashSpacing y.
Proof.
  intros Hsp Hy. induction Hsp as [|c sp Hc Hsp IH]; [done|].
  unfold normalizeDashSpacing in *. simpl app.
  rewrite replaceAll_no_match; [by rewrite IH|].
  apply (re_dash_other (c :: sp) y); [by constructor|done].
Qed.

Lemma collapse_go_spaces p sp r :
  sp ≠ [] → Forall (λ c, is_space c = true) sp →
  collapse_go p (sp ++ r) = collapse_go true r.
Proof.
  intros Hne Hsp. revert p. induction Hsp as [|c sp Hc Hsp IH]; intros p; [done|].
  simpl. rewrite Hc. destruct sp as [|c' sp]; [done|]. by apply IH.
Qed.

Lemma collapse_go_dash p d r :
  is_dash d = true → collapse_go p (d :: r) = SPACE :: d :: collapse_go true r.
Proof. intros Hd. simpl. by rewrite (dash_not_space d Hd), Hd. Qed.

Lemma collapse_go_other p c r :
  is_space c = false → is_dash c = false →
  collapse_go p (c :: r)
  = (if p then [SPACE] else []) ++ c :: collapse_go false r.
Proof. intros Hc Hd. simpl. by rewrite Hc, Hd. Qed.

(** Every text is a run of white space followed by nothing, by a dash,
    or by another character. *)
Lemma space_run_cases x :
  ∃ sp r, x = sp ++ r ∧ Forall (λ c, is_space c = true) sp
          ∧ match r with c :: _ => is_space c = false | [] => True end.
Proof.
  exists (takeWhile is_space x), (dropWhile is_space x). split_and!.
  - by rewrite takeWhile_dropWhile.
  - apply takeWhile_Forall.
  - pose proof (dropWhile_head is_space x) as H.
    by destruct (dropWhile is_space x).
Qed.

Lemma length_dropWhile_le p x : length (dropWhile p x) ≤ length x.
Proof.
  rewrite <- (takeWhile_dropWhile p x) at 2. rewrite length_app. lia.
Qed.

Lemma collapse_after_blank y :
  match y with c :: _ => is_space c = false | [] => True end →
  collapse_spaces (normalizeDashSpacing y) = collapse_go false y →
  collapse_spaces (SPACE :: normalizeDashSpacing y) = collapse_go true y.
Proof.
  intros Hy IH. rewrite collapse_spaces_space by done.
  destruct y as [|c y]; [done|].
  destruct (is_dash c) eqn:Hd.
  - rewrite normalizeDashSpacing_dash0 in * by done.
    rewrite collapse_spaces_space in IH by done.
    rewrite (collapse_go_dash true), <- (collapse_go_dash false) by done.
    by rewrite <- IH.
  - rewrite normalizeDashSpacing_other in * by done.
    simpl dropWhile. rewrite Hy.
    rewrite collapse_go_other by done. simpl. f_equal.
    rewrite IH. by rewrite collapse_go_other by done.
Qed.

Lemma normalize_collapse x :
  collapse_spaces (normalizeDashSpacing x) = collapse_go false x.
Proof.
  remember (length x) as k eqn:Hk. revert x Hk.
  induction k as [k IH] using lt_wf_ind. intros x Hk.
  destruct (space_run_cases x) as (sp & r & -> & Hsp & Hr).
  rewrite length_app in Hk.
  destruct r as [|c r].
  - (* white space only *)
    rewrite app_nil_r. destruct sp as [|c sp]; [done|].
    rewrite <- (app_nil_r (c :: sp)).
    rewrite (normalizeDashSpacing_spaces (c :: sp) []) by done.
    rewrite collapse_spaces_run by done.
    by rewrite collapse_go_spaces by done.
  - destruct (is_dash c) eqn:Hd.
    + (* a dash takes the white space around it *)
      rewrite normalizeDashSpacing_dash by done.
      rewrite collapse_spaces_space by done.
      simpl dropWhile. rewrite Hr.
      rewrite collapse_spaces_nonspace by done.
      assert (collapse_go false (sp ++ c :: r)
              = SPACE :: c :: collapse_go true (dropWhile is_space r)) as ->.
      { destruct sp as [|c' sp].
        - simpl app. rewrite collapse_go_dash by done. do 2 f_equal.
          rewrite <- (takeWhile_dropWhile is_space r) at 1.
          destruct (takeWhile is_space r) as [|a t] eqn:Ht; [done|].
          apply collapse_go_spaces; [done|]. rewrite <- Ht. apply takeWhile_Forall.
        - rewrite collapse_go_spaces by done.
          rewrite collapse_go_dash by done. do 2 f_equal.
          rewrite <- (takeWhile_dropWhile is_space r) at 1.
          destruct (takeWhile is_space r) as [|a t] eqn:Ht; [done|].
          apply collapse_go_spaces; [done|]. rewrite <- Ht. apply takeWhile_Forall. }
      do 2 f_equal. apply collapse_after_blank.
      * pose proof (dropWhile_head is_space r) as H.
        by destruct (dropWhile is_space r).
      * apply (IH (length (dropWhile is_space r))); [|done].
        pose proof (length_dropWhile_le is_space r). simpl in Hk. lia.
    + (* another character *)
      assert (collapse_spaces (normalizeDashSpacing (c :: r))
              = collapse_go false (c :: r)) as Hcr.
      { rewrite normalizeDashSpacing_other, collapse_spaces_nonspace by done.
        rewrite collapse_go_other by done. simpl. f_equal.
        apply (IH (length r)); [simpl in Hk; lia|done]. }
      destruct sp as [|c' sp]; [done|].
      rewrite normalizeDashSpacing_spaces by done.
      rewrite normalizeDashSpacing_other by done.
      rewrite collapse_spaces_run by done.
      rewrite collapse_go_spaces by done.
      rewrite <- normalizeDashSpacing_other by done.
      rewrite Hcr. by rewrite !collapse_go_other by done.
Qed.

Lemma normalize_one_pass x :
  normalizeWhitespace (normalizeDashSpacing x) = trim (collapse_go false x).
Proof. unfold normalizeWhitespace. by rewrite normalize_collapse. Qed.

(** *** White space around a text does not count *)

Lemma trimStart_app_keep x y :
  trimStart x ≠ [] → trimStart (x ++ y) = trimStart x ++ y.
Proof.
  unfold trimStart. induction x as [|c x IH]; simpl; [done|].
  destruct (is_space c); [done|]. done.
Qed.

Lemma trimEnd_trimStart a : trimEnd (trimStart a) = trimStart (trimEnd a).
Proof.
  destruct (trimEnd_split a) as (w & Ha & Hw).
  destruct (decide (trimStart (trimEnd a) = [])) as [Hnil|Hne].
  - rewrite Hnil. rewrite Ha.
    assert (Forall (λ c, is_space c = true) (trimEnd a)) as Hall.
    { rewrite <- (takeWhile_dropWhile is_space (trimEnd a)).
      unfold trimStart in Hnil. rewrite Hnil, app_nil_r. apply takeWhile_Forall. }
    unfold trimStart. rewrite dropWhile_all; [done|]. by apply Forall_app.
  - rewrite Ha at 1. rewrite trimStart_app_keep by done.
    rewrite trimEnd_app_spaces by done.
    apply trimEnd_fixed.
    pose proof (trimEnd_ends_nonspace a) as Hend.
    unfold ends_nonspace, trimStart in *.
    rewrite <- (takeWhile_dropWhile is_space (trimEnd a)) in Hend.
    destruct (dropWhile is_space (trimEnd a)) as [|c r] eqn:Hd; [done|].
    by rewrite last_app_cons in Hend.
Qed.

Lemma trimEnd_congr p a b : trimEnd a = trimEnd b → trimEnd (p ++ a) = trimEnd (p ++ b).
Proof.
  intros Hab.
  destruct (trimEnd_split a) as (wa & Ha & Hwa).
  destruct (trimEnd_split b) as (wb & Hb & Hwb).
  rewrite Ha, Hb, !(assoc_L (++)).
  rewrite (trimEnd_app_spaces _ wa), (trimEnd_app_spaces _ wb) by done.
  by rewrite Hab.
Qed.

Lemma collapse_go_trailing p x w :
  Forall (λ c, is_space c = true) w →
  trimEnd (collapse_go p (x ++ w)) = trimEnd (collapse_go p x).
Proof.
  intros Hw. revert p. induction x as [|c x IH]; intros p.
  - simpl app. transitivity (@nil N).
    + destruct w as [|a w]; [by destruct p|].
      rewrite <- (app_nil_r (a :: w)), collapse_go_spaces by done. done.
    + by destruct p.
  - simpl. destruct (is_space c); [apply IH|].
    destruct (is_dash c).
    + apply (trimEnd_congr [SPACE; c]), IH.
    + destruct p; [apply (trimEnd_congr [SPACE; c])|apply (trimEnd_congr [c])];
        apply IH.
Qed.

Lemma collapse_go_pending y :
  trimStart (collapse_go true y) = trimStart (collapse_go false y).
Proof.
  destruct y as [|c y]; [done|]. simpl.
  destruct (is_space c); [done|]. destruct (is_dash c); [done|]. done.
Qed.

Lemma trim_split x :
  ∃ l t, x = l ++ trim x ++ t
         ∧ Forall (λ c, is_space c = true) l
         ∧ Forall (λ c, is_space c = true) t.
Proof.
  destruct (trimEnd_split (trimStart x)) as (t & Ht & Hwt).
  exists (takeWhile is_space x), t. split_and!; [|apply takeWhile_Forall|done].
  unfold trim. rewrite <- Ht. unfold trimStart.
  by rewrite takeWhile_dropWhile.
Qed.

Lemma normalize_padding l x t :
  Forall (λ c, is_space c = true) l → Forall (λ c, is_space c = true) t →
  normalizeWhitespace (normalizeDashSpacing (l ++ x ++ t))
  = normalizeWhitespace (normalizeDashSpacing x).
Proof.
  intros Hl Ht. rewrite !normalize_one_pass.
  transitivity (trim (collapse_go false (x ++ t))).
  - destruct l as [|c l]; [done|].
    rewrite collapse_go_spaces by done.
    unfold trim. by rewrite collapse_go_pending.
  - unfold trim. rewrite !trimEnd_trimStart.
    by rewrite collapse_go_trailing.
Qed.

Lemma source_norm_padding src t :
  Forall (λ c, is_space c = true) t →
  normalizeWhitespace (normalizeDashSpacing (src ++ t)) = source_norm src.
Proof.
  intros Ht. unfold source_norm.
  destruct (trim_split src) as (l & t' & Hsrc & Hl & Ht').
  rewrite Hsrc at 1. rewrite <- !(assoc_L (++)).
  apply normalize_padding; [done|]. by apply Forall_app.
Qed.

(** *** Normalisation keeps the characters other than white space *)

Lemma visible_app x y : visible (x ++ y) = visible x ++ visible y.
Proof. unfold visible. apply filter_app. Qed.

Lemma visible_spaces w : Forall (λ c, is_space c = true) w → visible w = [].
Proof.
  intros Hw. unfold visible. induction Hw as [|c w Hc Hw IH]; [done|].
  rewrite filter_cons_False; [done|]. by rewrite Hc.
Qed.


Lemma visible_trim x : visible (trim x) = visible x.
Proof.
  destruct (trim_split x) as (l & t & Hx & Hl & Ht).
  rewrite Hx at 2. rewrite !visible_app, (visible_spaces l), (visible_spaces t) by done.
  by rewrite app_nil_r.
Qed.

Lemma visible_collapse_go p x : visible (collapse_go p x) = visible x.
Proof.
  revert p. induction x as [|c x IH]; intros p.
  - by destruct p.
  - simpl. destruct (is_space c) eqn:Hc.
    + rewrite IH. unfold visible. rewrite filter_cons_False; [done|]. by rewrite Hc.
    + destruct (is_dash c).
      * change (SPACE :: c :: collapse_go true x)
          with ([SPACE] ++ [c] ++ collapse_go true x).
        rewrite !visible_app, IH.
        change (c :: x) with ([c] ++ x). rewrite visible_app. done.
      * rewrite visible_app.
        change (c :: collapse_go false x) with ([c] ++ collapse_go false x).
        change (c :: x) with ([c] ++ x).
        rewrite !visible_app, IH. by destruct p.
Qed.

Lemma visible_normalize x :
  visible (normalizeWhitespace (normalizeDashSpacing x)) = visible x.
Proof. by rewrite normalize_one_pass, visible_trim, visible_collapse_go. Qed.

(** *** Stripping the markers of a marked text *)

Lemma marked_refl t : marked t t.
Proof. induction t; by constructor. Qed.

Lemma marked_app o b t : marked o b → marked (o ++ t) (b ++ t).
Proof.
  induction 1 as [|c o b H IH|d o b Hd H IH]; simpl.
  - apply marked_refl.
  - by constructor.
  - rewrite <- (assoc_L (++)). simpl. by constructor.
Qed.

(** A stretch without opening bracket at the head of the marked text is
    a stretch of the original. *)
Lemma marked_plain_prefix o b h r :
  marked o b → b = h ++ r → Forall (λ c, c ≠ LBRACKET) h →
  ∃ o', o = h ++ o'.
Proof.
  intros Hm. revert h r. induction Hm as [|c o b H IH|d o b Hd H IH]; intros h r Hb Hh.
  - destruct h; [by exists []|done].
  - destruct h as [|a h]; [by eexists|].
    injection Hb as -> Hb. inversion_clear Hh as [|?? Ha Hh'].
    destruct (IH h r Hb Hh') as [o' ->]. by exists o'.
  - destruct h as [|a h]; [by eexists|].
    injection Hb as <- _. by inversion_clear Hh.
Qed.

Lemma no_marker_cons c s : no_marker (c :: s) → marker_head (c :: s) = None ∧ no_marker s.
Proof.
  intros H. split; [by apply (H [])|]. intros u v ->. by apply (H (c :: u)).
Qed.

Lemma strip_refs_marked o b :
  marked o b → no_marker o → strip_refs b = o.
Proof.
  induction 1 as [|c o b H IH|d o b Hd H IH]; intros Ho.
  - done.
  - apply no_marker_cons in Ho as [Hc Ho].
    rewrite replaceAll_no_match; [by rewrite IH|].
    unfold FOOTNOTE_REF_RE.
    destruct (marker_head (c :: b)) as [n|] eqn:Hn; [|done]. exfalso.
    apply marker_head_spec in Hn as (d & r & [= -> ->] & Hd & _).
    destruct (marked_plain_prefix o _ (CARET :: d ++ [RBRACKET]) r H) as [o' ->].
    + simpl. by rewrite <- (assoc_L (++)).
    + constructor; [done|]. apply Forall_app. split; [|by repeat constructor].
      by apply no_bracket_digits.
    + assert (LBRACKET :: (CARET :: d ++ [RBRACKET]) ++ o'
              = LBRACKET :: CARET :: d ++ RBRACKET :: o') as Heq.
      { simpl. by rewrite <- (assoc_L (++)). }
      rewrite Heq in Hc. by rewrite marker_head_intro in Hc.
  - rewrite (replaceAll_match _ _ _ _ (3 + length d)); [|by apply marker_head_intro|lia].
    rewrite drop_marker. simpl. by apply IH.
Qed.

Lemma marker_head_local x y z n :
  marker_head (x ++ LF :: y) = Some n → marker_head (x ++ z) = Some n.
Proof.
  intros (d & r & Heq & Hd & ->)%marker_head_spec.
  assert (∃ x', x = LBRACKET :: CARET :: d ++ RBRACKET :: x') as [x' ->].
  { destruct x as [|a x]; [done|]. injection Heq as -> Heq.
    destruct x as [|a x]; [done|]. injection Heq as -> Heq.
    destruct Hd as [_ Hd]. revert x Heq.
    induction Hd as [|c d Hc Hd IH]; intros x Heq.
    - destruct x as [|a x]; [done|]. injection Heq as -> Heq. eauto.
    - destruct x as [|a x].
      + injection Heq as <- _. done.
      + injection Heq as -> Heq. destruct (IH x Heq) as [x' Hx'].
        exists x'. by injection Hx' as ->. }
  replace ((LBRACKET :: CARET :: d ++ RBRACKET :: x') ++ z)
    with (LBRACKET :: CARET :: d ++ RBRACKET :: (x' ++ z))
    by (simpl; by rewrite <- (assoc_L (++))).
  by apply marker_head_intro.
Qed.

Lemma no_marker_snoc_LF o : no_marker o → no_marker (o ++ [LF]).
Proof.
  intros Ho u v Huv. destruct v as [|a v]; [done|].
  apply app_snoc_suffix in Huv as (v0 & Hv & ->); [|done].
  rewrite Hv.
  destruct (marker_head (v0 ++ [LF])) as [n|] eqn:Hn; [|done].
  apply (marker_head_local v0 [] []) in Hn. rewrite app_nil_r in Hn.
  by rewrite (Ho u v0) in Hn.
Qed.

(** *** Stripping the appended definitions *)

Lemma block_rest_line content tail :
  Forall (λ c, is_line_terminator c = false) content →
  block_boundary tail →
  block_rest (content ++ tail) = length content.
Proof.
  intros Hc Htail. induction Hc as [|c content Hc Hcontent IH].
  - simpl. destruct Htail as [->|(t & -> & Ht)]; [done|].
    rewrite block_rest_cons. simpl. by rewrite (bool_decide_eq_true_2 _ Ht).
  - simpl app. rewrite block_rest_cons, Hc, IH. done.
Qed.

Lemma allowed_emoji_chars :
  Forall (λ e, Forall (λ c, is_line_terminator c = false) e
               ∧ match e with c :: _ => is_space c = false | [] => False end)
    ALLOWED_EMOJIS.
Proof. repeat constructor. Qed.

Lemma emoji_def_line_scannable l : emoji_def_line l → scannable_block l.
Proof.
  intros (d & sp & e & rest & -> & Hd & Hsp & He & Hrest).
  set (content := sp ++ e ++ rest).
  assert (Forall (λ c, is_line_terminator c = false) content) as Hcontent.
  { unfold content. rewrite !Forall_app. split_and!; [|  |done].
    - eapply Forall_impl; [exact Hsp|]. by intros c [_ ?].
    - pose proof allowed_emoji_chars as H. rewrite Forall_forall in H.
      by apply H. }
  assert (∀ z, re_def_head ((LBRACKET :: CARET :: d ++ RBRACKET :: COLON :: content) ++ z)
               = Some (S (3 + length d))) as Hhead.
  { intros z. simpl. rewrite <- (assoc_L (++)). simpl. by apply re_def_head_def. }
  split.
  - intros z. by rewrite Hhead.
  - intros tail Htail. unfold FOOTNOTE_DEF_BLOCK_RE. rewrite N.eqb_refl, Hhead.
    simpl app. rewrite <- (assoc_L (++)). simpl app. rewrite drop_def.
    rewrite block_rest_line by done.
    do 2 f_equal. simpl. rewrite !length_app. simpl. lia.
Qed.

Lemma digit_not_terminator c : is_digit c = true → is_line_terminator c = false.
Proof.
  unfold is_digit, is_line_terminator.
  intros [H1%N.leb_le H2%N.leb_le]%andb_true_iff.
  rewrite !orb_false_iff. repeat split; apply N.eqb_neq; lia.
Qed.

(** *** Lines *)

Lemma lines_nonempty s : lines s ≠ [].
Proof.
  unfold lines, split. generalize 0 as k.
  induction s as [|c s IH]; intros k; [by destruct k|].
  simpl. destruct k; [|apply IH].
  destruct (is_line_terminator c); [done|].
  specialize (IH 0). by destruct (split_go re_line_terminator 0 s).
Qed.

Lemma lines_cons_terminator c s :
  is_line_terminator c = true → lines (c :: s) = [] :: lines s.
Proof.
  intros Hc. unfold lines. rewrite (split_match _ _ _ 1); [done| |lia].
  unfold re_line_terminator. by rewrite Hc.
Qed.

Lemma lines_cons_other c s :
  is_line_terminator c = false →
  ∃ l ls, lines s = l :: ls ∧ lines (c :: s) = (c :: l) :: ls.
Proof.
  intros Hc. unfold lines. rewrite split_no_match.
  - pose proof (lines_nonempty s) as Hne. unfold lines in Hne.
    destruct (split re_line_terminator s) as [|l ls]; [done|]. eauto.
  - unfold re_line_terminator. by rewrite Hc.
Qed.

Lemma lines_app_terminator a c b :
  is_line_terminator c = true → lines (a ++ c :: b) = lines a ++ lines b.
Proof.
  intros Hc. induction a as [|x a IH].
  - simpl. by rewrite lines_cons_terminator.
  - simpl app. destruct (is_line_terminator x) eqn:Hx.
    + rewrite !lines_cons_terminator by done. by rewrite IH.
    + destruct (lines_cons_other x (a ++ c :: b) Hx) as (l & ls & Hl & ->).
      destruct (lines_cons_other x a Hx) as (l' & ls' & Hl' & ->).
      rewrite IH, Hl' in Hl. by injection Hl as <- <-.
Qed.

Lemma lines_single l :
  Forall (λ c, is_line_terminator c = false) l → lines l = [l].
Proof.
  induction 1 as [|c l Hc Hl IH]; [done|].
  destruct (lines_cons_other c l Hc) as (l' & ls & Hl' & ->).
  rewrite IH in Hl'. by injection Hl' as <- <-.
Qed.

Lemma lines_join defs :
  defs ≠ [] →
  Forall (Forall (λ c, is_line_terminator c = false)) defs →
  lines (join [LF] defs) = defs.
Proof.
  intros Hne Hdefs. induction Hdefs as [|l defs Hl Hdefs IH]; [done|].
  destruct defs as [|l' defs].
  - by apply lines_single.
  - rewrite join_cons by done.
    change (l ++ [LF] ++ join [LF] (l' :: defs))
      with (l ++ LF :: join [LF] (l' :: defs)).
    rewrite lines_app_terminator by done.
    by rewrite lines_single, IH.
Qed.

Lemma lines_head_cases s l ls :
  lines s = l :: ls →
  s = l ∨ ∃ c v, s = l ++ c :: v ∧ is_line_terminator c = true.
Proof.
  revert l ls. induction s as [|c s IH]; intros l ls.
  - intros [= <- _]. by left.
  - destruct (is_line_terminator c) eqn:Hc.
    + rewrite lines_cons_terminator by done. intros [= <- _]. right. by exists c, s.
    + destruct (lines_cons_other c s Hc) as (l0 & ls0 & Hl0 & ->).
      intros [= <- _]. destruct (IH _ _ Hl0) as [->|(c' & v & -> & Hc')].
      * by left.
      * right. by exists c', v.
Qed.

(** A definition head found before a line terminator lies before it. *)
Lemma re_def_head_before_terminator x c y z n :
  is_line_terminator c = true →
  re_def_head (x ++ c :: y) = Some n → re_def_head (x ++ z) = Some n.
Proof.
  intros Hc (d & r & Heq & Hd & ->)%re_def_head_spec.
  assert (∃ x', x = LBRACKET :: CARET :: d ++ RBRACKET :: COLON :: x')
    as [x' ->].
  { destruct x as [|a x]; [injection Heq as -> _; by vm_compute in Hc|].
    injection Heq as -> Heq.
    destruct x as [|a x]; [injection Heq as -> _; by vm_compute in Hc|].
    injection Heq as -> Heq.
    destruct Hd as [_ Hd]. revert x Heq.
    induction Hd as [|c' d Hc' Hd IH]; intros x Heq.
    - destruct x as [|a x]; [injection Heq as -> _; by vm_compute in Hc|].
      injection Heq as -> Heq.
      destruct x as [|a x]; [injection Heq as -> _; by vm_compute in Hc|].
      injection Heq as -> Heq. eauto.
    - destruct x as [|a x].
      + injection Heq as <- _. apply digit_not_terminator in Hc'. congruence.
      + injection Heq as -> Heq. destruct (IH x Heq) as [x' Hx'].
        exists x'. by injection Hx' as ->. }
  simpl. rewrite <- (assoc_L (++)). simpl. by rewrite re_def_head_def.
Qed.

Lemma no_def_line_unmatched body u v y :
  no_def_line body → body = u ++ v → v ≠ [] →
  (y = [] ∨ ∃ y', y = LF :: y') →
  FOOTNOTE_DEF_BLOCK_RE (v ++ y) = None.
Proof.
  intros Hbody -> Hv Hy. apply block_match_None, not_true_is_false.
  intros (r & Hr & [n Hn])%block_start_true.
  destruct v as [|c v]; [done|]. injection Hr as -> <-.
  unfold no_def_line in Hbody. rewrite lines_app_terminator in Hbody by done.
  apply Forall_app in Hbody as [_ Hlines].
  destruct (lines v) as [|l ls] eqn:Hl; [by apply lines_nonempty in Hl|].
  apply Forall_cons in Hlines as [Hl0 _].
  destruct (lines_head_cases _ _ _ Hl) as [->|(c & v' & -> & Hc)].
  - destruct Hy as [->|[y' ->]].
    + rewrite app_nil_r in Hn. congruence.
    + apply (re_def_head_local l y' []) in Hn. rewrite app_nil_r in Hn. congruence.
  - rewrite <- (assoc_L (++)) in Hn.
    apply (re_def_head_before_terminator l c (v' ++ y) []) in Hn; [|done].
    rewrite app_nil_r in Hn. congruence.
Qed.

Lemma strip_defs_candidate body defs :
  no_def_line body → Forall emoji_def_line defs →
  strip_defs (candidate body defs)
  = body ++ match defs with [] => [] | _ => [LF] end.
Proof.
  intros Hbody Hdefs. unfold candidate. destruct defs as [|l defs].
  - rewrite app_nil_r.
    destruct (scan_unmatched_prefix (λ _, []) body []) as [H _].
    + intros u v Huv Hv. by apply (no_def_line_unmatched body u); [| | |left].
    + rewrite app_nil_r in H. rewrite H. by rewrite app_nil_r.
  - set (bs := l :: defs) in *.
    assert (Forall scannable_block bs) as Hscan.
    { eapply Forall_impl; [exact Hdefs|]. apply emoji_def_line_scannable. }
    assert (body ++ [LF; LF] ++ join [LF] bs = (body ++ [LF]) ++ blocks_text bs) as ->.
    { rewrite <- blocks_text_join by done. by rewrite <- (assoc_L (++)). }
    destruct (scan_unmatched_prefix (λ _, []) (body ++ [LF]) (blocks_text bs)) as [-> _].
    { intros u v Huv Hv.
      apply app_snoc_suffix in Huv as (v0 & -> & Hb); [|done].
      unfold bs. rewrite blocks_text_cons.
      destruct v0 as [|c v0].
      - apply block_match_None, not_true_is_false.
        intros (r & [= <-] & [n Hn])%block_start_true.
        by apply re_def_head_bracket in Hn.
      - rewrite <- (assoc_L (++)).
        apply (no_def_line_unmatched body u); [done|done|done|].
        right. eauto. }
    destruct (scan_blocks (λ _, []) bs Hscan) as [_ ->].
    assert (concat ((λ _ : jsstring, @nil N) <$> bs) = []) as ->.
    { clear. induction bs as [|b bs IH]; [done|]. by rewrite fmap_cons. }
    by rewrite app_nil_r.
Qed.

Lemma strip_footnotes_candidate orig body defs :
  no_marker orig → marked orig body → no_def_line body →
  Forall emoji_def_line defs →
  strip_footnotes (candidate body defs)
  = orig ++ match defs with [] => [] | _ => [LF] end.
Proof.
  intros Horig Hmarked Hbody Hdefs. unfold strip_footnotes.
  rewrite strip_defs_candidate by done.
  destruct defs as [|l defs].
  - rewrite !app_nil_r. by apply strip_refs_marked.
  - apply strip_refs_marked; [by apply marked_app|by apply no_marker_snoc_LF].
Qed.

Lemma body_norm_candidate orig body defs :
  no_marker orig → marked orig body → no_def_line body →
  Forall emoji_def_line defs →
  body_norm (candidate body defs) = source_norm orig.
Proof.
  intros. unfold body_norm. rewrite (strip_footnotes_candidate orig) by done.
  apply source_norm_padding. destruct defs; by repeat constructor.
Qed.

(** *** The emoji check, line by line *)

Lemma validateFootnoteEmojis_eq text :
  validateFootnoteEmojis text
  = forallb emoji_check (omap def_line_content (lines text)).
Proof. done. Qed.

Lemma omap_cons_eq {A B} (f : A → option B) x l :
  omap f (x :: l) = match f x with Some y => y :: omap f l | None => omap f l end.
Proof. done. Qed.

Lemma validateFootnoteEmojis_true text :
  (∀ l g, l ∈ lines text → def_line_content l = Some g → emoji_check g = true) →
  validateFootnoteEmojis text = true.
Proof.
  rewrite validateFootnoteEmojis_eq. generalize (lines text) as ls.
  induction ls as [|l ls IH]; intros H; [done|].
  rewrite omap_cons_eq.
  assert (forallb emoji_check (omap def_line_content ls) = true) as Hls.
  { apply IH. intros l' g' Hl'. apply H. by right. }
  destruct (def_line_content l) as [g|] eqn:Hg; [|done].
  cbn [forallb]. rewrite Hls, (H l g); [done|by left|done].
Qed.


Lemma startsWith_app e rest : startsWith (e ++ rest) e = true.
Proof. apply startsWith_spec. by exists rest. Qed.

Lemma emoji_def_line_check l :
  emoji_def_line l → ∃ g, def_line_content l = Some g ∧ emoji_check g = true.
Proof.
  intros (d & sp & e & rest & -> & Hd & Hsp & He & Hrest).
  exists (sp ++ e ++ rest). split.
  - unfold def_line_content. rewrite re_def_head_def by done. by rewrite drop_def.
  - unfold emoji_check.
    pose proof allowed_emoji_chars as Hall. rewrite Forall_forall in Hall.
    destruct (Hall e He) as [_ Hfirst].
    destruct e as [|c e]; [done|].
    assert (trimStart (sp ++ (c :: e) ++ rest) = (c :: e) ++ rest) as H.
    { unfold trimStart. simpl app. apply dropWhile_app_stop; [|done].
      eapply Forall_impl; [exact Hsp|]. by intros a [? _]. }
    cbv zeta. rewrite H. apply andb_true_intro. split; [done|].
    apply existsb_exists. exists (c :: e). split.
    + by apply list_elem_of_In.
    + apply startsWith_app.
Qed.

Lemma emoji_def_line_no_terminator l :
  emoji_def_line l → Forall (λ c, is_line_terminator c = false) l.
Proof.
  intros (d & sp & e & rest & -> & [_ Hd] & Hsp & He & Hrest).
  pose proof allowed_emoji_chars as Hall. rewrite Forall_forall in Hall.
  destruct (Hall e He) as [Hechars _].
  repeat (apply Forall_cons; split; [done|]).
  rewrite Forall_app. split.
  { eapply Forall_impl; [exact Hd|]. apply digit_not_terminator. }
  repeat (apply Forall_cons; split; [done|]).
  rewrite !Forall_app. split_and!; [|done|done].
  eapply Forall_impl; [exact Hsp|]. by intros c [_ ?].
Qed.


Lemma validateFootnoteEmojis_candidate body defs :
  no_def_line body → Forall emoji_def_line defs →
  validateFootnoteEmojis (candidate body defs) = true.
Proof.
  intros Hbody Hdefs.
  assert (∀ l g, l ∈ lines body → def_line_content l = Some g → False) as Hlines.
  { intros l g Hl Hg. unfold no_def_line in Hbody. rewrite Forall_forall in Hbody.
    unfold def_line_content in Hg. by rewrite (Hbody l Hl) in Hg. }
  apply validateFootnoteEmojis_true. intros l g Hl Hg.
  unfold candidate in Hl. destruct defs as [|l0 defs].
  - by destruct (Hlines l g).
  - set (bs := l0 :: defs) in *.
    change (body ++ [LF; LF] ++ join [LF] bs)
      with (body ++ LF :: ([] ++ LF :: join [LF] bs)) in Hl.
    rewrite !lines_app_terminator in Hl by done.
    rewrite lines_join in Hl;
      [|done|by eapply Forall_impl; [exact Hdefs|apply emoji_def_line_no_terminator]].
    rewrite !elem_of_app in Hl. destruct Hl as [Hl|[Hl|Hl]].
    + by destruct (Hlines l g).
    + apply list_elem_of_singleton in Hl as ->. done.
    + rewrite Forall_forall in Hdefs.
      destruct (emoji_def_line_check l (Hdefs l Hl)) as (g' & Hg' & Hcheck).
      congruence.
Qed.

(** *** Trailing definitions *)











(** *** A text with markers and white space inserted *)


















(** *** The candidate with trailing definitions *)
















(** *** Acceptance and rejection *)

Lemma no_marker_check_sound s : no_marker_check s = true → no_marker s.
Proof.
  induction s as [|c s IH]; intros H u v Huv.
  - symmetry in Huv. by apply app_eq_nil in Huv as [_ ->].
  - change (no_marker_check (c :: s))
      with (match marker_head (c :: s) with
            | Some _ => false
            | None => no_marker_check s
            end) in H.
    destruct (marker_head (c :: s)) eqn:Hm; [done|].
    destruct u as [|a u].
    + simpl in Huv. by subst v.
    + injection Huv as _ Huv. by apply (IH H u).
Qed.

Lemma marked_ins1 c o b :
  is_digit c = true → marked o b →
  marked o (LBRACKET :: CARET :: c :: RBRACKET :: b).
Proof.
  intros Hc Hm. apply (marked_ins [c]); [|done].
  split; [done|by constructor].
Qed.

Lemma includes_visible s x :
  includes s x = true → length (visible x) ≤ length (visible s).
Proof.
  rewrite includes_spec. intros (a & b & ->).
  rewrite !visible_app, !length_app. lia.
Qed.

Lemma visible_source_norm x : visible (source_norm x) = visible x.
Proof. unfold source_norm. by rewrite visible_normalize, visible_trim. Qed.




Ltac solve_marked :=
  vm_compute;
  repeat first
    [ apply marked_nil
    | apply marked_chr
    | apply marked_ins1; [reflexivity|] ].

Ltac solve_emoji_def_line d sp e rest :=
  exists d, sp, e, rest;
  split; [reflexivity|];
  split; [split; [discriminate|repeat constructor]|];
  split; [repeat constructor|];
  split; [vm_compute; repeat constructor|];
  vm_compute; repeat constructor.






(** * Further properties *)

(** ** The token cache is a bounded LRU list *)

Lemma JSMap_get_None {V} k (m : list (jsstring * V)) :
  JSMap.get k m = None ↔ k ∉ m.*1.
Proof.
  induction m as [|[k' v'] m IH]; simpl.
  - split; [intros _ ?%elem_of_nil; done|done].
  - rewrite not_elem_of_cons. destruct (decide (k' = k)) as [->|Hne].
    + split; [done|]. by intros [? _].
    + rewrite IH. naive_solver.
Qed.

Lemma JSMap_set_absent {V} k (v : V) m :
  JSMap.get k m = None → JSMap.set k v m = m ++ [(k, v)].
Proof.
  induction m as [|[k' v'] m IH]; simpl; [done|].
  destruct (decide (k' = k)); [done|]. intros H. by rewrite IH.
Qed.

Lemma JSMap_delete_keys {V} k (m : list (jsstring * V)) :
  (JSMap.delete k m).*1 ⊆+ m.*1.
Proof.
  induction m as [|[k' v'] m IH]; simpl; [done|].
  destruct (decide (k' = k)).
  - by apply submseteq_cons.
  - simpl. by apply submseteq_skip.
Qed.

Lemma JSMap_delete_NoDup {V} k (m : list (jsstring * V)) :
  NoDup m.*1 → NoDup (JSMap.delete k m).*1 ∧ k ∉ (JSMap.delete k m).*1.
Proof.
  induction m as [|[k' v'] m IH]; simpl.
  - intros _. split; [constructor|apply not_elem_of_nil].
  - intros [Hk' Hm]%NoDup_cons. destruct (decide (k' = k)) as [->|Hne].
    + done.
    + destruct (IH Hm) as [Hnd Hk]. simpl. split.
      * constructor; [|done]. intros Hin. apply Hk'.
        by eapply elem_of_submseteq; [|apply JSMap_delete_keys].
      * rewrite not_elem_of_cons. auto.
Qed.

Lemma JSMap_delete_length {V} k (v : V) m :
  JSMap.get k m = Some v → S (length (JSMap.delete k m)) = length m.
Proof.
  induction m as [|[k' v'] m IH]; simpl; [done|].
  destruct (decide (k' = k)); [done|]. intros H. simpl. by rewrite IH.
Qed.

Lemma JSMap_delete_absent {V} k (m : list (jsstring * V)) :
  JSMap.get k m = None → JSMap.delete k m = m.
Proof.
  induction m as [|[k' v'] m IH]; simpl; [done|].
  destruct (decide (k' = k)); [done|]. intros H. by rewrite IH.
Qed.

Lemma JSMap_delete_first {V} (m : list (jsstring * V)) k :
  JSMap.first_key m = Some k → JSMap.delete k m = drop 1 m.
Proof.
  destruct m as [|[k' v'] m]; [done|]. simpl. intros [= ->].
  by rewrite decide_True.
Qed.

(** The cache after one call, written as a list operation. *)
Lemma countTokens_cache env text model c :
  cache_lru_inv env c →
  let key := cache_key model text in
  let c' := JSMap.delete key c ++ [(key, (countTokens env text model c).1)] in
  (countTokens env text model c).2
  = (if (TOKEN_COUNT_CACHE_SIZE env <? Z.of_nat (length c'))%Z
     then drop 1 c' else c').
Proof.
  intros [Hnd Hlen]. cbv zeta. unfold countTokens.
  destruct (JSMap.get _ c) as [value|] eqn:Hget; simpl.
  - destruct (JSMap_delete_NoDup (cache_key model text) c Hnd) as [_ Hk].
    apply JSMap_get_None in Hk. rewrite JSMap_set_absent by done.
    apply JSMap_delete_length in Hget.
    rewrite length_app. simpl.
    destruct (_ <? _)%Z eqn:Hlt; [|done].
    apply Z.ltb_lt in Hlt. lia.
  - rewrite JSMap_set_absent, JSMap_delete_absent by done.
    destruct (_ <? _)%Z eqn:Hlt; [|done].
    destruct (JSMap.first_key _) as [k|] eqn:Hfirst.
    + by apply JSMap_delete_first.
    + by destruct c.
Qed.

Lemma countTokens_lru_inv env text model c :
  cache_lru_inv env c → cache_lru_inv env (countTokens env text model c).2.
Proof.
  intros Hinv. pose proof (countTokens_cache env text model c Hinv) as Heq.
  cbv zeta in Heq. rewrite Heq. clear Heq. destruct Hinv as [Hnd Hlen].
  set (key := cache_key model text).
  set (v := (countTokens env text model c).1).
  destruct (JSMap_delete_NoDup key c Hnd) as [Hnd' Hk].
  assert (NoDup (JSMap.delete key c ++ [(key, v)]).*1) as Hnd''.
  { rewrite fmap_app. apply NoDup_app. split_and!; [done| |apply NoDup_singleton].
    intros x Hx ->%list_elem_of_singleton. done. }
  assert (length (JSMap.delete key c) ≤ length c) as Hle.
  { rewrite <- !(length_fmap fst). apply submseteq_length, JSMap_delete_keys. }
  destruct (_ <? _)%Z eqn:Hlt.
  - split.
    + rewrite fmap_drop. eapply sublist_NoDup; [exact Hnd''|apply sublist_drop].
    + rewrite length_drop, length_app. simpl. lia.
  - apply Z.ltb_ge in Hlt. split; [done|]. lia.
Qed.

Lemma cache_after_lru_inv env model prior :
  cache_lru_inv env (cache_after env model prior).
Proof.
  unfold cache_after.
  assert (∀ c, cache_lru_inv env c →
     cache_lru_inv env
       (foldl (λ c text, (countTokens env text model c).2) c prior)) as H.
  { induction prior as [|t prior IH]; intros c Hc; simpl; [done|].
    apply IH. by apply countTokens_lru_inv. }
  apply H. split; [constructor|simpl; lia].
Qed.

(** X1: after any run of [countTokens] calls the cache holds pairwise
    different keys and at most [TOKEN_COUNT_CACHE_SIZE] entries (none
    when that size is not positive). *)
Theorem tokenCountCache_bounded env model prior :
  NoDup (cache_after env model prior).*1
  ∧ (Z.of_nat (length (cache_after env model prior))
     ≤ Z.max 0 (TOKEN_COUNT_CACHE_SIZE env))%Z.
Proof. apply cache_after_lru_inv. Qed.

(** X2: a call of [countTokens] makes its key the most recent entry of
    the cache, keeps the order of the other entries, and, when the cache
    grows beyond [TOKEN_COUNT_CACHE_SIZE], evicts exactly the least
    recently used entry, the first of the list. *)
Theorem countTokens_moves_to_back_evicts_oldest env model prior text :
  let c := cache_after env model prior in
  let key := cache_key model text in
  let c' := JSMap.delete key c ++ [(key, approximateTokenCount env text)] in
  (countTokens env text model c).2
  = (if (TOKEN_COUNT_CACHE_SIZE env <? Z.of_nat (length c'))%Z
     then drop 1 c' else c').
Proof.
  intros c key c'. unfold c', key.
  pose proof (countTokens_cache env text model c (cache_after_lru_inv _ _ _)) as H.
  cbv zeta in H. rewrite H.
  by destruct (countTokens_consistent env model text c (cache_after_consistent _ _ _))
    as [-> _].
Qed.

(** ** The chunker packs greedily *)

Lemma split_go_nonempty m k s : split_go m k s ≠ [].
Proof.
  revert k. induction s as [|c s IH]; intros k; [done|].
  simpl. destruct k; [|apply IH].
  destruct (m (c :: s)); [done|].
  specialize (IH 0). by destruct (split_go m 0 s).
Qed.

Lemma approximateTokenCount_nonneg env text :
  (0 ≤ approximateTokenCount env text)%Z.
Proof.
  pose proof (approximateTokenCount_blank env text) as H.
  destruct (nonempty (trim text)); lia.
Qed.

Lemma group_cost_nonneg env g : (0 ≤ group_cost env g)%Z.
Proof.
  induction g as [|p g IH]; simpl; [done|].
  pose proof (approximateTokenCount_nonneg env p). lia.
Qed.

Lemma group_cost_app env g1 g2 :
  group_cost env (g1 ++ g2) = (group_cost env g1 + group_cost env g2)%Z.
Proof. induction g1 as [|p g1 IH]; simpl; [done|]. rewrite IH. lia. Qed.

Lemma greedy_inv_close env budget gs g p :
  greedy_inv env budget (gs ++ [g]) →
  (budget < group_cost env g + approximateTokenCount env p)%Z →
  greedy_inv env budget ((gs ++ [g]) ++ [[p]]).
Proof.
  intros H Hlt i a b q Ha Hb Hq.
  destruct (decide (S i < length (gs ++ [g]))) as [Hi|Hi].
  - rewrite lookup_app_l in Ha by lia. rewrite lookup_app_l in Hb by done.
    by eapply H.
  - rewrite lookup_app_r in Hb by lia.
    apply list_lookup_singleton_Some in Hb as [Hidx <-].
    injection Hq as <-.
    assert (i = length gs) as -> by (rewrite length_app in *; simpl in *; lia).
    rewrite lookup_app_l in Ha by (rewrite length_app; simpl; lia).
    rewrite list_lookup_middle in Ha by done. by injection Ha as <-.
Qed.

Lemma greedy_inv_extend env budget gs g p :
  g ≠ [] →
  greedy_inv env budget (gs ++ [g]) →
  greedy_inv env budget (gs ++ [g ++ [p]]).
Proof.
  intros Hg H i a b q Ha Hb Hq.
  destruct (decide (S i < length gs)) as [Hi|Hi].
  - rewrite lookup_app_l in Ha by lia. rewrite lookup_app_l in Hb by done.
    apply (H i a b q); [by rewrite lookup_app_l by lia|by rewrite lookup_app_l|done].
  - rewrite lookup_app_r in Hb by lia.
    apply list_lookup_singleton_Some in Hb as [Hidx <-].
    assert (S i = length gs) as Hlen by lia.
    rewrite lookup_app_l in Ha by lia.
    apply (H i a g q); [by rewrite lookup_app_l by lia| |].
    + rewrite Hlen. by apply list_lookup_middle.
    + destruct g; [done|]. done.
Qed.

Lemma chunker_step_greedy env model maxTokens done_ st p :
  chunker_inv env model (effectiveMax env maxTokens) done_ st →
  greedy_inv env (effectiveMax env maxTokens) (chunks st ++ [current st]) →
  (current st = [] → chunks st = []) →
  let st' := chunker_step env maxTokens model st p in
  greedy_inv env (effectiveMax env maxTokens) (chunks st' ++ [current st'])
  ∧ current st' ≠ [].
Proof.
  intros (Hc & _ & Htok & _) Hgreedy Hempty. cbv zeta.
  unfold chunker_step.
  destruct (countTokens_consistent env model p _ Hc) as [Hval _].
  destruct (countTokens env p model (cache st)) as [tokens cache'].
  simpl in Hval. subst tokens.
  destruct (current st) as [|q cur] eqn:Hcurrent; simpl has_elements; cbv iota.
  - simpl. rewrite Hempty by done. split; [|done].
    intros i a b r Ha Hb. destruct i; done.
  - destruct (effectiveMax env maxTokens <? _)%Z eqn:Hlt; simpl.
    + apply Z.ltb_lt in Hlt. split; [|done].
      apply greedy_inv_close; [done|]. by rewrite <- Htok.
    + split; [|done].
      by apply (greedy_inv_extend _ _ _ (q :: cur) p).
Qed.

Lemma chunker_loop_greedy env model maxTokens ps done_ st :
  chunker_inv env model (effectiveMax env maxTokens) done_ st →
  greedy_inv env (effectiveMax env maxTokens) (chunks st ++ [current st]) →
  (current st = [] → chunks st = []) →
  let st' := foldl (chunker_step env maxTokens model) st ps in
  greedy_inv env (effectiveMax env maxTokens) (chunks st' ++ [current st'])
  ∧ (current st' = [] → chunks st' = []).
Proof.
  revert done_ st. induction ps as [|p ps IH]; intros done_ st Hinv Hg He; simpl.
  - done.
  - destruct (chunker_step_greedy env model maxTokens done_ st p Hinv Hg He)
      as [Hg' Hne].
    apply (IH (done_ ++ [p])); [by apply chunker_step_inv|done|done].
Qed.

(** X3: the chunker closes a chunk only when the next paragraph does
    not fit: the estimated cost of a chunk together with the first
    paragraph of the chunk behind it exceeds the effective budget. *)
Theorem chunks_are_packed_greedily env model prior text maxTokens i g g' p :
  let groups :=
    (tokenChunkGroups env text maxTokens model (cache_after env model prior)).1 in
  groups !! i = Some g → groups !! S i = Some g' → head g' = Some p →
  (effectiveMax env maxTokens
   < group_cost env g + approximateTokenCount env p)%Z.
Proof.
  cbv zeta. unfold tokenChunkGroups. simpl.
  set (st0 := {| chunks := []; current := []; currentTokens := 0;
                 cache := cache_after env model prior |}).
  assert (chunker_inv env model (effectiveMax env maxTokens) [] st0) as H0.
  { repeat split; simpl; try done; [apply cache_after_consistent|lia]. }
  destruct (chunker_loop_greedy env model maxTokens
              (split re_blank_line (trim text)) [] st0 H0) as [Hg He].
  { intros j a b r Ha Hb. destruct j; done. }
  { done. }
  cbv zeta in Hg, He.
  destruct (current _) as [|q cur] eqn:Hcurrent; simpl.
  - rewrite He by done. done.
  - apply Hg.
Qed.

Lemma chunks_are_packed_greedily_witness :
  (effectiveMax small_env 0
   < group_cost small_env [str "one two"]
     + approximateTokenCount small_env (str "three four"))%Z.
Proof.
  apply (chunks_are_packed_greedily small_env (MODEL_NAME small_env) []
           three_paragraphs 0 0 [str "one two"] [str "three four"]
           (str "three four")); reflexivity.
Defined.

Lemma chunker_loop_fits env model maxTokens ps done_ st :
  chunker_inv env model (effectiveMax env maxTokens) done_ st →
  chunks st = [] →
  (group_cost env (current st) + group_cost env ps
   ≤ effectiveMax env maxTokens)%Z →
  let st' := foldl (chunker_step env maxTokens model) st ps in
  chunks st' = [] ∧ current st' = current st ++ ps.
Proof.
  revert done_ st. induction ps as [|p ps IH]; intros done_ st Hinv Hch Hfit; simpl.
  - by rewrite app_nil_r.
  - pose proof (chunker_step_inv env model maxTokens done_ st p Hinv) as Hinv'.
    destruct Hinv as (Hc & _ & Htok & _).
    assert (chunks (chunker_step env maxTokens model st p) = []
            ∧ current (chunker_step env maxTokens model st p) = current st ++ [p])
      as [Hch' Hcur'].
    { unfold chunker_step.
      destruct (countTokens_consistent env model p _ Hc) as [Hval _].
      destruct (countTokens env p model (cache st)) as [tokens cache'].
      simpl in Hval. subst tokens.
      destruct (current st) as [|q cur] eqn:Hcurrent; simpl has_elements; cbv iota.
      - done.
      - simpl in Hfit. pose proof (group_cost_nonneg env ps).
        destruct (effectiveMax env maxTokens <? _)%Z eqn:Hlt; simpl; [|done].
        apply Z.ltb_lt in Hlt. rewrite Htok in Hlt. simpl in Hlt. lia. }
    destruct (IH _ _ Hinv' Hch') as [Hch'' Hcur''].
    { rewrite Hcur', group_cost_app. simpl in *. lia. }
    cbv zeta in Hch'', Hcur''. split; [done|].
    by rewrite Hcur'', Hcur', <- (assoc_L (++)).
Qed.

(** X4: when the estimated cost of all paragraphs together is within
    the effective budget, the chunker returns the whole text as one
    chunk: its paragraphs joined by blank lines. *)
Theorem text_within_budget_is_one_chunk env model prior text maxTokens :
  (group_cost env (split re_blank_line (trim text))
   ≤ effectiveMax env maxTokens)%Z →
  (splitIntoTokenChunks env text maxTokens model (cache_after env model prior)).1
  = [join [LF; LF] (split re_blank_line (trim text))].
Proof.
  intros Hfit. unfold splitIntoTokenChunks, tokenChunkGroups.
  set (st0 := {| chunks := []; current := []; currentTokens := 0;
                 cache := cache_after env model prior |}).
  assert (chunker_inv env model (effectiveMax env maxTokens) [] st0) as H0.
  { repeat split; simpl; try done; [apply cache_after_consistent|lia]. }
  destruct (chunker_loop_fits env model maxTokens
              (split re_blank_line (trim text)) [] st0 H0) as [Hch Hcur];
    [done|simpl; lia|].
  cbv zeta in Hch, Hcur. simpl in Hcur.
  pose proof (split_go_nonempty re_blank_line 0 (trim text)) as Hne.
  fold (split re_blank_line (trim text)) in Hne.
  rewrite Hch, Hcur.
  by destruct (split re_blank_line (trim text)).
Qed.

Lemma text_within_budget_is_one_chunk_witness :
  (splitIntoTokenChunks small_env three_paragraphs 100
     (MODEL_NAME small_env) []).1
  = [three_paragraphs].
Proof.
  apply (text_within_budget_is_one_chunk small_env (MODEL_NAME small_env) []
           three_paragraphs 100).
  vm_compute. discriminate.
Defined.

(** X5: the chunker never returns an empty list, and for a text of
    white space only it returns the single empty chunk. *)
Theorem blank_text_is_one_empty_chunk env model prior text maxTokens :
  (splitIntoTokenChunks env text maxTokens model (cache_after env model prior)).1
  ≠ []
  ∧ (trim text = [] →
     (splitIntoTokenChunks env text maxTokens model
        (cache_after env model prior)).1 = [[]]).
Proof.
  split.
  - unfold splitIntoTokenChunks.
    destruct (tokenChunkGroups_spec env model maxTokens text
                (cache_after env model prior)) as (_ & _ & Hconcat).
    { apply cache_after_consistent. }
    destruct (tokenChunkGroups _ _ _ _ _) as [groups c']. simpl in *.
    destruct groups; [|done]. simpl in Hconcat.
    symmetry in Hconcat. by apply split_go_nonempty in Hconcat.
  - intros Hblank. unfold splitIntoTokenChunks, tokenChunkGroups.
    rewrite Hblank. simpl. unfold chunker_step.
    by destruct (countTokens _ _ _ _).
Qed.

Lemma blank_text_is_one_empty_chunk_witness :
  (splitIntoTokenChunks small_env [SPACE; LF; LF; SPACE] 100
     (MODEL_NAME small_env) []).1 = [[]].
Proof.
  apply (blank_text_is_one_empty_chunk small_env (MODEL_NAME small_env) []
           [SPACE; LF; LF; SPACE] 100).
  reflexivity.
Defined.

(** ** Bounds of the estimate *)

Lemma count_code_points_le p hi s :
  count_code_points p hi s
  ≤ length s + match hi with Some _ => 1 | None => 0 end.
Proof.
  revert hi. induction s as [|c s IH]; intros hi.
  - destruct hi as [h|]; simpl; [destruct (p h)|]; simpl; lia.
  - simpl. destruct hi as [h|].
    + destruct (is_low_surrogate c).
      * specialize (IH None). destruct (p (surrogate_pair h c)); simpl in *; lia.
      * destruct (is_high_surrogate c).
        -- specialize (IH (Some c)). destruct (p h); simpl in *; lia.
        -- specialize (IH None). destruct (p h), (p c); simpl in *; lia.
    + destruct (is_high_surrogate c).
      * specialize (IH (Some c)). simpl in *. lia.
      * specialize (IH None). destruct (p c); simpl in *; lia.
Qed.

Lemma split_go_length m k s : length (concat (split_go m k s)) ≤ length s.
Proof.
  revert k. induction s as [|c s IH]; intros k; [done|].
  simpl. destruct k as [|k].
  - destruct (m (c :: s)) as [len|].
    + simpl. specialize (IH (len - 1)). lia.
    + specialize (IH 0). destruct (split_go m 0 s) as [|p ps]; simpl in *; lia.
  - specialize (IH k). lia.
Qed.

Lemma nonempty_pieces_le (l : list jsstring) :
  length (filter (λ w, nonempty w = true) l) ≤ length (concat l).
Proof.
  induction l as [|w l IH]; [done|]. simpl. rewrite length_app.
  destruct w as [|c w].
  - rewrite filter_cons_False by done. simpl. lia.
  - rewrite filter_cons_True by done. simpl. lia.
Qed.

Lemma length_trim x : length (trim x) ≤ length x.
Proof.
  destruct (trim_split x) as (l & t & Hx & _ & _). rewrite Hx at 2.
  rewrite !length_app. lia.
Qed.

(** X23: the estimate of [approximateTokenCount] never exceeds the
    number of code units of the text, and for a text that is not blank
    it is at least about an eighth of that number: [length <= 8 *
    estimate + 1]. *)
Theorem approximateTokenCount_bounds env text :
  (approximateTokenCount env text ≤ Z.of_nat (length text))%Z
  ∧ (trim text ≠ [] →
     (Z.of_nat (length text) ≤ 8 * approximateTokenCount env text + 1)%Z).
Proof.
  unfold approximateTokenCount.
  destruct text as [|c text]; [done|].
  pose proof (length_trim (c :: text)) as Htrim.
  destruct (trim (c :: text)) as [|a trimmed] eqn:Ht.
  { split; [simpl; lia|done]. }
  cbv zeta.
  pose proof (nonempty_pieces_le (split re_spaces (a :: trimmed))) as Hw.
  pose proof (split_go_length re_spaces 0 (a :: trimmed)) as Hs.
  fold (split re_spaces (a :: trimmed)) in Hs.
  pose proof (count_code_points_le (unicode_P_or_S env) None (c :: text)) as Hp.
  set (w := length (filter _ _)) in *.
  set (p := count_code_points _ _ _) in *.
  set (n := length (c :: text)) in *.
  assert (1 ≤ n) as Hn by (unfold n; simpl; lia).
  change (p ≤ n + 0) in Hp.
  set (k := length (a :: trimmed)) in *. clearbody w p n k.
  split; [|intros _]; Z.div_mod_to_equations; lia.
Qed.

Lemma approximateTokenCount_bounds_witness :
  (Z.of_nat (length three_paragraphs)
   ≤ 8 * approximateTokenCount small_env three_paragraphs + 1)%Z.
Proof.
  apply (approximateTokenCount_bounds small_env three_paragraphs).
  vm_compute. discriminate.
Defined.

(** ** Normalisation of white space and dashes *)

Lemma single_spaced_cons c s :
  single_spaced (c :: s)
  = (if is_space c then
       (c =? SPACE)%N
       && match s with d :: _ => negb (is_space d) | [] => true end
     else true)
    && single_spaced s.
Proof. done. Qed.

Lemma collapse_spaces_head s :
  match s with c :: _ => is_space c = false | [] => True end →
  match collapse_spaces s with c :: _ => is_space c = false | [] => True end.
Proof.
  destruct s as [|c s]; [done|]. intros Hc.
  by rewrite collapse_spaces_nonspace.
Qed.

Lemma collapse_spaces_single_spaced s : single_spaced (collapse_spaces s) = true.
Proof.
  assert (∀ n s, length s ≤ n → single_spaced (collapse_spaces s) = true) as H;
    [|by apply (H (length s))].
  clear s. induction n as [|n IH]; intros s Hlen.
  { destruct s; [done|simpl in Hlen; lia]. }
  destruct s as [|c s]; [done|]. simpl in Hlen.
  destruct (is_space c) eqn:Hc.
  - rewrite collapse_spaces_space by done. rewrite single_spaced_cons.
    change (is_space SPACE) with true. cbv iota. rewrite N.eqb_refl.
    pose proof (length_dropWhile_le is_space s) as Hle.
    rewrite (IH (dropWhile is_space s)) by lia.
    pose proof (collapse_spaces_head (dropWhile is_space s)) as Hhead.
    pose proof (dropWhile_head is_space s) as Hd.
    destruct (dropWhile is_space s) as [|d r]; [done|]. simpl in Hd.
    specialize (Hhead Hd).
    destruct (collapse_spaces (d :: r)) as [|e r']; [done|]. by rewrite Hhead.
  - rewrite collapse_spaces_nonspace by done. rewrite single_spaced_cons, Hc.
    apply IH. lia.
Qed.

Lemma single_spaced_app_r a b : single_spaced (a ++ b) = true → single_spaced b = true.
Proof.
  induction a as [|c a IH]; [done|]. simpl app. rewrite single_spaced_cons.
  intros [_ H]%andb_true_iff. auto.
Qed.

Lemma single_spaced_app_l a b : single_spaced (a ++ b) = true → single_spaced a = true.
Proof.
  induction a as [|c a IH]; [done|]. simpl app. rewrite !single_spaced_cons.
  intros [Hc H]%andb_true_iff. rewrite (IH H), andb_true_r.
  destruct (is_space c); [|done].
  apply andb_true_iff in Hc as [-> Hnext]. by destruct a.
Qed.

Lemma single_spaced_trim x : single_spaced x = true → single_spaced (trim x) = true.
Proof.
  destruct (trim_split x) as (l & t & Hx & _ & _). rewrite Hx at 1.
  intros H%single_spaced_app_r. by apply single_spaced_app_l in H.
Qed.

Lemma trimStart_idem x : trimStart (trimStart x) = trimStart x.
Proof.
  unfold trimStart. pose proof (dropWhile_head is_space x) as H.
  destruct (dropWhile is_space x) as [|c r]; [done|]. simpl in *. by rewrite H.
Qed.

Lemma trim_idem x : trim (trim x) = trim x.
Proof.
  unfold trim. rewrite (trimEnd_trimStart x), trimStart_idem.
  rewrite <- trimEnd_trimStart.
  apply trimEnd_fixed, trimEnd_ends_nonspace.
Qed.

Lemma collapse_spaces_fixed s : single_spaced s = true → collapse_spaces s = s.
Proof.
  induction s as [|c s IH]; [done|]. rewrite single_spaced_cons.
  intros [Hc Hs]%andb_true_iff. destruct (is_space c) eqn:Hsp.
  - apply andb_true_iff in Hc as [->%N.eqb_eq Hnext].
    rewrite collapse_spaces_space by done.
    assert (dropWhile is_space s = s) as ->.
    { destruct s as [|d s]; [done|]. simpl.
      by apply negb_true_iff in Hnext as ->. }
    by rewrite IH.
  - rewrite collapse_spaces_nonspace by done. by rewrite IH.
Qed.

(** X6: the text returned by [normalizeWhitespace] has no white space
    at its ends and no white space other than single blanks, and
    [normalizeWhitespace] leaves it as it is. *)
Theorem normalizeWhitespace_normal_form t :
  single_spaced (normalizeWhitespace t) = true
  ∧ trim (normalizeWhitespace t) = normalizeWhitespace t
  ∧ normalizeWhitespace (normalizeWhitespace t) = normalizeWhitespace t.
Proof.
  assert (single_spaced (normalizeWhitespace t) = true) as Hs.
  { apply single_spaced_trim, collapse_spaces_single_spaced. }
  split_and!; [done|apply trim_idem|].
  unfold normalizeWhitespace at 1.
  rewrite collapse_spaces_fixed by done. apply trim_idem.
Qed.

Lemma collapse_go_space p c r :
  is_space c = true → collapse_go p (c :: r) = collapse_go true r.
Proof. intros Hc. simpl. by rewrite Hc. Qed.

Lemma collapse_go_collapse_go q p x :
  collapse_go q (collapse_go p x) = collapse_go (p || q) x.
Proof.
  revert p q. induction x as [|c x IH]; intros p q.
  - destruct p, q; done.
  - destruct (is_space c) eqn:Hc.
    + rewrite (collapse_go_space p c x), (collapse_go_space (p || q) c x) by done.
      by rewrite IH.
    + destruct (is_dash c) eqn:Hd.
      * rewrite (collapse_go_dash p c x), (collapse_go_dash (p || q) c x) by done.
        rewrite (collapse_go_space q SPACE) by done.
        rewrite collapse_go_dash by done. by rewrite IH.
      * rewrite (collapse_go_other p c x), (collapse_go_other (p || q) c x) by done.
        destruct p; simpl app.
        -- rewrite (collapse_go_space q SPACE) by done.
           rewrite collapse_go_other by done. by rewrite IH.
        -- rewrite collapse_go_other by done. by rewrite IH.
Qed.

Lemma normalize_trim y :
  normalizeWhitespace (normalizeDashSpacing (trim y))
  = normalizeWhitespace (normalizeDashSpacing y).
Proof.
  destruct (trim_split y) as (l & t & Hy & Hl & Ht).
  rewrite Hy at 2. by rewrite normalize_padding.
Qed.

(** X7: normalising a normalised text changes nothing: the dash spacing
    followed by the white-space normalisation, as
    [validatePreserveSource] applies them to the source, is idempotent. *)
Theorem source_norm_idempotent x :
  source_norm (source_norm x) = source_norm x
  ∧ normalizeWhitespace (normalizeDashSpacing (source_norm x)) = source_norm x.
Proof.
  assert (normalizeWhitespace (normalizeDashSpacing (source_norm x))
          = source_norm x) as H.
  { unfold source_norm. rewrite (normalize_trim x).
    rewrite (normalize_one_pass x), normalize_trim, normalize_one_pass.
    by rewrite collapse_go_collapse_go. }
  split; [|done]. unfold source_norm at 1. by rewrite normalize_trim.
Qed.

(** ** The source test looks for the source inside the candidate *)

Lemma collapse_go_prefix p x b :
  ∃ body (p' : bool),
    collapse_go p x = body ++ (if p' then [SPACE] else [])
    ∧ collapse_go p (x ++ b) = body ++ collapse_go p' b.
Proof.
  revert p. induction x as [|c x IH]; intros p.
  - exists [], p. by destruct p.
  - simpl app. destruct (is_space c) eqn:Hc.
    + rewrite !collapse_go_space by done. apply IH.
    + destruct (is_dash c) eqn:Hd.
      * rewrite !collapse_go_dash by done.
        destruct (IH true) as (body & p' & -> & ->).
        by exists (SPACE :: c :: body), p'.
      * rewrite !collapse_go_other by done.
        destruct (IH false) as (body & p' & -> & ->).
        exists ((if p then [SPACE] else []) ++ c :: body), p'.
        by rewrite <- !(assoc_L (++)).
Qed.

Lemma trim_collapse_go_pending p y :
  trim (collapse_go p y) = trim (collapse_go false y).
Proof. destruct p; [|done]. unfold trim. by rewrite collapse_go_pending. Qed.

Lemma trimStart_keeps u c w :
  is_space c = false → ∃ u', trimStart (u ++ c :: w) = u' ++ c :: w.
Proof.
  intros Hc. induction u as [|a u IH].
  - exists []. unfold trimStart. simpl. by rewrite Hc.
  - unfold trimStart in *. simpl. destruct (is_space a).
    + apply IH.
    + by exists (a :: u).
Qed.

Lemma trim_keeps_core u core v :
  core ≠ [] →
  match head core with Some c => is_space c = false | None => True end →
  ends_nonspace core →
  ∃ u' v', trim (u ++ core ++ v) = u' ++ core ++ v'.
Proof.
  intros Hne Hhead Hlast. destruct core as [|c core]; [done|]. simpl in Hhead.
  unfold trim. simpl app.
  destruct (trimStart_keeps u c (core ++ v) Hhead) as [u' ->].
  change (u' ++ c :: core ++ v) with (u' ++ (c :: core) ++ v).
  rewrite (assoc_L (++)).
  rewrite trimEnd_app_nonspace; [|by destruct u'|by apply ends_nonspace_app].
  exists u', (trimEnd v). by rewrite <- (assoc_L (++)).
Qed.

Lemma normalize_includes a x b :
  includes (trim (collapse_go false (a ++ x ++ b))) (trim (collapse_go false x))
  = true.
Proof.
  destruct (collapse_go_prefix false a (x ++ b)) as (out & p1 & _ & ->).
  destruct (collapse_go_prefix p1 x b) as (body & p2 & Hx & ->).
  assert (trim (collapse_go false x) = trim body) as Hcore.
  { rewrite <- (trim_collapse_go_pending p1), Hx. unfold trim.
    rewrite !trimEnd_trimStart. f_equal.
    apply trimEnd_app_spaces. destruct p2; by repeat constructor. }
  rewrite Hcore. apply includes_spec.
  destruct (trim body) as [|c core] eqn:Hbody.
  { exists [], (trim (out ++ body ++ collapse_go p2 b)). done. }
  destruct (trim_split body) as (l & t & Hsplit & _ & _).
  rewrite Hbody in Hsplit. rewrite Hsplit.
  rewrite <- !(assoc_L (++)). rewrite (assoc_L (++) out l).
  rewrite <- Hbody. apply trim_keeps_core.
  - by rewrite Hbody.
  - unfold trim. rewrite trimEnd_trimStart. apply dropWhile_head.
  - apply trimEnd_ends_nonspace.
Qed.

(** X8: [validatePreserveSource] accepts every candidate whose text,
    once its definition blocks and markers are removed, contains the
    source as a contiguous part: text added before or behind the source
    is not rejected. *)
Theorem validatePreserveSource_accepts_additions src annotated a b :
  strip_footnotes annotated = a ++ src ++ b →
  validatePreserveSource src annotated = true.
Proof.
  intros Hbody. rewrite validatePreserveSource_eq.
  apply orb_true_iff. right.
  unfold body_norm, source_norm. rewrite Hbody, normalize_trim.
  rewrite !normalize_one_pass. apply normalize_includes.
Qed.

Lemma validatePreserveSource_accepts_additions_witness :
  validatePreserveSource dusk_chunk dusk_candidate = true.
Proof.
  apply (validatePreserveSource_accepts_additions dusk_chunk dusk_candidate
           (str "Well, ") (str " Indeed!" ++ [LF])).
  reflexivity.
Defined.

(** X9: [validateFootnoteEmojis] accepts every text in which no line
    begins with a definition head, the empty text among them: without
    definitions there is nothing to check. *)
Theorem validateFootnoteEmojis_without_definitions text :
  no_def_line text → validateFootnoteEmojis text = true.
Proof.
  intros Hlines. apply validateFootnoteEmojis_true. intros l g Hl Hg.
  unfold no_def_line in Hlines. rewrite Forall_forall in Hlines.
  unfold def_line_content in Hg. by rewrite (Hlines l Hl) in Hg.
Qed.

Lemma validateFootnoteEmojis_without_definitions_witness :
  validateFootnoteEmojis [] = true ∧ validateFootnoteEmojis sun_body = true.
Proof.
  split; apply validateFootnoteEmojis_without_definitions;
    vm_compute; repeat constructor.
Defined.

(** X20: [validatePreserveSource] rejects every candidate that, without
    its definition blocks and markers, has fewer characters other than
    white space than the source: text that lost characters never
    passes, whatever else was changed. *)
Theorem validatePreserveSource_rejects_shorter src annotated :
  length (visible (strip_footnotes annotated)) < length (visible src) →
  validatePreserveSource src annotated = false.
Proof.
  intros Hlen. rewrite validatePreserveSource_eq.
  assert (length (visible (body_norm annotated))
          < length (visible (source_norm src))) as Hnorm.
  { unfold body_norm. by rewrite visible_normalize, visible_source_norm. }
  apply orb_false_iff. split.
  - apply negb_false_iff, nonempty_true. intros Hnil.
    rewrite Hnil in Hnorm. simpl in Hnorm. lia.
  - apply not_true_is_false. intros Hinc%includes_visible. lia.
Qed.

Lemma validatePreserveSource_rejects_shorter_witness :
  validatePreserveSource sun_chunk (candidate sunless_body sun_defs) = false.
Proof.
  apply validatePreserveSource_rejects_shorter. vm_compute. lia.
Defined.

(** ** Dashes stand between blanks *)

Lemma space_not_dash c : is_space c = true → is_dash c = false.
Proof.
  intros Hc. destruct (is_dash c) eqn:Hd; [|done].
  apply dash_not_space in Hd. congruence.
Qed.

Lemma dashes_spaced_skip b pre c rest :
  Forall (λ a, is_dash a = false) pre → is_dash c = false →
  dashes_spaced b (pre ++ c :: rest) = dashes_spaced (c =? SPACE)%N rest.
Proof.
  intros Hpre Hc. revert b. induction Hpre as [|a pre Ha Hpre IH]; intros b.
  - simpl. by rewrite Hc.
  - simpl. rewrite Ha. apply IH.
Qed.

Lemma dashes_spaced_no_dash b s :
  Forall (λ a, is_dash a = false) s → dashes_spaced b s = true.
Proof.
  intros Hs. revert b. induction Hs as [|a s Ha Hs IH]; intros b; [done|].
  simpl. rewrite Ha. apply IH.
Qed.

Lemma dashes_spaced_dash b d rest :
  is_dash d = true →
  dashes_spaced b (SPACE :: d :: SPACE :: rest) = dashes_spaced true rest.
Proof.
  intros Hd. change (dashes_spaced b (SPACE :: d :: SPACE :: rest))
    with (if is_dash d
          then true && (SPACE =? SPACE)%N && dashes_spaced true rest
          else dashes_spaced (d =? SPACE)%N (SPACE :: rest)).
  by rewrite Hd.
Qed.

(** X26: in the text returned by [normalizeDashSpacing] every em dash
    and en dash stands between two blanks. *)
Theorem normalizeDashSpacing_spaces_dashes x :
  dashes_spaced false (normalizeDashSpacing x) = true.
Proof.
  generalize false as b. remember (length x) as k eqn:Hk. revert x Hk.
  induction k as [k IH] using lt_wf_ind. intros x Hk b.
  destruct (space_run_cases x) as (sp & r & -> & Hsp & Hr).
  rewrite length_app in Hk.
  assert (Forall (λ a, is_dash a = false) sp) as Hnd.
  { eapply Forall_impl; [exact Hsp|]. apply space_not_dash. }
  destruct r as [|c r].
  - rewrite (normalizeDashSpacing_spaces sp []) by done.
    change (normalizeDashSpacing []) with (@nil N). rewrite app_nil_r.
    by apply dashes_spaced_no_dash.
  - destruct (is_dash c) eqn:Hd.
    + rewrite normalizeDashSpacing_dash by done.
      rewrite dashes_spaced_dash by done.
      apply (IH (length (dropWhile is_space r))); [|done].
      pose proof (length_dropWhile_le is_space r). simpl in Hk. lia.
    + rewrite normalizeDashSpacing_spaces by done.
      rewrite normalizeDashSpacing_other by done.
      rewrite dashes_spaced_skip by done.
      apply (IH (length r)); [simpl in Hk; lia|done].
Qed.

(** ** The first and the last words of a normalised text *)

Lemma split_re_spaces_nonspace c s :
  is_space c = false →
  split re_spaces (c :: s)
  = match split re_spaces s with p :: ps => (c :: p) :: ps | [] => [[c]] end.
Proof. intros Hc. apply split_no_match. by apply re_spaces_nonspace. Qed.

Lemma split_re_spaces_blank s :
  match s with d :: _ => is_space d = false | [] => True end →
  split re_spaces (SPACE :: s) = [] :: split re_spaces s.
Proof.
  intros Hs. rewrite (split_match _ _ _ 1); [done| |lia].
  rewrite re_spaces_space by done.
  destruct s as [|d s]; [done|]. simpl. by rewrite Hs.
Qed.

Lemma join_cons_char sep c p ps :
  join sep ((c :: p) :: ps) = c :: join sep (p :: ps).
Proof. by destruct ps. Qed.

Lemma split_join_normal s :
  single_spaced s = true → join [SPACE] (split re_spaces s) = s.
Proof.
  induction s as [|c s IH]; [done|]. rewrite single_spaced_cons.
  intros [Hc Hs]%andb_true_iff. specialize (IH Hs).
  pose proof (split_go_nonempty re_spaces 0 s) as Hne.
  fold (split re_spaces s) in Hne.
  destruct (is_space c) eqn:Hsp.
  - apply andb_true_iff in Hc as [->%N.eqb_eq Hnext].
    rewrite split_re_spaces_blank.
    + rewrite join_cons by done. by rewrite IH.
    + destruct s as [|d s]; [done|]. by apply negb_true_iff.
  - rewrite split_re_spaces_nonspace by done.
    destruct (split re_spaces s) as [|p ps]; [done|].
    by rewrite join_cons_char, IH.
Qed.

Lemma join_app_prefix sep (t d : list jsstring) :
  ∃ r, join sep (t ++ d) = join sep t ++ r.
Proof.
  destruct t as [|a t]; [by eexists|].
  destruct d as [|b d]; [exists []; by rewrite !app_nil_r|].
  rewrite join_app by done. by eexists.
Qed.

Lemma join_app_suffix sep (t d : list jsstring) :
  ∃ p, join sep (t ++ d) = p ++ join sep d.
Proof.
  destruct d as [|b d]; [eexists; by rewrite !app_nil_r|].
  destruct t as [|a t]; [by exists []|].
  rewrite join_app by done. eexists. by rewrite (assoc_L (++)).
Qed.

Lemma join_split_at sep (l : list jsstring) n :
  ∃ r, join sep l = join sep (take n l) ++ r.
Proof.
  pose proof (join_app_prefix sep (take n l) (drop n l)) as H.
  by rewrite take_drop in H.
Qed.

Lemma join_split_from sep (l : list jsstring) n :
  ∃ p, join sep l = p ++ join sep (drop n l).
Proof.
  pose proof (join_app_suffix sep (take n l) (drop n l)) as H.
  by rewrite take_drop in H.
Qed.

(** X27: for the normalised source, on which [validatePreserveSource]
    calls them, [firstWords] returns a beginning of the text and
    [lastWords] an end of it, and both return the whole text when it
    has at most [n] words; the window of the fallback is therefore
    anchored at pieces of the source itself. *)
Theorem firstWords_lastWords_of_source src n :
  1 ≤ n →
  let srcNorm := source_norm src in
  (∃ r, srcNorm = firstWords srcNorm n ++ r)
  ∧ (∃ p, srcNorm = p ++ lastWords srcNorm n)
  ∧ (length (split re_spaces srcNorm) ≤ n →
     firstWords srcNorm n = srcNorm ∧ lastWords srcNorm n = srcNorm).
Proof.
  intros Hn srcNorm.
  assert (join [SPACE] (split re_spaces srcNorm) = srcNorm) as Hjoin.
  { apply split_join_normal. unfold srcNorm, source_norm.
    apply single_spaced_trim, collapse_spaces_single_spaced. }
  unfold firstWords, lastWords, last_n. cbv zeta.
  set (parts := split re_spaces srcNorm) in *. split_and!.
  - destruct (join_split_at [SPACE] parts n) as [r Hr].
    exists r. by rewrite <- Hr.
  - destruct (join_split_from [SPACE] parts (length parts - n)) as [p Hp].
    exists p. by rewrite <- Hp.
  - intros Hlen. rewrite take_ge by done.
    by replace (length parts - n) with 0 by lia.
Qed.

Lemma firstWords_lastWords_of_source_witness :
  firstWords (source_norm sun_chunk) 8 = source_norm sun_chunk
  ∧ lastWords (source_norm sun_chunk) 8 = source_norm sun_chunk.
Proof.
  destruct (firstWords_lastWords_of_source sun_chunk 8) as (_ & _ & H); [lia|].
  apply H. vm_compute. lia.
Defined.

(** ** Relocation keeps every definition *)

Lemma no_block_trimEnd w : no_block w → no_block (trimEnd w).
Proof.
  intros Hw u v Huv. destruct v as [|c v]; [done|].
  apply block_match_None. rewrite <- (app_nil_r (c :: v)).
  by apply (body_unmatched w u); [| | |left].
Qed.

(** X10: [ensureFootnotesAtEnd] loses no definition: its result is the
    body, in which no definition block is left, followed behind a blank
    line by every definition block of the text, in the order of the
    text, each without its leading line feed and its trailing white
    space; a scan of the result finds exactly these blocks, and the
    result does not end in white space. *)
Theorem ensureFootnotesAtEnd_keeps_definitions text :
  let blocks := clean_block <$> matchesAll FOOTNOTE_DEF_BLOCK_RE text in
  let body := trimEnd (without_defs text) in
  ensureFootnotesAtEnd text
  = match blocks with
    | [] => body
    | _ => body ++ [LF; LF] ++ join [LF] blocks
    end
  ∧ no_block body
  ∧ matchesAll FOOTNOTE_DEF_BLOCK_RE (ensureFootnotesAtEnd text)
    = (λ b, LF :: b) <$> blocks
  ∧ trimEnd (ensureFootnotesAtEnd text) = ensureFootnotesAtEnd text.
Proof.
  intros blocks body.
  pose proof (matches_good text) as Hgood.
  assert (no_block body) as Hbody
    by apply no_block_trimEnd, without_defs_no_block.
  assert (Forall good_block blocks ∧ Forall (λ b, b ≠ []) blocks)
    as (Hgb & Hne).
  { unfold blocks. rewrite !Forall_fmap.
    split; eapply Forall_impl; try exact Hgood; simpl; naive_solver. }
  assert (filter (λ b, nonempty b = true) blocks = blocks) as Hfilter.
  { clear -Hne. induction Hne as [|b bs Hb Hbs IH]; [done|].
    rewrite filter_cons_True by by apply nonempty_true. by rewrite IH. }
  destruct blocks as [|b bs] eqn:Hblocks.
  - assert (ensureFootnotesAtEnd text = body) as ->.
    { unfold ensureFootnotesAtEnd. fold blocks. by rewrite Hblocks. }
    split_and!; [done|done| |apply trimEnd_fixed, trimEnd_ends_nonspace].
    by destruct (no_block_scan (λ _, []) body Hbody) as [_ ->].
  - rewrite <- Hblocks in *.
    assert (blocks ≠ []) as Hbs by by rewrite Hblocks.
    destruct (blocks_text_ends_nonspace blocks Hbs Hgb) as [Hbt Hend].
    assert (body ++ [LF; LF] ++ join [LF] blocks
            = (body ++ [LF]) ++ blocks_text blocks) as Hshape.
    { rewrite <- blocks_text_join by done. by rewrite <- (assoc_L (++)). }
    assert (ensureFootnotesAtEnd text = (body ++ [LF]) ++ blocks_text blocks)
      as Hres.
    { unfold ensureFootnotesAtEnd. fold blocks. rewrite Hfilter.
      assert (has_elements blocks = true) as -> by (by rewrite Hblocks).
      simpl negb. cbv iota. fold body. rewrite Hshape.
      apply trimEnd_fixed. by apply ends_nonspace_app. }
    rewrite Hres. split_and!.
    + by rewrite Hblocks in *.
    + done.
    + destruct (scan_unmatched_prefix (λ _, []) (body ++ [LF]) (blocks_text blocks))
        as [_ ->].
      { intros u v Huv Hv.
        apply app_snoc_suffix in Huv as (v0 & -> & Hb); [|done].
        rewrite Hblocks, blocks_text_cons.
        destruct v0 as [|c v0].
        - apply block_match_None, not_true_is_false.
          intros (r & [= <-] & [n Hn])%block_start_true.
          by apply re_def_head_bracket in Hn.
        - rewrite <- (assoc_L (++)).
          apply (body_unmatched (without_defs text) u);
            [apply without_defs_no_block|done|done|].
          right. eauto. }
      destruct (scan_blocks (λ _, []) blocks) as [-> _]; [|done].
      eapply Forall_impl; [exact Hgb|]. by intros ? [? ?].
    + apply trimEnd_fixed. by apply ends_nonspace_app.
Qed.

(** X11: a text in which no definition block is found is only trimmed
    at its end; inline markers stay where they are. *)
Theorem ensureFootnotesAtEnd_without_definitions text :
  matchesAll FOOTNOTE_DEF_BLOCK_RE text = [] →
  ensureFootnotesAtEnd text = trimEnd text.
Proof.
  intros Hnb%matchesAll_nil_no_block. unfold ensureFootnotesAtEnd.
  by destruct (no_block_scan (λ _, [LF]) text Hnb) as [-> ->].
Qed.

Lemma ensureFootnotesAtEnd_without_definitions_witness :
  ensureFootnotesAtEnd (sun_body ++ [SPACE; LF]) = sun_body.
Proof.
  rewrite (ensureFootnotesAtEnd_without_definitions (sun_body ++ [SPACE; LF]));
    reflexivity.
Defined.
(** ** Renumbering across chunks *)

(** X12: a text whose identifiers, in the order of their first
    occurrence, already count from [start] is left as it is by
    [normalizeFootnotesSafe(text, start)], and [nextId] is [start] plus
    their number, when [start] and that sum lie between [-2^53] and
    [2^53]; in particular a text without markers is unchanged and
    [nextId] is [start]. *)
Theorem normalizeFootnotesSafe_fixed_point text start k :
  exact_integer start →
  exact_integer (start + Z.of_nat k) →
  first_occurrences (mark_ids (tokenize text))
  = String_of_Z <$> seqZ start (Z.of_nat k) →
  normalizeFootnotesSafe text start = (text, (start + Z.of_nat k)%Z).
Proof.
  intros [Hs _] [_ Hk] Horder. rewrite renumber_identity.
  - rewrite Horder, length_fmap, length_seqZ. f_equal.
    rewrite counted_exact; lia.
  - rewrite Horder. intros x Hx. apply assigned_id_counted; [lia|lia|done].
Qed.

Lemma normalizeFootnotesSafe_fixed_point_witness :
  normalizeFootnotesSafe (str "a[^3] b[^4] a[^3]") 3
  = (str "a[^3] b[^4] a[^3]", 5%Z)
  ∧ normalizeFootnotesSafe (str "no footnote") 7 = (str "no footnote", 7%Z).
Proof.
  split.
  - apply (normalizeFootnotesSafe_fixed_point _ 3 2);
      [unfold exact_integer; lia|unfold exact_integer; lia|reflexivity].
  - apply (normalizeFootnotesSafe_fixed_point _ 7 0);
      [unfold exact_integer; lia|unfold exact_integer; lia|reflexivity].
Defined.

Lemma marker_head_LF b : marker_head (LF :: b) = None.
Proof.
  destruct (marker_head (LF :: b)) as [n|] eqn:H; [|done].
  by apply marker_head_bracket in H.
Qed.

Lemma tokenize_app_LF a b :
  tokenize (a ++ LF :: b) = tokenize a ++ Chr LF :: tokenize b.
Proof.
  induction a as [|c s Hm IH|d r Hd Hr IH|d r Hd IH] using text_cases.
  - simpl app. by rewrite tokenize_chr by apply marker_head_LF.
  - simpl app. rewrite (tokenize_chr c s) by done.
    rewrite tokenize_chr, IH; [done|].
    destruct (marker_head (c :: s ++ LF :: b)) as [n|] eqn:Hn; [|done].
    apply (marker_head_local (c :: s) b []) in Hn.
    rewrite app_nil_r in Hn. congruence.
  - rewrite (tokenize_ref d r) by done.
    simpl app. rewrite <- (assoc_L (++)). simpl app.
    rewrite tokenize_ref, IH; [done|done|].
    destruct r; [done|]. done.
  - rewrite (tokenize_def d r) by done.
    simpl app. rewrite <- (assoc_L (++)). simpl app.
    by rewrite tokenize_def, IH.
Qed.

Lemma mark_ids_app ts1 ts2 : mark_ids (ts1 ++ ts2) = mark_ids ts1 ++ mark_ids ts2.
Proof. unfold mark_ids. apply omap_app. Qed.

Lemma mark_ids_chr c ts : mark_ids (Chr c :: ts) = mark_ids ts.
Proof. done. Qed.

Lemma mark_ids_join parts :
  mark_ids (tokenize (join [LF; LF] parts))
  = concat ((λ t, mark_ids (tokenize t)) <$> parts).
Proof.
  induction parts as [|p parts IH]; [done|].
  destruct parts as [|q parts].
  - simpl. by rewrite app_nil_r.
  - rewrite join_cons by done.
    set (rest := join [LF; LF] (q :: parts)) in *.
    change (p ++ [LF; LF] ++ rest) with (p ++ LF :: LF :: rest).
    rewrite tokenize_app_LF, mark_ids_app, mark_ids_chr.
    rewrite (tokenize_chr LF rest) by apply marker_head_LF.
    rewrite mark_ids_chr, IH. by rewrite (fmap_cons _ p).
Qed.

(** Identifiers counted from [n] on are new behind identifiers counted
    below [n]. *)
Lemma first_occurrences_consecutive l1 l2 s k1 k2 :
  (0 ≤ k1)%Z → (0 ≤ k2)%Z →
  first_occurrences l1 = String_of_Z <$> seqZ s k1 →
  first_occurrences l2 = String_of_Z <$> seqZ (s + k1) k2 →
  first_occurrences (l1 ++ l2) = String_of_Z <$> seqZ s (k1 + k2).
Proof.
  intros Hk1 Hk2 H1 H2. rewrite first_occurrences_app, H1, H2.
  rewrite seqZ_app, fmap_app by done. f_equal.
  apply filter_all. apply Forall_forall. intros x Hx Hin.
  apply first_occurrences_elem_of in Hin. rewrite H1 in Hin.
  apply list_elem_of_fmap in Hx as (z & -> & Hz).
  apply list_elem_of_fmap in Hin as (z' & Heq & Hz').
  apply (inj String_of_Z) in Heq as <-.
  apply elem_of_seqZ in Hz, Hz'. lia.
Qed.

Lemma combine_step_eq combined n c :
  combine_step (combined, n) c
  = (combined ++ [(normalizeFootnotesSafe (ensureFootnotesAtEnd c) n).1],
     (normalizeFootnotesSafe (ensureFootnotesAtEnd c) n).2).
Proof. done. Qed.

Lemma combine_loop_mono chunks combined n :
  (n ≤ (foldl combine_step (combined, n) chunks).2)%Z.
Proof.
  revert combined n. induction chunks as [|c chunks IH]; intros combined n;
    [done|].
  cbn [foldl]. rewrite combine_step_eq.
  etrans; [|apply IH].
  rewrite normalizeFootnotesSafe_tokens. apply counted_ge.
Qed.

(** The loop from any accumulator: while [nextId] ends below [2^53]
    every chunk is counted on from the [nextId] it meets. *)
Lemma combine_loop_numbering chunks combined n :
  (1 ≤ n)%Z →
  ((foldl combine_step (combined, n) chunks).2 < 2 ^ 53)%Z →
  ∃ parts, (foldl combine_step (combined, n) chunks).1 = combined ++ parts
           ∧ length parts = length chunks
           ∧ numbered_from n parts (foldl combine_step (combined, n) chunks).2.
Proof.
  revert combined n. induction chunks as [|c chunks IH]; intros combined n Hn.
  - simpl. intros _. exists []. by rewrite app_nil_r.
  - cbn [foldl]. rewrite combine_step_eq.
    pose proof (combine_loop_mono chunks
      (combined ++ [(normalizeFootnotesSafe (ensureFootnotesAtEnd c) n).1])
      (normalizeFootnotesSafe (ensureFootnotesAtEnd c) n).2) as Hmono.
    pose proof (combine_loop_mono [c] combined n) as Hstep.
    cbn [foldl] in Hstep. rewrite combine_step_eq in Hstep. cbn [snd] in Hstep.
    intros Hlt.
    destruct (renumbered_order (ensureFootnotesAtEnd c) n) as [Hord Hnext];
      [lia|].
    cbv zeta in Hord, Hnext. revert Hord Hnext Hmono Hstep Hlt.
    set (k := length (first_occurrences _)).
    set (p := (normalizeFootnotesSafe (ensureFootnotesAtEnd c) n).1).
    set (n' := (normalizeFootnotesSafe (ensureFootnotesAtEnd c) n).2).
    intros Hord Hnext Hmono Hstep Hlt.
    destruct (IH (combined ++ [p]) n') as (parts & Hparts & Hlen & Hnum);
      [lia|done|].
    assert (n' = n + Z.of_nat k)%Z as Hn' by lia.
    exists (p :: parts). split_and!.
    + by rewrite Hparts, <- (assoc_L (++)).
    + simpl. by rewrite Hlen.
    + simpl. exists k. split.
      * rewrite Hord. do 2 f_equal. lia.
      * by rewrite <- Hn'.
Qed.

Lemma numbered_from_le s parts e : numbered_from s parts e → (s ≤ e)%Z.
Proof.
  revert s. induction parts as [|p parts IH]; intros s; simpl.
  - lia.
  - intros (k & _ & Hnum%IH). lia.
Qed.

Lemma numbered_from_range s parts e i p x :
  numbered_from s parts e → parts !! i = Some p →
  x ∈ mark_ids (tokenize p) →
  ∃ z, x = String_of_Z z ∧ (s ≤ z < e)%Z.
Proof.
  revert s i. induction parts as [|p0 parts IH]; intros s i; [done|].
  simpl. intros (k & Hord & Hnum). destruct i as [|i]; simpl.
  - intros [= ->] Hx. apply first_occurrences_elem_of in Hx.
    rewrite Hord in Hx. apply list_elem_of_fmap in Hx as (z & -> & Hz).
    apply elem_of_seqZ in Hz. apply numbered_from_le in Hnum.
    exists z. split; [done|lia].
  - intros Hi Hx. destruct (IH _ _ Hnum Hi Hx) as (z & -> & Hz).
    exists z. split; [done|lia].
Qed.

Lemma numbered_from_apart s parts e i j p q x :
  numbered_from s parts e → i < j →
  parts !! i = Some p → parts !! j = Some q →
  x ∈ mark_ids (tokenize p) → x ∉ mark_ids (tokenize q).
Proof.
  revert s i j. induction parts as [|p0 parts IH]; intros s i j; [done|].
  simpl. intros (k & Hord & Hnum) Hij. destruct j as [|j]; [lia|].
  destruct i as [|i]; simpl.
  - intros [= ->] Hq Hx Hxq. apply first_occurrences_elem_of in Hx.
    rewrite Hord in Hx. apply list_elem_of_fmap in Hx as (z & -> & Hz).
    apply elem_of_seqZ in Hz.
    destruct (numbered_from_range _ _ _ _ _ _ Hnum Hq Hxq) as (z' & Heq & Hz').
    apply (inj String_of_Z) in Heq as <-. lia.
  - intros Hp Hq. apply (IH _ i j Hnum); [lia|done|done].
Qed.

Lemma numbered_from_concat s parts e :
  numbered_from s parts e →
  first_occurrences (concat ((λ t, mark_ids (tokenize t)) <$> parts))
  = String_of_Z <$> seqZ s (e - s).
Proof.
  revert s. induction parts as [|p parts IH]; intros s; simpl.
  - intros ->. by rewrite Z.sub_diag.
  - intros (k & Hord & Hnum).
    pose proof (numbered_from_le _ _ _ Hnum) as Hle.
    replace (e - s)%Z with (Z.of_nat k + (e - (s + Z.of_nat k)))%Z by lia.
    apply first_occurrences_consecutive; [lia|lia|done|].
    by apply IH.
Qed.

(** X13: in the text that [processFile] writes, every chunk continues
    the numbering where the chunk before it stopped: the identifiers
    of the first chunk, in the order of their first occurrence, are
    1, 2, ..., those of each later chunk count on from the [nextId] the
    chunk before it left, and the last stops before the final [nextId];
    so no identifier is used by two chunks, and the identifiers of the
    whole text are 1, 2, ..., [nextId - 1] without gap.  (The final
    [nextId] is below [2^53], up to which the counter is exact.) *)
Theorem finalText_identifiers_consecutive annotatedChunks :
  let combined := (combine_loop annotatedChunks).1 in
  let nextId := (combine_loop annotatedChunks).2 in
  (nextId < 2 ^ 53)%Z →
  finalText annotatedChunks = join [LF; LF] combined
  ∧ length combined = length annotatedChunks
  ∧ numbered_from 1 combined nextId
  ∧ (∀ i j p q x,
       i < j → combined !! i = Some p → combined !! j = Some q →
       x ∈ mark_ids (tokenize p) → x ∉ mark_ids (tokenize q))
  ∧ first_occurrences (mark_ids (tokenize (finalText annotatedChunks)))
    = String_of_Z <$> seqZ 1 (nextId - 1).
Proof.
  intros combined nextId Hlt.
  destruct (combine_loop_numbering annotatedChunks [] 1)
    as (parts & Hparts & Hlen & Hnum); [lia|exact Hlt|].
  simpl in Hparts. fold (combine_loop annotatedChunks) in Hparts, Hnum.
  fold combined in Hparts. fold nextId in Hnum. subst parts.
  split_and!; [done|done|done| |].
  - intros i j p q x. by apply (numbered_from_apart 1 combined nextId).
  - unfold finalText. fold combined. rewrite mark_ids_join.
    by apply numbered_from_concat.
Qed.

Lemma finalText_identifiers_consecutive_witness :
  ((combine_loop [chunk_one; chunk_two]).2 < 2 ^ 53)%Z
  ∧ (combine_loop [chunk_one; chunk_two]).2 = 4%Z
  ∧ numbered_from 1 (combine_loop [chunk_one; chunk_two]).1 4
  ∧ first_occurrences
      (mark_ids (tokenize (finalText [chunk_one; chunk_two])))
    = [str "1"; str "2"; str "3"].
Proof.
  assert ((combine_loop [chunk_one; chunk_two]).2 < 2 ^ 53)%Z as Hlt
    by by vm_compute.
  assert ((combine_loop [chunk_one; chunk_two]).2 = 4%Z) as Hnext
    by by vm_compute.
  destruct (finalText_identifiers_consecutive [chunk_one; chunk_two] Hlt)
    as (_ & _ & Hnum & _ & Hall).
  split_and!; [done|done| |].
  - by rewrite Hnext in Hnum.
  - rewrite Hall, Hnext. reflexivity.
Defined.

(** ** The sub-chunk fallback *)

Lemma elem_of_counted l k x :
  first_occurrences l = String_of_Z <$> seqZ 1 (Z.of_nat k) →
  x ∈ l ↔ ∃ z, x = String_of_Z z ∧ (1 ≤ z < 1 + Z.of_nat k)%Z.
Proof.
  intros Hl. rewrite <- first_occurrences_elem_of, Hl, list_elem_of_fmap.
  by setoid_rewrite elem_of_seqZ.
Qed.

(** Identifiers counted from 1 behind identifiers counted from 1: the
    longer count. *)
Lemma first_occurrences_from_one l1 l2 k1 k2 :
  first_occurrences l1 = String_of_Z <$> seqZ 1 (Z.of_nat k1) →
  first_occurrences l2 = String_of_Z <$> seqZ 1 (Z.of_nat k2) →
  first_occurrences (l1 ++ l2)
  = String_of_Z <$> seqZ 1 (Z.of_nat (k1 `max` k2)).
Proof.
  intros H1 H2. rewrite first_occurrences_app, H1, H2.
  destruct (decide (k2 ≤ k1)) as [Hle|Hgt].
  - rewrite Nat.max_l by done. rewrite filter_none; [by rewrite app_nil_r|].
    apply Forall_forall. intros x (z & -> & Hz)%list_elem_of_fmap Hnot.
    apply elem_of_seqZ in Hz. apply Hnot.
    apply (elem_of_counted l1 k1); [done|]. exists z. split; [done|lia].
  - rewrite Nat.max_r by lia.
    replace (Z.of_nat k2) with (Z.of_nat k1 + Z.of_nat (k2 - k1))%Z by lia.
    rewrite (seqZ_app 1) by lia. rewrite !fmap_app, filter_app.
    rewrite filter_none, filter_all; [done| |].
    + apply Forall_forall. intros x (z & -> & Hz)%list_elem_of_fmap Hin.
      apply elem_of_seqZ in Hz.
      apply (elem_of_counted l1 k1) in Hin as (z' & Heq & Hz'); [|done].
      apply (inj String_of_Z) in Heq as <-. lia.
    + apply Forall_forall. intros x (z & -> & Hz)%list_elem_of_fmap Hnot.
      apply elem_of_seqZ in Hz. apply Hnot.
      apply (elem_of_counted l1 k1); [done|]. exists z. split; [done|lia].
Qed.

Lemma subchunk_part_order annotated :
  ∃ k, first_occurrences (mark_ids (tokenize (subchunk_part annotated)))
       = String_of_Z <$> seqZ 1 (Z.of_nat k)
       ∧ (Z.of_nat k ≤ 2 ^ 53)%Z.
Proof.
  destruct (renumbered_order (ensureFootnotesAtEnd annotated) 1) as [Hord _];
    [lia|].
  cbv zeta in Hord. revert Hord.
  set (n := Z.of_nat (length (first_occurrences _))). intros Hord.
  exists (Z.to_nat (n `min` (2 ^ 53 - 1 + 1))). split; [|lia].
  unfold subchunk_part. rewrite Hord. do 2 f_equal. lia.
Qed.

Lemma subchunk_parts_order annotatedParts :
  ∃ k, first_occurrences
         (concat ((λ t, mark_ids (tokenize t)) <$> (subchunk_part <$> annotatedParts)))
       = String_of_Z <$> seqZ 1 (Z.of_nat k)
       ∧ (Z.of_nat k ≤ 2 ^ 53)%Z.
Proof.
  induction annotatedParts as [|a parts (k2 & IH & Hk2)].
  - exists 0. split; [done|lia].
  - destruct (subchunk_part_order a) as (k1 & Hk1 & Hle1).
    exists (k1 `max` k2). split; [|lia]. rewrite !fmap_cons. simpl concat.
    by apply first_occurrences_from_one.
Qed.

(** X14: in the sub-chunk fallback every part is renumbered from 1 on
    its own, and the renumbering of the joined parts changes nothing:
    the result is the parts joined by blank lines, each with the
    numbers it received alone. *)
Theorem combine_subchunks_keeps_part_numbers annotatedParts :
  combine_subchunks annotatedParts
  = join [LF; LF] (subchunk_part <$> annotatedParts).
Proof.
  unfold combine_subchunks.
  destruct (subchunk_parts_order annotatedParts) as (k & Hk & Hle).
  rewrite <- mark_ids_join in Hk.
  rewrite renumber_identity; [done|].
  rewrite Hk. intros x Hx. apply assigned_id_counted; [lia|lia|done].
Qed.

(** ** The retry loop stops at the first decisive attempt *)

Lemma backoff_loop_decisive post maxRetries remaining attempt k :
  (0 ≤ attempt ≤ k)%Z →
  (k < attempt + Z.of_nat remaining)%Z →
  retryable_before post k → decisive (post k) →
  (k < maxRetries)%Z →
  backoff_loop post maxRetries remaining attempt = post k.
Proof.
  revert attempt. induction remaining as [|rem IH];
    intros attempt Hatt Hrem Hbefore Hk Hmax.
  - lia.
  - simpl. destruct (decide (attempt = k)) as [->|Hne].
    + destruct (post k) as [text|e]; [done|]. simpl in Hk. by rewrite Hk.
    + destruct (Hbefore attempt) as (e & -> & Hretry); [lia|].
      rewrite Hretry. simpl.
      destruct (attempt =? maxRetries - 1)%Z eqn:Hlast.
      * apply Z.eqb_eq in Hlast. lia.
      * apply IH; [lia|lia|done|done|done].
Qed.

(** X15: [callChatWithBackoff] ends with the first attempt that returns
    or fails with an error that is not retried: when the attempts before
    attempt [k] fail with retryable errors, the call gives the answer of
    attempt [k], or re-raises its error at once, whatever later attempts
    would have done. *)
Theorem callChatWithBackoff_first_decisive post maxRetries k :
  (0 ≤ k < maxRetries)%Z →
  retryable_before post k → decisive (post k) →
  callChatWithBackoff post maxRetries = post k.
Proof.
  intros Hk Hbefore Hdec. unfold callChatWithBackoff.
  apply backoff_loop_decisive; [lia|lia|done|done|lia].
Qed.

Lemma callChatWithBackoff_first_decisive_witness :
  callChatWithBackoff flaky_post 6 = Returned (str "ok")
  ∧ callChatWithBackoff (λ _, Thrown bad_request) 6 = Thrown bad_request.
Proof.
  split.
  - apply (callChatWithBackoff_first_decisive flaky_post 6 2); [lia| |done].
    intros j Hj. exists too_many_requests. unfold flaky_post.
    destruct (j <? 2)%Z eqn:Hlt; [done|]. apply Z.ltb_ge in Hlt. lia.
  - apply (callChatWithBackoff_first_decisive (λ _, Thrown bad_request) 6 0);
      [lia| |reflexivity].
    intros j Hj. lia.
Defined.

(** ** VocabMemory *)

Lemma vocab_run_inv env limit data ops :
  let vm := vocab_run env limit data ops in
  vocab_inv env vm ∧ storeLimit vm = limit
  ∧ ((1 ≤ limit)%Z → (Z.of_nat (length (terms vm)) ≤ limit)%Z).
Proof.
  unfold vocab_run.
  assert (∀ vm, vocab_inv env vm → storeLimit vm = limit →
    ((1 ≤ limit)%Z → (Z.of_nat (length (terms vm)) ≤ limit)%Z) →
    let vm' := foldl (run_op env) vm ops in
    vocab_inv env vm' ∧ storeLimit vm' = limit
    ∧ ((1 ≤ limit)%Z → (Z.of_nat (length (terms vm')) ≤ limit)%Z)) as Hrun.
  { induction ops as [|op ops IH]; intros vm Hinv Hlim Hlen.
    - done.
    - change (foldl (run_op env) vm (op :: ops))
        with (foldl (run_op env) (run_op env vm op) ops).
      destruct (run_op_inv env vm op Hinv) as (Hinv' & Hlim' & Hlen').
      apply IH; [done|congruence|].
      intros H1. rewrite <- Hlim. apply Hlen'; rewrite Hlim; auto. }
  set (vm0 := {| storeLimit := limit; terms := []; lower := ∅ |}).
  assert (vocab_inv env vm0) as H0.
  { split; simpl; [apply NoDup_nil_2|done]. }
  destruct (load_inv env data vm0 H0) as (Hinv & Hlim & Hlen).
  apply Hrun; [done|done|].
  intros H1. apply Hlen; simpl; [done|lia].
Qed.

(** X16: after the construction and any run of [load], [addTerms] and
    [updateFromText], the look-up set [lower] holds exactly the
    lower-case forms of the stored terms, so the membership test of
    [addTerms] is exact; the capacity is the one given at construction,
    and it bounds the number of terms when it is at least 1. *)
Theorem VocabMemory_lower_mirrors_terms env limit data ops :
  let vm := vocab_run env limit data ops in
  (∀ x, x ∈ lower vm ↔ ∃ t, t ∈ terms vm ∧ x = toLowerCase env t)
  ∧ storeLimit vm = limit
  ∧ ((1 ≤ limit)%Z → (Z.of_nat (length (terms vm)) ≤ limit)%Z).
Proof.
  intros vm. destruct (vocab_run_inv env limit data ops) as ([_ Hlow] & Hlim & Hlen).
  fold vm in Hlow, Hlim, Hlen. split_and!; [|done|done].
  intros x. rewrite Hlow, elem_of_lower_set, list_elem_of_fmap. naive_solver.
Qed.

Lemma VocabMemory_lower_mirrors_terms_witness :
  (Z.of_nat (length (terms (vocab_run example_env 2 memory_file
                              [op_updateFromText annotated_text]))) ≤ 2)%Z.
Proof.
  apply (VocabMemory_lower_mirrors_terms example_env 2 memory_file
           [op_updateFromText annotated_text]).
  lia.
Defined.

(** X17: [recent(limit)] returns the newest [limit] terms in their
    order, all terms when fewer are stored, and nothing when [limit] is
    not positive. *)
Theorem recent_newest_terms limit this :
  ((limit ≤ 0)%Z → recent limit this = [])
  ∧ ((0 < limit)%Z →
     recent limit this
     = drop (length (terms this) - Z.to_nat limit) (terms this)
     ∧ length (recent limit this)
       = Z.to_nat limit `min` length (terms this)).
Proof.
  unfold recent. split; intros Hl.
  - by rewrite (proj2 (Z.leb_le _ _) Hl).
  - rewrite (proj2 (Z.leb_gt _ _) Hl). unfold array_slice_from.
    rewrite (proj2 (Z.ltb_lt _ _)) by lia.
    replace (Z.to_nat (Z.max (Z.of_nat (length (terms this)) + - limit) 0))
      with (length (terms this) - Z.to_nat limit) by lia.
    split; [done|]. rewrite length_drop. lia.
Qed.

Lemma recent_newest_terms_witness :
  recent 0 (vocab_run example_env 5 memory_file []) = []
  ∧ recent 1 (vocab_run example_env 5 memory_file []) = [str "moon"].
Proof.
  destruct (recent_newest_terms 0 (vocab_run example_env 5 memory_file []))
    as [H0 _].
  destruct (recent_newest_terms 1 (vocab_run example_env 5 memory_file []))
    as [_ H1].
  split; [apply H0; lia|].
  destruct H1 as [-> _]; [lia|]. reflexivity.
Defined.

Lemma add_terms_loop_shape env new_terms this updated :
  vocab_inv env this →
  let r := foldl (add_term env) (this, updated) new_terms in
  ∃ news,
    terms r.1 = terms this ++ news
    ∧ r.2 = updated || has_elements news
    ∧ Forall (λ t, toLowerCase env t ∉ lower this) news
    ∧ (news = [] → r.1 = this).
Proof.
  revert this updated.
  induction new_terms as [|term ts IH]; intros this updated Hinv; simpl.
  - exists []. rewrite app_nil_r, orb_false_r. done.
  - pose proof (add_term_inv env this updated term Hinv) as [Hinv' _].
    unfold add_term in *.
    destruct (nonempty (trim term)); simpl in *; [|by apply IH].
    destruct (decide _) as [Hin|Hnin]; simpl in *; [by apply IH|].
    destruct (IH _ true Hinv') as (news & Hterms & Hupd & Hnew & _).
    simpl in *. exists (trim term :: news). split_and!.
    + by rewrite Hterms, <- (assoc_L (++)).
    + rewrite Hupd. by rewrite orb_true_r.
    + constructor; [done|].
      eapply Forall_impl; [exact Hnew|]. intros t Ht. set_solver.
    + done.
Qed.

(** X18: the answer of [addTerms] tells whether the store changed: on
    [false] the store is exactly as before, on [true] the list of terms
    is a different one (so [save] is called when, and only when, there
    is something new to write). *)
Theorem addTerms_reports_change env limit data ops new_terms :
  (0 ≤ limit)%Z →
  let vm := vocab_run env limit data ops in
  ((addTerms env new_terms vm).2 = false → (addTerms env new_terms vm).1 = vm)
  ∧ ((addTerms env new_terms vm).2 = true →
     terms (addTerms env new_terms vm).1 ≠ terms vm).
Proof.
  intros Hlimit vm.
  destruct (vocab_run_inv env limit data ops) as (Hinv & Hlim & Hlen).
  fold vm in Hinv, Hlim, Hlen.
  destruct (add_terms_loop_shape env new_terms vm false Hinv)
    as (news & Hterms & Hupd & Hnew & Hsame).
  pose proof (add_terms_loop_inv env new_terms vm false Hinv) as [_ Hlim'].
  unfold addTerms.
  destruct (foldl (add_term env) (vm, false) new_terms) as [this' updated].
  simpl in *. subst updated. split.
  - intros Hnone. destruct news; [|done]. rewrite Hsame by done.
    destruct (_ <? _)%Z eqn:Hover; [|done].
    apply Z.ltb_lt in Hover.
    assert (storeLimit vm = 0%Z) as H0 by lia.
    destruct Hinv as [_ Hlow]. destruct vm as [sl ts lw]. simpl in *.
    rewrite H0. unfold array_slice_from. simpl.
    replace (Z.to_nat (Z.min (- 0) (Z.of_nat (length ts)))) with 0 by lia.
    simpl. by rewrite Hlow.
  - intros Hsome.
    assert (1 ≤ length news) as Hlen1 by (destruct news; [done|simpl; lia]).
    destruct (_ <? _)%Z eqn:Hover; simpl.
    + unfold array_slice_from. rewrite Hlim', Hlim, Hterms.
      destruct (- limit <? 0)%Z eqn:Hneg.
      * apply Z.ltb_lt in Hneg.
        set (n := Z.to_nat (Z.max (Z.of_nat (length (terms vm ++ news)) + - limit) 0)).
        assert (n < length (terms vm ++ news)) as Hn
          by (unfold n; rewrite length_app; lia).
        intros Heq.
        assert (∃ t, news !! (length news - 1) = Some t) as [t Ht].
        { apply lookup_lt_is_Some. lia. }
        assert (t ∈ terms vm) as Hin.
        { rewrite <- Heq. apply list_elem_of_lookup.
          exists (length (terms vm ++ news) - 1 - n).
          rewrite lookup_drop.
          replace (n + (length (terms vm ++ news) - 1 - n))
            with (length (terms vm) + (length news - 1))
            by (rewrite length_app in *; lia).
          rewrite lookup_app_r by lia.
          by replace (length (terms vm) + (length news - 1) - length (terms vm))
            with (length news - 1) by lia. }
        rewrite Forall_forall in Hnew.
        apply (Hnew t); [by eapply list_elem_of_lookup_2|].
        destruct Hinv as [_ ->]. apply elem_of_lower_set.
        by apply list_elem_of_fmap_2.
      * apply Z.ltb_ge in Hneg.
        replace (Z.to_nat (Z.min (- limit) (Z.of_nat (length (terms vm ++ news)))))
          with 0 by lia.
        rewrite drop_0. intros Heq. apply (f_equal length) in Heq.
        rewrite length_app in Heq. lia.
    + rewrite Hterms. intros Heq. apply (f_equal length) in Heq.
      rewrite length_app in Heq. lia.
Qed.

Lemma addTerms_reports_change_witness :
  (addTerms example_env [str "SUN"; str " "]
     (vocab_run example_env 5 memory_file [])).1
  = vocab_run example_env 5 memory_file []
  ∧ terms (addTerms example_env [str "star"]
             (vocab_run example_env 5 memory_file [])).1
    ≠ terms (vocab_run example_env 5 memory_file []).
Proof.
  split.
  - apply (addTerms_reports_change example_env 5 memory_file []
             [str "SUN"; str " "]); [lia|reflexivity].
  - apply (addTerms_reports_change example_env 5 memory_file []
             [str "star"]); [lia|reflexivity].
Defined.

Lemma indexOf_cons a s x :
  indexOf (a :: s) x
  = if startsWith (a :: s) x then Some 0 else S <$> indexOf s x.
Proof. done. Qed.

Lemma startsWith_char a s c : startsWith (a :: s) [c] = (c =? a)%N.
Proof. simpl. destruct s; simpl; apply andb_true_r. Qed.

Lemma indexOf_char_None s c : indexOf s [c] = None → c ∉ s.
Proof.
  induction s as [|a s IH]; [intros _; apply not_elem_of_nil|].
  rewrite indexOf_cons, startsWith_char.
  destruct (c =? a)%N eqn:Hc; [done|].
  apply N.eqb_neq in Hc. destruct (indexOf s [c]); [done|].
  intros _. rewrite not_elem_of_cons. auto.
Qed.

Lemma indexOf_char_Some s c i : indexOf s [c] = Some i → c ∉ take i s.
Proof.
  revert i. induction s as [|a s IH]; intros i.
  - intros _. rewrite take_nil. apply not_elem_of_nil.
  - rewrite indexOf_cons, startsWith_char. destruct (c =? a)%N eqn:Hc.
    + intros [= <-]. apply not_elem_of_nil.
    + apply N.eqb_neq in Hc. destruct (indexOf s [c]) as [j|] eqn:Hj; [|done].
      intros [= <-]. simpl. rewrite not_elem_of_cons. auto.
Qed.

Lemma cut_at_separator_prefix seps candidate :
  ∃ n, cut_at_separator seps candidate = take n candidate.
Proof.
  induction seps as [|sep seps IH]; simpl.
  - exists (length candidate). by rewrite take_ge.
  - destruct (indexOf candidate sep); eauto.
Qed.

Lemma cut_at_separator_no_colon candidate :
  COLON ∉ cut_at_separator TERM_SEPARATORS candidate.
Proof.
  set (rest := tail TERM_SEPARATORS).
  change (COLON ∉ match indexOf candidate [COLON] with
                  | Some idx => take idx candidate
                  | None => cut_at_separator rest candidate
                  end).
  destruct (indexOf candidate [COLON]) as [i|] eqn:Hi.
  - by apply indexOf_char_Some.
  - apply indexOf_char_None in Hi.
    destruct (cut_at_separator_prefix rest candidate) as [n ->].
    intros Hin. apply Hi. rewrite <- (take_drop n candidate).
    apply elem_of_app. by left.
Qed.

Lemma elem_of_trim c x : c ∈ trim x → c ∈ x.
Proof.
  destruct (trim_split x) as (l & t & Hx & _ & _). rewrite Hx at 2.
  rewrite !elem_of_app. auto.
Qed.

Lemma extract_term_Some g term :
  extract_term g = Some term →
  term ≠ []
  ∧ ∃ content, term = trim (cut_at_separator TERM_SEPARATORS content).
Proof.
  unfold extract_term. cbv zeta.
  destruct (nonempty (trim g)); cbn [negb]; [|done].
  set (content := strip_emoji ALLOWED_EMOJIS (trim g)).
  destruct (nonempty content); cbn [negb]; [|done].
  destruct (nonempty (trim (cut_at_separator TERM_SEPARATORS content))) eqn:Hne;
    [|done].
  intros [= <-]. split; [by apply nonempty_true|by exists content].
Qed.

(** X19: every term that [extractTerms] returns is non-empty, has no
    white space at its ends and contains no colon; a text in which no
    line begins with a definition head yields no term. *)
Theorem extractTerms_terms_clean text :
  Forall (λ term, term ≠ [] ∧ trim term = term ∧ COLON ∉ term)
    (extractTerms text)
  ∧ (no_def_line text → extractTerms text = []).
Proof.
  unfold extractTerms, FOOTNOTE_DEF_RE_contents. split.
  - apply Forall_forall. intros term Hterm.
    apply list_elem_of_omap in Hterm as (g & _ & Hg).
    apply extract_term_Some in Hg as (Hne & content & ->).
    split_and!; [done|apply trim_idem|].
    intros Hin%elem_of_trim. by apply cut_at_separator_no_colon in Hin.
  - intros Hlines. unfold no_def_line in Hlines.
    induction Hlines as [|l ls Hl Hls IH]; [done|].
    rewrite omap_cons_eq. unfold def_line_content at 1. by rewrite Hl.
Qed.

Lemma extractTerms_terms_clean_witness :
  extractTerms sun_body = []
  ∧ extractTerms annotated_text = [str "star"; str "set"].
Proof.
  split; [|reflexivity].
  apply (extractTerms_terms_clean sun_body). vm_compute. repeat constructor.
Defined.

Lemma load_terms_clean env data this :
  Forall (λ t, t ≠ [] ∧ trim t = t) (terms this) →
  Forall (λ t, t ≠ [] ∧ trim t = t) (terms (load env data this)).
Proof.
  intros Hclean. unfold load. destruct data as [data|]; [|done].
  assert (∀ acc, Forall (λ t, t ≠ [] ∧ trim t = t) acc.1 →
    Forall (λ t, t ≠ [] ∧ trim t = t) (foldl (load_entry env) acc data).1)
    as Hloop.
  { induction data as [|e data IH]; intros acc Hacc; [done|].
    simpl. apply IH. destruct acc as [filtered seen]. unfold load_entry.
    destruct e as [entry|]; [|done].
    destruct (nonempty (trim entry)) eqn:Hne; simpl; [|done].
    destruct (decide _); simpl; [done|].
    apply Forall_app. split; [done|]. constructor; [|done].
    split; [by apply nonempty_true|apply trim_idem]. }
  specialize (Hloop ([], ∅) (Forall_nil_2 _)).
  destruct (foldl _ _ _) as [filtered seen]. simpl in *.
  destruct (array_slice_from_drop (- storeLimit this) filtered) as [n ->].
  by apply Forall_drop.
Qed.

Lemma addTerms_terms_clean env new_terms this :
  Forall (λ t, t ≠ [] ∧ trim t = t) (terms this) →
  Forall (λ t, t ≠ [] ∧ trim t = t) (terms (addTerms env new_terms this).1).
Proof.
  intros Hclean. unfold addTerms.
  assert (∀ acc, Forall (λ t, t ≠ [] ∧ trim t = t) (terms acc.1) →
    Forall (λ t, t ≠ [] ∧ trim t = t)
      (terms (foldl (add_term env) acc new_terms).1)) as Hloop.
  { induction new_terms as [|term ts IH]; intros acc Hacc; [done|].
    simpl. apply IH. destruct acc as [vm updated]. unfold add_term.
    destruct (nonempty (trim term)) eqn:Hne; simpl; [|done].
    destruct (decide _); simpl; [done|].
    apply Forall_app. split; [done|]. constructor; [|done].
    split; [by apply nonempty_true|apply trim_idem]. }
  specialize (Hloop (this, false) Hclean).
  destruct (foldl _ _ _) as [this' updated]. simpl in *.
  destruct (_ <? _)%Z; simpl; [|done].
  destruct (array_slice_from_drop (- storeLimit this') (terms this')) as [n ->].
  by apply Forall_drop.
Qed.

(** X25: a VocabMemory never stores a blank or padded term: after the
    construction and any run of [load], [addTerms] and [updateFromText]
    every stored term is non-empty and has no white space at its
    ends. *)
Theorem VocabMemory_terms_trimmed env limit data ops :
  Forall (λ t, t ≠ [] ∧ trim t = t) (terms (vocab_run env limit data ops)).
Proof.
  unfold vocab_run.
  assert (Forall (λ t, t ≠ [] ∧ trim t = t)
            (terms (new_VocabMemory env limit data))) as H0.
  { unfold new_VocabMemory. by apply load_terms_clean. }
  revert H0. generalize (new_VocabMemory env limit data) as vm.
  induction ops as [|op ops IH]; intros vm Hvm; [done|].
  simpl. apply IH. destruct op as [d|ts|text]; unfold run_op, updateFromText.
  - by apply load_terms_clean.
  - by apply addTerms_terms_clean.
  - by apply addTerms_terms_clean.
Qed.

(** ** File names *)

Lemma re_unsafe_run_safe c s : is_safe_char c = true → re_unsafe_run (c :: s) = None.
Proof. unfold re_unsafe_run, is_unsafe_char. simpl. by intros ->. Qed.

Lemma re_unsafe_run_unsafe c s :
  is_safe_char c = false →
  re_unsafe_run (c :: s) = Some (S (length (takeWhile is_unsafe_char s))).
Proof. unfold re_unsafe_run, is_unsafe_char. simpl. by intros ->. Qed.

Lemma safeName_safe_char c s :
  is_safe_char c = true → safeName (c :: s) = c :: safeName s.
Proof.
  intros Hc. unfold safeName.
  by rewrite replaceAll_no_match by by apply re_unsafe_run_safe.
Qed.

Lemma safeName_unsafe_char c s :
  is_safe_char c = false →
  safeName (c :: s) = UNDERSCORE :: safeName (dropWhile is_unsafe_char s).
Proof.
  intros Hc. unfold safeName.
  rewrite (replaceAll_match _ _ _ _ _ (re_unsafe_run_unsafe c s Hc)) by lia.
  simpl. by rewrite drop_length_takeWhile.
Qed.

Lemma safeName_spec_go n s :
  length s ≤ n →
  Forall (λ c, is_safe_char c = true) (safeName s)
  ∧ length (safeName s) ≤ length s
  ∧ (s ≠ [] → safeName s ≠ []).
Proof.
  revert s. induction n as [|n IH]; intros s Hlen.
  { destruct s; [done|simpl in Hlen; lia]. }
  destruct s as [|c s]; [done|]. simpl in Hlen.
  destruct (is_safe_char c) eqn:Hc.
  - rewrite safeName_safe_char by done.
    destruct (IH s) as (Hsafe & Hle & _); [lia|].
    split_and!; [by constructor|simpl; lia|done].
  - rewrite safeName_unsafe_char by done.
    pose proof (length_dropWhile_le is_unsafe_char s) as Hd.
    destruct (IH (dropWhile is_unsafe_char s)) as (Hsafe & Hle & _); [lia|].
    split_and!; [by constructor|simpl; lia|done].
Qed.

Lemma safeName_fixed s :
  Forall (λ c, is_safe_char c = true) s → safeName s = s.
Proof.
  induction 1 as [|c s Hc Hs IH]; [done|].
  by rewrite safeName_safe_char, IH.
Qed.

(** X21: the directory name that [defaultCacheBaseDir] derives from a
    file name holds only letters, digits, dots, underscores and hyphens
    (so no path separator), is not longer than the name, is not empty
    for a non-empty name, and is the name itself when that is already
    safe; sanitising twice changes nothing. *)
Theorem safeName_is_safe rawName :
  Forall (λ c, is_safe_char c = true) (safeName rawName)
  ∧ length (safeName rawName) ≤ length rawName
  ∧ (rawName ≠ [] → safeName rawName ≠ [])
  ∧ (Forall (λ c, is_safe_char c = true) rawName → safeName rawName = rawName)
  ∧ safeName (safeName rawName) = safeName rawName.
Proof.
  destruct (safeName_spec_go (length rawName) rawName) as (Hsafe & Hle & Hne);
    [done|].
  split_and!; [done|done|done|apply safeName_fixed|by apply safeName_fixed].
Qed.

Lemma safeName_is_safe_witness :
  safeName (str "my book (v2)!") = str "my_book_v2_"
  ∧ safeName (str "my_book-v2.final") = str "my_book-v2.final"
  ∧ cache_dir_name [] = str "input.cache".
Proof.
  split; [reflexivity|]. split; [|reflexivity].
  destruct (safeName_is_safe (str "my_book-v2.final")) as (_ & _ & _ & Hfix & _).
  apply Hfix. vm_compute. repeat constructor.
Defined.

Lemma pretty_N_char_nonzero x :
  (0 < x < 10)%N → N_of_ascii (pretty_N_char x) ≠ 48%N.
Proof.
  intros Hx.
  assert (x = 1 ∨ x = 2 ∨ x = 3 ∨ x = 4 ∨ x = 5 ∨ x = 6 ∨ x = 7 ∨ x = 8 ∨ x = 9)%N
    as Hcases by lia.
  repeat destruct Hcases as [->|Hcases]; try subst x; done.
Qed.

Lemma pretty_N_go_head x s :
  (0 < x)%N →
  ∃ d r, str (pretty_N_go x s) = d :: r ∧ d ≠ 48%N.
Proof.
  revert s. induction (N.lt_wf_0 x) as [x _ IH]; intros s Hx.
  rewrite pretty_N_go_step by done.
  destruct (decide (x `div` 10 = 0)%N) as [Hdiv|Hdiv].
  - rewrite Hdiv, pretty_N_go_0, str_String. eexists _, _. split; [done|].
    apply pretty_N_char_nonzero.
    apply N.div_small_iff in Hdiv; [|done].
    rewrite N.mod_small by done. lia.
  - apply IH; [apply N.div_lt; lia|by apply N.neq_0_lt_0].
Qed.

Lemma String_of_Z_head n :
  (1 ≤ n)%Z → ∃ d r, String_of_Z n = d :: r ∧ d ≠ 48%N.
Proof.
  intros Hn. unfold String_of_Z. destruct n as [|p|p]; [lia| |lia].
  change (pretty (Z.pos p)) with (pretty_N_go (N.pos p) "").
  apply pretty_N_go_head. lia.
Qed.

Lemma padStart_zero n s :
  padStart n (str "0") s = replicate (n - length s) 48%N ++ s.
Proof.
  unfold padStart. destruct (n <=? length s)%nat eqn:Hle.
  - apply Nat.leb_le in Hle. by replace (n - length s) with 0 by lia.
  - change (str "0") with [48%N]. cbv zeta. f_equal.
    generalize (n - length s) as k. intros k.
    assert (concat (replicate k [48%N]) = replicate k 48%N) as ->.
    { induction k as [|k IH]; [done|]. simpl. by rewrite IH. }
    apply take_ge. by rewrite length_replicate.
Qed.

Lemma zero_padding_inj k1 k2 (s1 s2 : jsstring) :
  head s1 ≠ Some 48%N → head s2 ≠ Some 48%N →
  s1 ≠ [] → s2 ≠ [] →
  replicate k1 48%N ++ s1 = replicate k2 48%N ++ s2 → s1 = s2.
Proof.
  intros H1 H2 Hn1 Hn2. revert k2. induction k1 as [|k1 IH]; intros [|k2]; simpl.
  - done.
  - intros ->. done.
  - intros <-. done.
  - intros [= Heq]. by apply (IH k2).
Qed.

(** X22: [cacheChunkPath] gives different chunks different file names:
    for indices from 1 on, the zero-padded name determines the index. *)
Theorem cache_chunk_name_inj i j :
  (1 ≤ i)%Z → (1 ≤ j)%Z →
  cache_chunk_name i = cache_chunk_name j → i = j.
Proof.
  intros Hi Hj. unfold cache_chunk_name. intros Heq%app_inv_tail.
  rewrite !padStart_zero in Heq.
  destruct (String_of_Z_head i Hi) as (d1 & r1 & H1 & Hd1).
  destruct (String_of_Z_head j Hj) as (d2 & r2 & H2 & Hd2).
  apply (inj String_of_Z).
  eapply zero_padding_inj; [| | | |exact Heq].
  - rewrite H1. simpl. congruence.
  - rewrite H2. simpl. congruence.
  - by rewrite H1.
  - by rewrite H2.
Qed.

Lemma cache_chunk_name_inj_witness :
  cache_chunk_name 7 = str "0007.md"
  ∧ cache_chunk_name 12345 = str "12345.md"
  ∧ (cache_chunk_name 7 = cache_chunk_name 7 → 7 = 7)%Z.
Proof.
  split; [reflexivity|]. split; [reflexivity|].
  apply (cache_chunk_name_inj 7 7); lia.
Defined.

(** ** A well-formed answer passes unchanged *)

Lemma scan_candidate f body defs :
  no_def_line body → Forall emoji_def_line defs → defs ≠ [] →
  replaceAll FOOTNOTE_DEF_BLOCK_RE f (candidate body defs)
  = (body ++ [LF]) ++ concat ((λ b, f (LF :: b)) <$> defs)
  ∧ matchesAll FOOTNOTE_DEF_BLOCK_RE (candidate body defs)
    = (λ b, LF :: b) <$> defs.
Proof.
  intros Hbody Hdefs Hne. unfold candidate. destruct defs as [|l defs]; [done|].
  set (bs := l :: defs) in *.
  assert (Forall scannable_block bs) as Hscan.
  { eapply Forall_impl; [exact Hdefs|]. apply emoji_def_line_scannable. }
  assert (body ++ [LF; LF] ++ join [LF] bs = (body ++ [LF]) ++ blocks_text bs) as ->.
  { rewrite <- blocks_text_join by done. by rewrite <- (assoc_L (++)). }
  destruct (scan_unmatched_prefix f (body ++ [LF]) (blocks_text bs)) as [-> ->].
  { intros u v Huv Hv.
    apply app_snoc_suffix in Huv as (v0 & -> & Hb); [|done].
    unfold bs. rewrite blocks_text_cons.
    destruct v0 as [|c v0].
    - apply block_match_None, not_true_is_false.
      intros (r & [= <-] & [n Hn])%block_start_true.
      by apply re_def_head_bracket in Hn.
    - rewrite <- (assoc_L (++)).
      apply (no_def_line_unmatched body u); [done|done|done|].
      right. eauto. }
  by destruct (scan_blocks f bs Hscan) as [-> ->].
Qed.

Lemma no_def_line_no_block body : no_def_line body → no_block body.
Proof.
  intros Hbody u v Huv. destruct v as [|c v]; [done|].
  apply block_match_None. rewrite <- (app_nil_r (c :: v)).
  by apply (no_def_line_unmatched body u); [| | |left].
Qed.

Lemma emoji_def_line_nonempty l : emoji_def_line l → l ≠ [].
Proof. by intros (d & sp & e & rest & -> & _). Qed.

Lemma ensureFootnotesAtEnd_candidate body defs :
  no_def_line body → Forall emoji_def_line defs →
  ends_nonspace body → Forall ends_nonspace defs →
  ensureFootnotesAtEnd (candidate body defs) = candidate body defs.
Proof.
  intros Hbody Hdefs Hend Hends.
  destruct (decide (defs = [])) as [->|Hne].
  - unfold candidate, ensureFootnotesAtEnd.
    destruct (no_block_scan (λ _, [LF]) body (no_def_line_no_block _ Hbody))
      as [-> ->].
    simpl. by apply trimEnd_fixed.
  - destruct (scan_candidate (λ _, [LF]) body defs Hbody Hdefs Hne) as [Hw Hm].
    unfold ensureFootnotesAtEnd. rewrite Hw, Hm, concat_const_LF.
    rewrite <- list_fmap_compose.
    assert ((clean_block ∘ (λ b, LF :: b)) <$> defs = defs) as ->.
    { clear -Hends. induction Hends as [|b bs Hb Hbs IH]; [done|].
      rewrite fmap_cons, IH. f_equal. by apply trimEnd_fixed. }
    assert (filter (λ b, nonempty b = true) defs = defs) as ->.
    { apply filter_all. eapply Forall_impl; [exact Hdefs|].
      intros l Hl. by apply nonempty_true, emoji_def_line_nonempty. }
    assert (has_elements defs = true) as -> by (by destruct defs).
    simpl negb. cbv iota.
    rewrite <- (assoc_L (++) body).
    rewrite (trimEnd_app_spaces body)
      by (apply Forall_app; split; [by repeat constructor|apply replicate_spaces]).
    rewrite (trimEnd_fixed body) by done.
    assert (Forall good_block defs) as Hgood.
    { apply Forall_forall. intros l Hl. rewrite Forall_forall in Hdefs, Hends.
      split; [by apply emoji_def_line_scannable, Hdefs|by apply Hends]. }
    destruct (blocks_text_ends_nonspace defs Hne Hgood) as [Hbt Hlast].
    unfold candidate. destruct defs as [|l defs']; [done|].
    set (bs := l :: defs') in *.
    assert (body ++ [LF; LF] ++ join [LF] bs = (body ++ [LF]) ++ blocks_text bs) as ->.
    { rewrite <- blocks_text_join by done. by rewrite <- (assoc_L (++)). }
    apply trimEnd_fixed. by apply ends_nonspace_app.
Qed.

(** X24: [annotateChunkWithPrompt] returns a well-formed answer as it
    is: when the answer is the chunk (free of marker text) with markers
    inserted and, behind a blank line, emoji definition lines, with no
    white space at the end of the body and of the lines, the relocation
    changes nothing, both checks pass and the answer is returned; an
    empty answer and an error of the call end in an error. *)
Theorem annotateChunkWithPrompt_returns_well_formed orig body defs :
  no_marker orig → marked orig body → no_def_line body →
  Forall emoji_def_line defs →
  body ≠ [] → ends_nonspace body → Forall ends_nonspace defs →
  annotateChunkWithPrompt orig (Returned (candidate body defs))
  = Returned (candidate body defs)
  ∧ annotateChunkWithPrompt orig (Returned [])
    = Thrown (new_Error (str "Empty response from OpenAI"))
  ∧ ∀ error, annotateChunkWithPrompt orig (Thrown error) = Thrown error.
Proof.
  intros Horig Hmarked Hbody Hdefs Hne Hend Hends.
  split; [|done]. unfold annotateChunkWithPrompt.
  assert (nonempty (candidate body defs) = true) as ->.
  { apply nonempty_true. unfold candidate.
    destruct defs; [done|]. by destruct body. }
  cbn [negb]. cbv zeta.
  rewrite ensureFootnotesAtEnd_candidate by done.
  rewrite validatePreserveSource_eq, (body_norm_candidate orig) by done.
  assert (includes (source_norm orig) (source_norm orig) = true) as ->.
  { apply includes_spec. exists [], []. by rewrite app_nil_r. }
  rewrite orb_true_r. cbn [negb].
  by rewrite validateFootnoteEmojis_candidate.
Qed.

Lemma annotateChunkWithPrompt_returns_well_formed_witness :
  annotateChunkWithPrompt sun_chunk (Returned (candidate sun_body sun_defs))
  = Returned (candidate sun_body sun_defs).
Proof.
  apply (annotateChunkWithPrompt_returns_well_formed sun_chunk sun_body sun_defs).
  - apply no_marker_check_sound. reflexivity.
  - solve_marked.
  - vm_compute. repeat constructor.
  - constructor; [|constructor; [|constructor]].
    + solve_emoji_def_line (str "1") [SPACE] [55357; 56538]%N (str " sun: the star").
    + solve_emoji_def_line (str "2") (@nil N) [9203]%N (str " set: past tense").
  - discriminate.
  - reflexivity.
  - repeat constructor.
Defined.
